(** * slim: byte-keyed trie with ternary search, and the compacted array codec

  A shallow embedding of [trie/trie.go] (package [trie]) and, for the
  serializer, of the array and codec described by the specification
  (their Go sources are not part of the repository snapshot; only
  [serialize/serialize_test.go] is).

  Conventions of the embedding.
  - A Go [int] is a [Z]; [len] of a slice is a [Z].
  - A Go [byte] is a [Byte.byte]; [int(b)] is [Z.of_N (Byte.to_N b)].
  - A [uint16] is a [Z] kept in [0, 65536) by writing the wrap-around out.
  - A run-time panic (index out of range, nil dereference) is [None] in
    an [option] result; everything the code returns normally is [Some].
  - The trie is a tree: every node is allocated by [addKV] and stored in
    exactly one [Children] map, so in-place mutation through a pointer is
    a functional update along the path to that node. *)

From Stdlib Require Import ZArith List Lia Bool Sorted.
From Stdlib Require Import Strings.Byte.
Import ListNotations.
Open Scope Z_scope.
Set Warnings "-register-all".

(** ** Go maps as association lists *)

Module GoMap.
Section GoMap.
Context {A : Type}.

(** [m[k]]: the value bound to [k], [None] for Go's nil/zero result. *)
Fixpoint lookup (k : Z) (m : list (Z * A)) : option A :=
  match m with
  | [] => None
  | (k', v) :: m' => if k' =? k then Some v else lookup k m'
  end.

(** [m[k] = v]: replaces the binding of [k], or adds one. *)
Fixpoint assign (k : Z) (v : A) (m : list (Z * A)) : list (Z * A) :=
  match m with
  | [] => [(k, v)]
  | (k', v') :: m' =>
      if k' =? k then (k, v) :: m' else (k', v') :: assign k v m'
  end.

(** [delete(m, k)]. *)
Fixpoint delete (k : Z) (m : list (Z * A)) : list (Z * A) :=
  match m with
  | [] => []
  | (k', v') :: m' =>
      if k' =? k then delete k m' else (k', v') :: delete k m'
  end.

Definition keys (m : list (Z * A)) : list Z := map fst m.
End GoMap.
End GoMap.

(** ** Slices *)

Definition len {A : Type} (l : list A) : Z := Z.of_nat (length l).

(** [l[i]] with the out-of-range panic as [None]. *)
Definition index {A : Type} (l : list A) (i : Z) : option A :=
if i <? 0 then None else nth_error l (Z.to_nat i).

Definition int_of_byte (b : byte) : Z := Z.of_N (Byte.to_N b).

(** [uint16] addition. *)
Definition uint16_add (a b : Z) : Z := (a + b) mod 65536.

(** ** Package trie *)

Module Trie.

Inductive ErrKind : Type :=
| ErrDuplicateKeys
| ErrValuesNotSlice
| ErrRangeNotMatch
| ErrKVLenNotMatch
| ErrKeyOutOfOrder.

(** Modelled from the spec: the error-context wrapper [xerrors.New] of the
  external package [xec/xerrors] "attaches a descriptive context (e.g.,
  offending key) to a construction failure while preserving the failure's
  identity".  A Go [error] value of this package is therefore either one
  of the five package-level errors or one of them with a key attached. *)
Inductive GoError : Type :=
| Plain (e : ErrKind)
| WithContext (e : ErrKind) (key : list byte).

Definition xerrors_New (e : ErrKind) (key : list byte) : GoError :=
WithContext e key.

Definition cause (e : GoError) : ErrKind :=
match e with Plain k => k | WithContext k _ => k end.

Definition leafBranch : Z := -1.

Section WithValue.
Variable V : Type.

(** [type Node struct].  [Value] is [None] for Go's nil interface. *)
#[local] Unset Elimination Schemes.
Inductive Node : Type := mkNode {
  Children : list (Z * Node);
  Branches : list Z;
  Step : Z;
  Value : option V;
  isStartLeaf : bool;
  isEndLeaf : bool
}.
#[local] Set Elimination Schemes.

(** The [values interface{}] argument of the constructors: a slice of
    values, or anything else. *)
Inductive GoValues : Type :=
| NotASlice
| Slice (vs : list V).

Definition toSlice (arg : GoValues) : option (list V) :=
  match arg with NotASlice => None | Slice vs => Some vs end.

(** [&Node{Children: make(map[int]*Node), Step: 1}] *)
Definition newNode : Node := mkNode [] [] 1 None false false.

(** [&Node{Value: value, isStartLeaf: ..., isEndLeaf: ...}] *)
Definition newLeaf (value : V) (s e : bool) : Node :=
  mkNode [] [] 0 (Some value) s e.

Definition setChildren (n : Node) (cs : list (Z * Node)) : Node :=
  mkNode cs (Branches n) (Step n) (Value n) (isStartLeaf n) (isEndLeaf n).

Definition setBranches (n : Node) (bs : list Z) : Node :=
  mkNode (Children n) bs (Step n) (Value n) (isStartLeaf n) (isEndLeaf n).

Definition setStep (n : Node) (s : Z) : Node :=
  mkNode (Children n) (Branches n) s (Value n) (isStartLeaf n) (isEndLeaf n).

Definition setIsEndLeaf (n : Node) (e : bool) : Node :=
  mkNode (Children n) (Branches n) (Step n) (Value n) (isStartLeaf n) e.

(** [node.Children[br] = n; node.Branches = append(node.Branches, br)] *)
Definition attach (node : Node) (br : Z) (n : Node) : Node :=
  mkNode (GoMap.assign br n (Children node)) (Branches node ++ [br])
         (Step node) (Value node) (isStartLeaf node) (isEndLeaf node).

(** *** addKV *)

(** The second half of [addKV]: one fresh node per byte of the unmatched
    suffix, then the sentinel leaf under the last of them.  [grow node
    suffix leaf] is [node] after the suffix and the leaf were hung below
    it. *)
Fixpoint grow (node : Node) (suffix : list byte) (leaf : Node) : Node :=
  match suffix with
  | [] => attach node leafBranch leaf
  | b :: rest => attach node (int_of_byte b) (grow newNode rest leaf)
  end.

(** [addKV]: the walk along the existing bytes of [key] is the recursion;
    the result is the trie after the insertion (the receiver is mutated in
    place in Go), or the error, in which case nothing was mutated.  The
    leaf pointer Go returns is the node at path [key] followed by the
    sentinel. *)
Fixpoint addKV (node : Node) (key : list byte) (value : V)
         (isStart isEnd : bool) : Node + ErrKind :=
  match key with
  | [] =>
      (* j == len(key) *)
      match GoMap.lookup leafBranch (Children node) with
      | Some _ => inr ErrDuplicateKeys
      | None =>
          if negb (len (Branches node) =? 0) then inr ErrKeyOutOfOrder
          else inl (grow node [] (newLeaf value isStart isEnd))
      end
  | b :: rest =>
      match GoMap.lookup (int_of_byte b) (Children node) with
      | None => inl (grow node key (newLeaf value isStart isEnd))
      | Some child =>
          match addKV child rest value isStart isEnd with
          | inl child' =>
              inl (setChildren node
                     (GoMap.assign (int_of_byte b) child' (Children node)))
          | inr e => inr e
          end
      end
  end.

(** *** New *)

Fixpoint New_loop (root : Node) (keys : list (list byte)) (vals : list V)
  : Node * option GoError :=
  match keys, vals with
  | key :: keys', v :: vals' =>
      match addKV root key v false false with
      | inl root' => New_loop root' keys' vals'
      | inr e => (root, Some (xerrors_New e key))
      end
  | _, _ => (root, None)
  end.

(** [New] returns the pair [(root, err)]; [root] is nil ([None]) only when
    the arguments are rejected before the root is allocated. *)
Definition New (keys : list (list byte)) (values : GoValues)
  : option Node * option GoError :=
  match toSlice values with
  | None => (None, Some (Plain ErrValuesNotSlice))
  | Some valSlice =>
      if negb (len keys =? len valSlice)
      then (None, Some (Plain ErrKVLenNotMatch))
      else let '(root, err) := New_loop newNode keys valSlice in
           (Some root, err)
  end.

(** *** neighborBranches *)

(** [for i, b = range branches { if b >= br { break } }] entered at the
    element [b] of index [i], with [rest] still to visit; the result is
    the final [(i, b)]. *)
Fixpoint scan (i b : Z) (rest : list Z) (br : Z) : Z * Z :=
  if b >=? br then (i, b)
  else match rest with
       | [] => (i, b)
       | b' :: rest' => scan (i + 1) b' rest' br
       end.

(** Returns [(ltIndex, rtIndex)]; on an empty slice the bare [return]
    yields the zero values of the named results. *)
Definition neighborBranches (branches : list Z) (br : Z) : Z * Z :=
  match branches with
  | [] => (0, 0)
  | b0 :: rest =>
      let '(i, b) := scan 0 b0 rest br in
      if b =? br then
        (i - 1, if i + 1 =? len branches then -1 else i + 1)
      else if b >? br then (i - 1, i)
      else (i, -1)
  end.

(** *** leftMost, rightMost *)

Fixpoint leftMost (r : Node) : option Node :=
  match r with
  | mkNode children branches _ _ _ _ =>
      match branches with
      | [] => Some r
      | firstBr :: _ =>
          (fix child (cs : list (Z * Node)) : option Node :=
             match cs with
             | [] => None (* nil node: len(node.Branches) panics *)
             | (k, c) :: cs' => if k =? firstBr then leftMost c else child cs'
             end) children
      end
  end.

Fixpoint rightMost (r : Node) : option Node :=
  match r with
  | mkNode children branches _ _ _ _ =>
      match branches with
      | [] => Some r
      | b0 :: bs =>
          let lastBr := last bs b0 in
          (fix child (cs : list (Z * Node)) : option Node :=
             match cs with
             | [] => None
             | (k, c) :: cs' => if k =? lastBr then rightMost c else child cs'
             end) children
      end
  end.

(** *** Search *)

(** The nodes tracked by the descent of [Search]: [(ltNode, eqNode, gtNode)],
  each possibly nil. *)
Definition Tracked : Type := option Node * option Node * option Node.

(** [ltNode = eqNode.Children[eqNode.Branches[li]]] when [li >= 0]; the
  slice index panics when out of range, the map read yields nil when the
  branch has no child. *)
Definition candidate (eqNode : Node) (idx : Z) (old : option Node)
  : option (option Node) :=
  if idx >=? 0 then
    match index (Branches eqNode) idx with
    | None => None
    | Some b => Some (GoMap.lookup b (Children eqNode))
    end
  else Some old.

(** The [for i := 0; ; { ... }] loop of [Search], entered with [eqNode], [i]
  and the candidates found so far.  Every iteration moves [eqNode] to one
  of its children, which is what the recursion follows. *)
Fixpoint descend (eqNode : Node) (key : list byte) (i : Z)
         (ltNode gtNode : option Node) {struct eqNode} : option Tracked :=
  match eqNode with
  | mkNode children branches _ _ _ _ =>
      match (if len key =? i then Some leafBranch
             else option_map int_of_byte (index key i)) with
      | None => None
      | Some br =>
          let '(li, ri) := neighborBranches branches br in
          match candidate eqNode li ltNode with
          | None => None
          | Some ltNode' =>
              match candidate eqNode ri gtNode with
              | None => None
              | Some gtNode' =>
                  (fix child (cs : list (Z * Node)) : option Tracked :=
                     match cs with
                     | [] => Some (ltNode', None, gtNode')
                     | (k, c) :: cs' =>
                         if k =? br then
                           if br =? leafBranch then
                             Some (ltNode', Some c, gtNode')
                           else
                             let i' := i + Step c in
                             if i' >? len key then Some (ltNode', None, Some c)
                             else descend c key i' ltNode' gtNode'
                         else child cs'
                     end) children
              end
          end
      end
  end.

(** [ltNode.rightMost().Value] and its like, guarded by the nil test. *)
Definition resolve (side : Node -> option Node) (n : option Node)
  : option (option V) :=
  match n with
  | None => Some None
  | Some m => option_map Value (side m)
  end.

(** [Search] returns [(ltValue, eqValue, gtValue)], or panics ([None]). *)
Definition Search (r : Node) (key : list byte)
  : option (option V * option V * option V) :=
  match descend r key 0 None None with
  | None => None
  | Some (ltNode, eqNode, gtNode) =>
      match resolve rightMost ltNode with
      | None => None
      | Some ltValue =>
          match resolve leftMost gtNode with
          | None => None
          | Some gtValue =>
              Some (ltValue, match eqNode with
                             | None => None
                             | Some n => Value n
                             end, gtValue)
          end
      end
  end.

(** *** Squash *)

(** The body of the loop of [Squash] after [n.Squash()]: the node that
  [r.Children[k]] holds afterwards.  [child.Step += 1] dereferences
  [child], which panics when the only branch of [n] has no child. *)
Definition promote (n : Node) : option Node :=
  match Branches n with
  | [b] =>
      if b =? leafBranch then Some n
      else match GoMap.lookup b (Children n) with
           | None => None
           | Some child => Some (setStep child (uint16_add (Step child) 1))
           end
  | _ => Some n
  end.

(** [Squash]: the loop ranges over [r.Children]; the iterations touch
  disjoint subtrees, so their order (unspecified in Go) is immaterial and
  the list order is taken. *)
Fixpoint Squash (r : Node) : option Node :=
  match r with
  | mkNode children branches step value s e =>
      match
        (fix loop (cs : list (Z * Node)) : option (list (Z * Node)) :=
           match cs with
           | [] => Some []
           | (k, n) :: cs' =>
               match Squash n with
               | None => None
               | Some n' =>
                   match promote n' with
                   | None => None
                   | Some m =>
                       match loop cs' with
                       | None => None
                       | Some rest => Some ((k, m) :: rest)
                       end
                   end
               end
           end) children
      with
      | None => None
      | Some children' => Some (mkNode children' branches step value s e)
      end
  end.

(** *** removeBranch *)

(** Go's [sort.Search(n, f)]: binary search for the least index in [0, n)
  at which [f] holds, [n] when there is none; [fuel] bounds the number of
  halvings and [n] of them always suffice. *)
Fixpoint sort_Search_loop (fuel : nat) (i j : Z) (f : Z -> bool) : Z :=
  match fuel with
  | O => i
  | S fuel' =>
      if i <? j then
        let h := Z.shiftr (i + j) 1 in
        if negb (f h) then sort_Search_loop fuel' (h + 1) j f
        else sort_Search_loop fuel' i h f
      else i
  end.

Definition sort_Search (n : Z) (f : Z -> bool) : Z :=
  sort_Search_loop (Z.to_nat n) 0 n f.

(** [append(s[:idx], s[idx+1:]...)] *)
Definition cut {A : Type} (s : list A) (idx : Z) : list A :=
  firstn (Z.to_nat idx) s ++ skipn (Z.to_nat (idx + 1)) s.

(** The [Branches] of [r] after [r.removeBranch(br)]. *)
Definition removeBranch (branches : list Z) (br : Z) : list Z :=
  let idx := sort_Search (len branches)
                         (fun i => nth (Z.to_nat i) branches 0 >=? br) in
  if (idx <? len branches) && (nth (Z.to_nat idx) branches 0 =? br)
  then cut branches idx
  else branches.

(** *** RemoveEndLeaves *)

(** The test of the first statement of [RemoveEndLeaves]: [r] has a
  sentinel leaf and it is an end-only leaf. *)
Definition endOnlyLeaf (children : list (Z * Node)) : bool :=
  match GoMap.lookup leafBranch children with
  | Some leaf => isEndLeaf leaf && negb (isStartLeaf leaf)
  | None => false
  end.

(** [RemoveEndLeaves].  When the sentinel leaf is end-only it is deleted
  from [Children] and [Branches] before the loop, so the loop does not see
  it ([dropped]).  The loop ranges over the remaining children, in list
  order; [loop cs bs] returns the children kept (each pruned in place) and
  the branches left of [bs]. *)
Fixpoint RemoveEndLeaves (r : Node) : Node :=
  match r with
  | mkNode children branches step value s e =>
      let dropped := endOnlyLeaf children in
      let branches0 :=
        if dropped then removeBranch branches leafBranch else branches in
      let '(children', branches') :=
        (fix loop (cs : list (Z * Node)) (bs : list Z)
           : list (Z * Node) * list Z :=
           match cs with
           | [] => ([], bs)
           | (k, n) :: cs' =>
               if dropped && (k =? leafBranch) then loop cs' bs
               else if len (Branches n) =? 0 then
                 let '(rest, bs') := loop cs' bs in ((k, n) :: rest, bs')
               else
                 let n' := RemoveEndLeaves n in
                 if len (Branches n') =? 0 then
                   loop cs' (removeBranch bs k)
                 else
                   let '(rest, bs') := loop cs' bs in ((k, n') :: rest, bs')
           end) children branches0 in
      mkNode children' branches' step value s e
  end.

(** *** NewRangeTrie *)

(** [leaf.isEndLeaf = true] through the pointer [addKV] returned for
  [key]: the node reached from [r] by the bytes of [key] and then the
  sentinel branch. *)
Fixpoint markEndLeaf (r : Node) (key : list byte) : Node :=
  let br := match key with [] => leafBranch | b :: _ => int_of_byte b end in
  match r with
  | mkNode children branches step value s e =>
      mkNode
        ((fix upd (cs : list (Z * Node)) : list (Z * Node) :=
            match cs with
            | [] => []
            | (k, c) :: cs' =>
                if k =? br then
                  (k, match key with
                      | [] => setIsEndLeaf c true
                      | _ :: rest => markEndLeaf c rest
                      end) :: cs'
                else (k, c) :: upd cs'
            end) children)
        branches step value s e
  end.

Fixpoint NewRangeTrie_loop (root : Node) (starts ends : list (list byte))
         (vals : list V) : Node * option GoError :=
  match starts, ends, vals with
  | s :: starts', e :: ends', v :: vals' =>
      match addKV root s v true false with
      | inr err => (root, Some (xerrors_New err s))
      | inl root1 =>
          match addKV root1 e v false true with
          | inl root2 => NewRangeTrie_loop root2 starts' ends' vals'
          | inr ErrDuplicateKeys =>
              NewRangeTrie_loop (markEndLeaf root1 s) starts' ends' vals'
          | inr err => (root1, Some (xerrors_New err e))
          end
      end
  | _, _, _ => (root, None)
  end.

Definition NewRangeTrie (starts ends : list (list byte)) (values : GoValues)
  : option Node * option GoError :=
  if negb (len starts =? len ends) then (None, Some (Plain ErrRangeNotMatch))
  else
    match toSlice values with
    | None => (None, Some (Plain ErrValuesNotSlice))
    | Some valSlice =>
        if negb (len starts =? len valSlice)
        then (None, Some (Plain ErrKVLenNotMatch))
        else let '(root, err) := NewRangeTrie_loop newNode starts ends valSlice in
             (Some root, err)
    end.

End WithValue.

Arguments mkNode {V}.
Arguments Children {V}.
Arguments Branches {V}.
Arguments Step {V}.
Arguments Value {V}.
Arguments isStartLeaf {V}.
Arguments isEndLeaf {V}.
Arguments NotASlice {V}.
Arguments Slice {V}.
Arguments toSlice {V}.
Arguments newNode {V}.
Arguments newLeaf {V}.
Arguments setChildren {V}.
Arguments setBranches {V}.
Arguments setStep {V}.
Arguments setIsEndLeaf {V}.
Arguments attach {V}.
Arguments grow {V}.
Arguments addKV {V}.
Arguments New_loop {V}.
Arguments New {V}.
Arguments leftMost {V}.
Arguments rightMost {V}.
Arguments candidate {V}.
Arguments descend {V}.
Arguments resolve {V}.
Arguments Search {V}.
Arguments promote {V}.
Arguments Squash {V}.
Arguments endOnlyLeaf {V}.
Arguments RemoveEndLeaves {V}.
Arguments markEndLeaf {V}.
Arguments NewRangeTrie_loop {V}.
Arguments NewRangeTrie {V}.

End Trie.

(** ** Package array *)

Module Array.
Section WithElt.
Variable E : Type.

(** Modelled from the spec: the type [Array] of package [array], whose
  source is not in the repository snapshot.  [Cnt] is the number of stored
  elements; [Bitmaps] has one word per bucket of the index domain;
  [Offsets] is aligned with [Bitmaps]; [Elts] is the dense sequence of the
  stored values. *)
Record Array : Type := mkArray {
  Cnt : Z;
  Bitmaps : list Z;
  Offsets : list Z;
  Elts : list E
}.

(** Modelled from the spec: the number of indexes one bitmap word covers;
  the words are 8 bytes wide on the wire. *)
Definition BucketSize : Z := 64.

(** Modelled from the spec: [NewEmpty] of package [array], a zero-valued
  shell. *)
Definition NewEmpty : Array := mkArray 0 [] [] [].

(** Modelled from the spec: the bit [p] of the word [w] set. *)
Definition setBit (w p : Z) : Z := Z.lor w (Z.shiftl 1 p).

(** Modelled from the spec: the bit [p] of the word of [bucket] set. *)
Fixpoint toggle (bitmaps : list Z) (bucket : nat) (p : Z) : list Z :=
  match bitmaps, bucket with
  | [], _ => []
  | w :: rest, O => setBit w p :: rest
  | w :: rest, S k => w :: toggle rest k p
  end.

(** Modelled from the spec: one step of the pass of [New]: the buckets up
  to the one of [idx] are opened, each with the running total of stored
  elements as its offset, the bit of [idx] is set and the element is
  appended. *)
Definition put (a : Array) (idx : Z) (e : E) : Array :=
  let bucket := idx / BucketSize in
  let missing := Z.to_nat (bucket + 1 - len (Bitmaps a)) in
  mkArray (Cnt a + 1)
          (toggle (Bitmaps a ++ repeat 0 missing) (Z.to_nat bucket)
                  (idx mod BucketSize))
          (Offsets a ++ repeat (Cnt a) missing)
          (Elts a ++ [e]).

(** Modelled from the spec: the pass of [New] over the indexes and the
  elements; [None] is the length or order error. *)
Fixpoint New_loop (a : Array) (prev : Z) (indices : list Z) (elts : list E)
  : option Array :=
  match indices, elts with
  | [], [] => Some a
  | idx :: indices', e :: elts' =>
      if prev <? idx then New_loop (put a idx e) idx indices' elts' else None
  | _, _ => None
  end.

(** Modelled from the spec: [New] of package [array], from strictly
  ascending, non-negative indexes paired 1:1 with elements. *)
Definition New (indices : list Z) (elts : list E) : option Array :=
  New_loop NewEmpty (-1) indices elts.

(** Modelled from the spec: the number of set bits of a bitmap word. *)
Definition popcount (w : Z) : Z :=
  len (filter (Z.testbit w) (map Z.of_nat (seq 0 64))).

(** Modelled from the spec: [Get] of package [array]; [None] is
  not-found. *)
Definition Get (a : Array) (idx : Z) : option E :=
  if idx <? 0 then None
  else
    let bucket := idx / BucketSize in
    let p := idx mod BucketSize in
    match index (Bitmaps a) bucket with
    | None => None
    | Some w =>
        if Z.testbit w p then
          match index (Offsets a) bucket with
          | None => None
          | Some off => index (Elts a) (off + popcount (Z.land w (Z.ones p)))
          end
        else None
    end.

End WithElt.

Arguments mkArray {E}.
Arguments Cnt {E}.
Arguments Bitmaps {E}.
Arguments Offsets {E}.
Arguments Elts {E}.
Arguments NewEmpty {E}.
Arguments put {E}.
Arguments New_loop {E}.
Arguments New {E}.
Arguments Get {E}.

End Array.

(** ** Package serialize *)

Module Serialize.
Import Array.

(** Modelled from the spec: a byte of the little-endian encoding. *)
Definition byte_of_Z (z : Z) : byte :=
  match Byte.of_N (Z.to_N z) with Some b => b | None => x00 end.

(** Modelled from the spec: an unsigned integer in [w] bytes, little
  endian. *)
Fixpoint putUint (w : nat) (n : Z) : list byte :=
  match w with
  | O => []
  | S w' => byte_of_Z (n mod 256) :: putUint w' (n / 256)
  end.

(** Modelled from the spec: the unsigned integer of little-endian bytes. *)
Fixpoint getUint (bs : list byte) : Z :=
  match bs with
  | [] => 0
  | b :: rest => int_of_byte b + 256 * getUint rest
  end.

(** Modelled from the spec: the next [n] bytes of the source and what
  follows them; [None] is the unexpected end of the stream. *)
Fixpoint take (n : nat) (bs : list byte) : option (list byte * list byte) :=
  match n with
  | O => Some ([], bs)
  | S n' =>
      match bs with
      | [] => None
      | b :: rest =>
          match take n' rest with
          | None => None
          | Some (x, rest') => Some (b :: x, rest')
          end
      end
  end.

(** Modelled from the spec: [n] items of [w] bytes each. *)
Fixpoint getItems {A : Type} (n w : nat) (dec : list byte -> option A)
         (bs : list byte) : option (list A * list byte) :=
  match n with
  | O => Some ([], bs)
  | S n' =>
      match take w bs with
      | None => None
      | Some (x, rest) =>
          match dec x with
          | None => None
          | Some v =>
              match getItems n' w dec rest with
              | None => None
              | Some (vs, rest') => Some (v :: vs, rest')
              end
          end
      end
  end.

(** Modelled from the spec: the header, of package [serialize], whose
  source is not in the repository snapshot. *)
Record Header : Type := mkHeader {
  Version : list byte;
  HeaderSize : Z;
  DataSize : Z
}.

(** Modelled from the spec: the width of the version field. *)
Definition versionLen : nat := 16.

(** Modelled from the spec: the width of the header, 16 + 16 bytes. *)
Definition headerSize : Z := 32.

(** Modelled from the spec: [marshalHeader]: the version NUL-padded to its
  width, the header width and the payload width, 8 bytes each. *)
Definition marshalHeader (h : Header) : list byte :=
  firstn versionLen (Version h ++ repeat x00 versionLen)
  ++ putUint 8 (HeaderSize h) ++ putUint 8 (DataSize h).

(** Modelled from the spec: [UnmarshalHeader], which reads the three fields
  and checks none of them. *)
Definition UnmarshalHeader (bs : list byte) : option (Header * list byte) :=
  match take versionLen bs with
  | None => None
  | Some (v, r1) =>
      match take 8 r1 with
      | None => None
      | Some (hs, r2) =>
          match take 8 r2 with
          | None => None
          | Some (ds, r3) => Some (mkHeader v (getUint hs) (getUint ds), r3)
          end
      end
  end.

Section Codec.
Variable E : Type.

(** The version string of the producer, the widths the specification
  leaves to the implementation (of a length prefix and of an offset), and
  the codec of the element type fixed at construction. *)
Variable version : list byte.
Variables lenWidth offsetWidth eltWidth : nat.
Variable encodeElt : E -> list byte.
Variable decodeElt : list byte -> option E.

(** Modelled from the spec: [makeDefaultDataHeader]. *)
Definition makeDefaultDataHeader (dataSize : Z) : Header :=
  mkHeader version headerSize dataSize.

(** Modelled from the spec: a length-prefixed sequence. *)
Definition putSeq {A : Type} (enc : A -> list byte) (l : list A) : list byte :=
  putUint lenWidth (len l) ++ concat (map enc l).

(** Modelled from the spec: reading a length-prefixed sequence of items of
  [w] bytes. *)
Definition getSeq {A : Type} (w : nat) (dec : list byte -> option A)
           (bs : list byte) : option (list A * list byte) :=
  match take lenWidth bs with
  | None => None
  | Some (n, rest) => getItems (Z.to_nat (getUint n)) w dec rest
  end.

(** Modelled from the spec: the payload: [Cnt] in 8 bytes, then the
  bitmaps (8 bytes each), the offsets and the elements, each sequence
  behind its length. *)
Definition marshalData (a : Array E) : list byte :=
  putUint 8 (Cnt a)
  ++ putSeq (putUint 8) (Bitmaps a)
  ++ putSeq (putUint offsetWidth) (Offsets a)
  ++ putSeq encodeElt (Elts a).

(** Modelled from the spec: [GetMarshalSize]. *)
Definition GetMarshalSize (a : Array E) : Z :=
  headerSize + len (marshalData a).

(** Modelled from the spec: [Marshal] of package [serialize]: the bytes
  written to the sink, header first, and their number. *)
Definition Marshal (a : Array E) : list byte * Z :=
  let data := marshalData a in
  let out := marshalHeader (makeDefaultDataHeader (len data)) ++ data in
  (out, len out).

(** Modelled from the spec: [Unmarshal] of package [serialize]: reads the
  header, then fills the fields of the shell in the order they were
  written; [None] is an I/O error. *)
Definition Unmarshal (bs : list byte) (shell : Array E) : option (Array E) :=
  match UnmarshalHeader bs with
  | None => None
  | Some (_, r0) =>
      match take 8 r0 with
      | None => None
      | Some (cnt, r1) =>
          match getSeq 8 (fun x => Some (getUint x)) r1 with
          | None => None
          | Some (bitmaps, r2) =>
              match getSeq offsetWidth (fun x => Some (getUint x)) r2 with
              | None => None
              | Some (offsets, r3) =>
                  match getSeq eltWidth decodeElt r3 with
                  | None => None
                  | Some (elts, _) =>
                      Some (mkArray (getUint cnt) bitmaps offsets elts)
                  end
              end
          end
      end
  end.

End Codec.

Arguments putSeq lenWidth {A}.
Arguments getSeq lenWidth {A}.
Arguments marshalData {E}.
Arguments GetMarshalSize {E}.
Arguments Marshal {E}.
Arguments Unmarshal {E}.

End Serialize.

(** * Verification of package trie *)

Module GoMapFacts.
Import GoMap.
Section Facts.
Context {A : Type}.
Implicit Types (m : list (Z * A)) (k : Z).

Lemma lookup_In k m v : lookup k m = Some v -> In (k, v) m.
Proof.
  induction m as [|[k' v'] m IH]; simpl; [discriminate|].
  destruct (Z.eqb_spec k' k) as [->|].
  - intros [= ->]. now left.
  - intros H. right. auto.
Qed.

Lemma lookup_None k m : lookup k m = None <-> ~ In k (keys m).
Proof.
  induction m as [|[k' v'] m IH]; simpl; [tauto|].
  destruct (Z.eqb_spec k' k) as [->|]; split; try discriminate; try tauto.
Qed.

Lemma lookup_Some_keys k m v : lookup k m = Some v -> In k (keys m).
Proof.
  intros H. apply lookup_In in H. unfold keys.
  change k with (fst (k, v)). now apply in_map.
Qed.

Lemma In_keys_lookup k m : In k (keys m) -> exists v, lookup k m = Some v.
Proof.
  intros H. destruct (lookup k m) eqn:E; [eauto|].
  apply lookup_None in E. contradiction.
Qed.

Lemma In_lookup k m v : NoDup (keys m) -> In (k, v) m -> lookup k m = Some v.
Proof.
  induction m as [|[k' v'] m IH]; simpl; [tauto|].
  intros Hnd [H|H]; inversion Hnd; subst.
  - injection H as -> ->. now rewrite Z.eqb_refl.
  - destruct (Z.eqb_spec k' k) as [->|]; auto.
    exfalso. apply H2. change k with (fst (k, v)). now apply in_map.
Qed.

Lemma lookup_assign_eq k v m : lookup k (assign k v m) = Some v.
Proof.
  induction m as [|[k' v'] m IH]; simpl.
  - now rewrite Z.eqb_refl.
  - destruct (Z.eqb_spec k' k) as [->|Hne]; simpl.
    + now rewrite Z.eqb_refl.
    + destruct (Z.eqb_spec k' k); [contradiction|]. exact IH.
Qed.

Lemma lookup_assign_ne k k' v m :
  k' <> k -> lookup k' (assign k v m) = lookup k' m.
Proof.
  intros Hne. induction m as [|[k0 v0] m IH]; simpl.
  - destruct (Z.eqb_spec k k'); [congruence|reflexivity].
  - destruct (Z.eqb_spec k0 k) as [->|]; simpl.
    + destruct (Z.eqb_spec k k'); [congruence|reflexivity].
    + destruct (Z.eqb_spec k0 k'); auto.
Qed.

Lemma keys_assign_new k v m :
  lookup k m = None -> keys (assign k v m) = keys m ++ [k].
Proof.
  induction m as [|[k0 v0] m IH]; simpl; [reflexivity|].
  destruct (Z.eqb_spec k0 k); [discriminate|].
  intros H. simpl. now rewrite IH.
Qed.

Lemma keys_assign_old k v m :
  lookup k m <> None -> keys (assign k v m) = keys m.
Proof.
  induction m as [|[k0 v0] m IH]; simpl; [congruence|].
  destruct (Z.eqb_spec k0 k) as [->|]; simpl; [reflexivity|].
  intros H. now rewrite IH.
Qed.

Lemma In_assign k v m k' v' :
  In (k', v') (assign k v m) -> (k' = k /\ v' = v) \/ In (k', v') m.
Proof.
  induction m as [|[k0 v0] m IH]; simpl.
  - intros [[= <- <-]|[]]. now left.
  - destruct (Z.eqb_spec k0 k) as [->|Hne]; simpl.
    + intros [[= <- <-]|H]; [now left|right; now right].
    + intros [[= <- <-]|H]; [right; now left|].
      destruct (IH H) as [?|?]; [now left|right; now right].
Qed.

End Facts.
End GoMapFacts.

Module TrieFacts.
Import Trie GoMap GoMapFacts.

Section Induction.
Context {V : Type} (P : Node V -> Prop).
Hypothesis step :
  forall n, (forall k c, In (k, c) (Children n) -> P c) -> P n.

(** Induction over the tree: a property that holds of a node whenever it
  holds of its children holds of every node. *)
Lemma Node_induction : forall n, P n.
Proof.
  fix IH 1. intros [cs bs st v s e]. apply step. simpl.
  revert cs. fix IHcs 1. intros [|[k0 c0] cs] k c H.
  - destruct H.
  - destruct H as [H|H].
    + injection H as <- <-. apply IH.
    + exact (IHcs cs k c H).
Qed.
End Induction.

Section Equations.
Context {V : Type}.
Implicit Types (n r c : Node V) (key : list byte).

(** The nested loops of the definitions, restated with [GoMap.lookup]. *)

Lemma leftMost_eq r :
  leftMost r =
  match Branches r with
  | [] => Some r
  | firstBr :: _ =>
      match lookup firstBr (Children r) with
      | None => None
      | Some c => leftMost c
      end
  end.
Proof.
  destruct r as [cs bs st v s e]; simpl. destruct bs as [|b bs]; [reflexivity|].
  induction cs as [|[k c] cs IH]; simpl; [reflexivity|].
  destruct (k =? b); [reflexivity|exact IH].
Qed.

Lemma rightMost_eq r :
  rightMost r =
  match Branches r with
  | [] => Some r
  | b0 :: bs =>
      match lookup (last bs b0) (Children r) with
      | None => None
      | Some c => rightMost c
      end
  end.
Proof.
  destruct r as [cs bs st v s e]; simpl. destruct bs as [|b bs]; [reflexivity|].
  induction cs as [|[k c] cs IH]; simpl; [reflexivity|].
  destruct (k =? last bs b); [reflexivity|exact IH].
Qed.

(** What an iteration of the loop of [Search] does once the branch, the
  candidates and the exact child are known. *)
Definition advance (key : list byte) (i br : Z) (ltNode' gtNode' : option (Node V))
           (child : option (Node V)) : option (Tracked V) :=
  match child with
  | None => Some (ltNode', None, gtNode')
  | Some c =>
      if br =? leafBranch then Some (ltNode', Some c, gtNode')
      else
        let i' := i + Step c in
        if i' >? len key then Some (ltNode', None, Some c)
        else descend c key i' ltNode' gtNode'
  end.

Definition branchAt (key : list byte) (i : Z) : option Z :=
  if len key =? i then Some leafBranch
  else option_map int_of_byte (index key i).

Lemma descend_eq eqNode key i ltNode gtNode :
  descend eqNode key i ltNode gtNode =
  match branchAt key i with
  | None => None
  | Some br =>
      let '(li, ri) := neighborBranches (Branches eqNode) br in
      match candidate eqNode li ltNode with
      | None => None
      | Some ltNode' =>
          match candidate eqNode ri gtNode with
          | None => None
          | Some gtNode' =>
              advance key i br ltNode' gtNode' (lookup br (Children eqNode))
          end
      end
  end.
Proof.
  destruct eqNode as [cs bs st v s e]. unfold branchAt. simpl.
  destruct (if len key =? i then _ else _) as [br|]; [|reflexivity].
  destruct (neighborBranches bs br) as [li ri].
  destruct (candidate _ li ltNode) as [lt'|]; [|reflexivity].
  destruct (candidate _ ri gtNode) as [gt'|]; [|reflexivity].
  induction cs as [|[k c] cs IH]; simpl; [reflexivity|].
  destruct (k =? br); [reflexivity|exact IH].
Qed.

End Equations.

(** ** Keys and their order *)

(** Lexicographic order on keys, a proper prefix first (Go's
  [bytes.Compare(a, b) < 0]). *)
Fixpoint key_ltb (a b : list byte) : bool :=
  match a, b with
  | _, [] => false
  | [], _ :: _ => true
  | x :: a', y :: b' =>
      (int_of_byte x <? int_of_byte y)
      || ((int_of_byte x =? int_of_byte y) && key_ltb a' b')
  end.

Fixpoint ascending_from (prev : list byte) (keys : list (list byte)) : bool :=
  match keys with
  | [] => true
  | k :: ks => key_ltb prev k && ascending_from k ks
  end.

(** The keys are strictly ascending. *)
Definition strictly_ascending (keys : list (list byte)) : bool :=
  match keys with
  | [] => true
  | k :: ks => ascending_from k ks
  end.

Lemma int_of_byte_range b : 0 <= int_of_byte b < 256.
Proof.
  unfold int_of_byte. pose proof (Byte.to_N_bounded b). lia.
Qed.

Lemma int_of_byte_inj a b : int_of_byte a = int_of_byte b -> a = b.
Proof.
  unfold int_of_byte. intros H. apply N2Z.inj in H.
  pose proof (Byte.of_to_N a) as Ha. rewrite H, Byte.of_to_N in Ha.
  congruence.
Qed.

Lemma int_of_byte_not_leaf b : int_of_byte b <> leafBranch.
Proof. pose proof (int_of_byte_range b). unfold leafBranch. lia. Qed.

Lemma leaf_not_byte b : leafBranch <> int_of_byte b.
Proof. pose proof (int_of_byte_range b). unfold leafBranch. lia. Qed.

(** ** Shape of the tries that [addKV] builds *)

Section Shape.
Context {V : Type}.
Implicit Types (n r c : Node V) (key : list byte).

Definition is_leaf c : Prop := exists v s e, c = newLeaf v s e.

(** An inner node as [addKV] makes them: one entry of [Branches] per child,
  in the same order; the sentinel leads to a leaf, a byte to an inner node
  that has at least one branch. *)
Inductive inner : Node V -> Prop :=
| inner_intro cs bs :
    bs = keys cs ->
    NoDup bs ->
    (forall k c, In (k, c) cs ->
       (k = leafBranch /\ is_leaf c)
       \/ (0 <= k < 256 /\ inner c /\ Branches c <> [])) ->
    inner (mkNode cs bs 1 None false false).

(** A property of every node of a trie. *)
Inductive all_nodes (P : Node V -> Prop) : Node V -> Prop :=
| all_nodes_intro n :
    P n ->
    (forall k c, In (k, c) (Children n) -> all_nodes P c) ->
    all_nodes P n.

Definition ascending (bs : list Z) : Prop := StronglySorted Z.lt bs.

(** [Branches] is numerically ascending in every node. *)
Definition branches_ascending : Node V -> Prop :=
  all_nodes (fun n => ascending (Branches n)).

(** The key spelled by the last branch of every node on the way down: the
  greatest key of a trie whose branches ascend. *)
Inductive rightmost : Node V -> list byte -> Prop :=
| rightmost_nil n bs :
    Branches n = bs ++ [leafBranch] -> rightmost n []
| rightmost_cons n bs b c key :
    Branches n = bs ++ [int_of_byte b] ->
    lookup (int_of_byte b) (Children n) = Some c ->
    rightmost c key ->
    rightmost n (b :: key).

Lemma inner_newNode : inner (@newNode V).
Proof.
  apply inner_intro; [reflexivity|constructor|]. intros k c [].
Qed.

Lemma inner_children n k c :
  inner n -> In (k, c) (Children n) ->
  (k = leafBranch /\ is_leaf c) \/ (0 <= k < 256 /\ inner c /\ Branches c <> []).
Proof. intros H. inversion H; subst. simpl. auto. Qed.

Lemma inner_keys n : inner n -> Branches n = keys (Children n).
Proof. intros H. now inversion H. Qed.

Lemma inner_NoDup n : inner n -> NoDup (Branches n).
Proof. intros H. now inversion H. Qed.

Lemma inner_lookup_byte n b c :
  inner n -> lookup (int_of_byte b) (Children n) = Some c ->
  inner c /\ Branches c <> [].
Proof.
  intros H Hl. apply lookup_In in Hl.
  destruct (inner_children _ _ _ H Hl) as [[E _]|[_ ?]]; [|assumption].
  now apply int_of_byte_not_leaf in E.
Qed.

Lemma inner_lookup_leaf n c :
  inner n -> lookup leafBranch (Children n) = Some c -> is_leaf c.
Proof.
  intros H Hl. apply lookup_In in Hl.
  destruct (inner_children _ _ _ H Hl) as [[_ ?]|[? _]]; [assumption|].
  unfold leafBranch in *. lia.
Qed.

Lemma inner_empty n : inner n -> Branches n = [] -> n = newNode.
Proof.
  intros H E. inversion H; subst. simpl in E.
  destruct cs; [reflexivity|discriminate].
Qed.

Lemma all_nodes_here P n : all_nodes P n -> P n.
Proof. now intros []. Qed.

Lemma all_nodes_child P n k c :
  all_nodes P n -> In (k, c) (Children n) -> all_nodes P c.
Proof. intros [] ?; eauto. Qed.

Lemma ascending_snoc bs b :
  ascending bs -> Forall (fun x => x < b) bs -> ascending (bs ++ [b]).
Proof.
  unfold ascending. induction 1 as [|a l Hs IH Hf]; intros Hb; simpl.
  - constructor; constructor.
  - inversion Hb; subst. constructor; [auto|].
    apply Forall_app. split; [assumption|]. constructor; [assumption|constructor].
Qed.

Lemma ascending_snoc_inv bs b x :
  ascending (bs ++ [b]) -> In x bs -> x < b.
Proof.
  unfold ascending. induction bs as [|a l IH]; simpl; [tauto|].
  intros Hs [->|Hin].
  - apply StronglySorted_inv in Hs as [_ Hf].
    rewrite Forall_forall in Hf. apply Hf, in_or_app. right. now left.
  - apply StronglySorted_inv in Hs as [Hs _]. auto.
Qed.

End Shape.


(** ** [addKV] on ascending keys *)

Section AddAscending.
Context {V : Type}.
Implicit Types (n r c : Node V) (key : list byte).

Lemma is_leaf_newLeaf (v : V) s e : is_leaf (newLeaf v s e).
Proof. now exists v, s, e. Qed.

Lemma all_nodes_leaf (P : Node V -> Prop) c :
  is_leaf c -> P c -> all_nodes P c.
Proof.
  intros (v & s & e & ->) H. constructor; [assumption|]. intros k c [].
Qed.

Lemma ascending_nil : ascending [].
Proof. constructor. Qed.

Lemma ascending_one b : ascending [b].
Proof. constructor; constructor. Qed.

(** The chain hung below a fresh node. *)
Lemma grow_newNode key (leaf : Node V) :
  is_leaf leaf ->
  let g := grow newNode key leaf in
  inner g /\ branches_ascending g /\ rightmost g key /\ Branches g <> [].
Proof.
  intros Hleaf. induction key as [|b rest IH]; simpl.
  - split; [|split; [|split]].
    + apply inner_intro; [reflexivity|repeat constructor; simpl; tauto|].
      intros k c [[= <- <-]|[]]. now left.
    + constructor; [apply ascending_one|].
      intros k c [[= <- <-]|[]]. apply all_nodes_leaf; [assumption|].
      destruct Hleaf as (v & s & e & ->). apply ascending_nil.
    + now apply rightmost_nil with (bs := []).
    + discriminate.
  - destruct IH as (Hi & Ha & Hr & Hne). split; [|split; [|split]].
    + apply inner_intro; [reflexivity|repeat constructor; simpl; tauto|].
      intros k c [[= <- <-]|[]]. right.
      split; [apply int_of_byte_range|now split].
    + constructor; [apply ascending_one|].
      intros k c [[= <- <-]|[]]. exact Ha.
    + apply rightmost_cons with (bs := []) (c := grow newNode rest leaf);
        [reflexivity| |assumption].
      simpl. now rewrite Z.eqb_refl.
    + discriminate.
Qed.

Lemma rightmost_nonempty n key : rightmost n key -> Branches n <> [].
Proof. intros [? bs E| ? bs ? ? ? E _ _]; rewrite E; now destruct bs. Qed.

(** Attaching under a branch greater than all the present ones. *)
Lemma attach_inner n br c :
  inner n -> ~ In br (Branches n) ->
  (br = leafBranch /\ is_leaf c) \/ (0 <= br < 256 /\ inner c /\ Branches c <> []) ->
  inner (attach n br c).
Proof.
  intros Hn Hfresh Hc. inversion Hn as [cs bs Hk Hnd Hch]; subst.
  unfold attach; simpl in *.
  assert (Hl : lookup br cs = None) by now apply lookup_None.
  apply inner_intro.
  - now rewrite keys_assign_new.
  - apply NoDup_app; [assumption|repeat constructor; simpl; tauto|].
    intros x Hx [<-|[]]. contradiction.
  - intros k x Hin. apply In_assign in Hin as [[-> ->]|Hin]; auto.
Qed.

Lemma attach_ascending n br c :
  branches_ascending n -> branches_ascending c ->
  Forall (fun x => x < br) (Branches n) ->
  branches_ascending (attach n br c).
Proof.
  intros Hn Hc Hlt. destruct Hn as [n Hs Hch]. constructor; simpl.
  - now apply ascending_snoc.
  - intros k x Hin. apply In_assign in Hin as [[-> ->]|Hin]; eauto.
Qed.

Lemma key_ltb_nil_r key : key_ltb key [] = false.
Proof. now destruct key. Qed.

(** In a trie whose branches ascend and whose greatest key is below [key],
  [addKV] appends, reports no error, and [key] is the greatest key
  afterwards. *)
Lemma addKV_ascending key : forall n (v : V) s e,
  inner n -> branches_ascending n ->
  (Branches n = [] \/ exists prev, rightmost n prev /\ key_ltb prev key = true) ->
  exists n', addKV n key v s e = inl n'
             /\ inner n' /\ branches_ascending n' /\ rightmost n' key.
Proof.
  induction key as [|b rest IH]; intros n v s e Hi Ha Hprev.
  - destruct Hprev as [E|(prev & _ & H)];
      [|now rewrite key_ltb_nil_r in H].
    rewrite (inner_empty _ Hi E). simpl.
    exists (grow newNode [] (newLeaf v s e)). split; [reflexivity|].
    destruct (grow_newNode [] (newLeaf v s e) (is_leaf_newLeaf v s e))
      as (? & ? & ? & _). auto.
  - destruct Hprev as [E|(prev & Hr & Hlt)].
    + rewrite (inner_empty _ Hi E). cbn [addKV newNode Children lookup].
      eexists. split; [reflexivity|].
      destruct (grow_newNode (b :: rest) (newLeaf v s e) (is_leaf_newLeaf v s e))
        as (? & ? & ? & _). auto.
    + pose proof (grow_newNode rest (newLeaf v s e) (is_leaf_newLeaf v s e))
        as (Hgi & Hga & Hgr & Hgne).
      pose proof (all_nodes_here _ _ Ha) as Hasc. cbn beta in Hasc.
      pose proof (inner_keys _ Hi) as Hkeys.
      (* every present branch is below [int_of_byte b], or it is the branch
         of [b] itself and the walk goes on *)
      inversion Hr as [? bs Eb|? bs l c prev' Eb Hl Hrc]; subst.
      * (* the greatest key ends here *)
        assert (Hall : Forall (fun x => x < int_of_byte b) (Branches n)).
        { rewrite Forall_forall. intros x Hx.
          pose proof (int_of_byte_range b).
          rewrite Eb in Hx. apply in_app_or in Hx as [Hx|[<-|[]]].
          - rewrite Eb in Hasc.
            pose proof (ascending_snoc_inv _ _ _ Hasc Hx). unfold leafBranch in *. lia.
          - unfold leafBranch. lia. }
        assert (Hnot : ~ In (int_of_byte b) (Branches n)).
        { intros Hin. rewrite Forall_forall in Hall. apply Hall in Hin. lia. }
        assert (Hnone : lookup (int_of_byte b) (Children n) = None).
        { apply lookup_None. now rewrite <- Hkeys. }
        cbn [addKV]. rewrite Hnone. eexists. split; [reflexivity|].
        cbn [grow]. split; [|split].
        -- apply attach_inner; auto. right. split; [apply int_of_byte_range|auto].
        -- now apply attach_ascending.
        -- eapply rightmost_cons with (bs := Branches n); [reflexivity| |exact Hgr].
           simpl. apply lookup_assign_eq.
      * simpl in Hlt.
        destruct (Z.ltb_spec (int_of_byte l) (int_of_byte b)) as [Hlb|Hge].
        -- (* a greater byte: a new branch at the end *)
           assert (Hall : Forall (fun x => x < int_of_byte b) (Branches n)).
           { rewrite Forall_forall. intros x Hx.
             rewrite Eb in Hx. apply in_app_or in Hx as [Hx|[<-|[]]]; [|assumption].
             rewrite Eb in Hasc.
             pose proof (ascending_snoc_inv _ _ _ Hasc Hx). lia. }
           assert (Hnot : ~ In (int_of_byte b) (Branches n)).
           { intros Hin. rewrite Forall_forall in Hall. apply Hall in Hin. lia. }
           assert (Hnone : lookup (int_of_byte b) (Children n) = None).
           { apply lookup_None. now rewrite <- Hkeys. }
           cbn [addKV]. rewrite Hnone. eexists. split; [reflexivity|].
           cbn [grow]. split; [|split].
           ++ apply attach_inner; auto. right. split; [apply int_of_byte_range|auto].
           ++ now apply attach_ascending.
           ++ eapply rightmost_cons with (bs := Branches n); [reflexivity| |exact Hgr].
              simpl. apply lookup_assign_eq.
        -- (* the same byte: the walk follows the last child *)
           simpl in Hlt.
           destruct (Z.eqb_spec (int_of_byte l) (int_of_byte b)) as [Elb|];
             [|discriminate].
           simpl in Hlt. apply int_of_byte_inj in Elb. subst l.
           destruct (inner_lookup_byte _ _ _ Hi Hl) as [Hci Hcne].
           pose proof (all_nodes_child _ _ _ _ Ha (lookup_In _ _ _ Hl)) as Hca.
           destruct (IH c v s e Hci Hca) as (c' & Hadd & Hci' & Hca' & Hrc').
           { right. eauto. }
           cbn [addKV]. rewrite Hl, Hadd. eexists. split; [reflexivity|].
           inversion Hi as [cs bs0 Hk Hnd Hch]; subst. simpl in *.
           split; [|split].
           ++ apply inner_intro; [|assumption|].
              ** rewrite keys_assign_old; [reflexivity|congruence].
              ** intros k x Hin. apply In_assign in Hin as [[-> ->]|Hin]; auto.
                 right. split; [apply int_of_byte_range|split; [assumption|]].
                 now apply rightmost_nonempty in Hrc'.
           ++ constructor; simpl; [assumption|].
              intros k x Hin. apply In_assign in Hin as [[-> ->]|Hin]; auto.
              eapply all_nodes_child; [exact Ha|exact Hin].
           ++ eapply rightmost_cons; [exact Eb| |exact Hrc'].
              simpl. apply lookup_assign_eq.
Qed.

End AddAscending.


(** ** The loops of [Squash], [RemoveEndLeaves] and [markEndLeaf] *)

Section Loops.
Context {V : Type}.
Implicit Types (n r c : Node V) (key : list byte).

(** [n.Squash()] followed by the promotion test of the loop body. *)
Definition squashChild n : option (Node V) :=
  match Squash n with
  | None => None
  | Some n' => promote n'
  end.

Fixpoint traverse (f : Node V -> option (Node V)) (cs : list (Z * Node V))
  : option (list (Z * Node V)) :=
  match cs with
  | [] => Some []
  | (k, n) :: cs' =>
      match f n with
      | None => None
      | Some m =>
          match traverse f cs' with
          | None => None
          | Some rest => Some ((k, m) :: rest)
          end
      end
  end.

Lemma Squash_eq r :
  Squash r =
  match traverse squashChild (Children r) with
  | None => None
  | Some cs' => Some (setChildren r cs')
  end.
Proof.
  destruct r as [cs bs st v s e]. cbn [Squash Children].
  match goal with
  | |- match ?a with _ => _ end = match ?b with _ => _ end =>
      assert (E : a = b)
  end.
  { induction cs as [|[k c] cs IH]; [reflexivity|].
    cbn [traverse]. unfold squashChild at 1.
    destruct (Squash c) as [c'|]; [|reflexivity].
    destruct (promote c') as [m|]; [|reflexivity].
    now rewrite IH. }
  rewrite E. reflexivity.
Qed.

Lemma traverse_keys f cs cs' :
  traverse f cs = Some cs' -> keys cs' = keys cs.
Proof.
  revert cs'. induction cs as [|[k c] cs IH]; simpl; intros cs' H.
  - now injection H as <-.
  - destruct (f c); [|discriminate].
    destruct (traverse f cs); [|discriminate].
    injection H as <-. simpl. f_equal. auto.
Qed.

Lemma traverse_lookup f cs cs' k :
  traverse f cs = Some cs' ->
  lookup k cs' = match lookup k cs with
                 | None => None
                 | Some c => f c
                 end.
Proof.
  revert cs'. induction cs as [|[k0 c] cs IH]; simpl; intros cs' H.
  - now injection H as <-.
  - destruct (f c) eqn:Ef; [|discriminate].
    destruct (traverse f cs); [|discriminate].
    injection H as <-. simpl.
    destruct (k0 =? k); [now rewrite Ef|auto].
Qed.

Lemma traverse_In f cs cs' k m :
  traverse f cs = Some cs' -> In (k, m) cs' ->
  exists c, In (k, c) cs /\ f c = Some m.
Proof.
  revert cs'. induction cs as [|[k0 c] cs IH]; simpl; intros cs' H Hin.
  - injection H as <-. destruct Hin.
  - destruct (f c) eqn:Ef; [|discriminate].
    destruct (traverse f cs); [|discriminate].
    injection H as <-. destruct Hin as [[= <- <-]|Hin].
    + eauto.
    + destruct (IH _ eq_refl Hin) as (c0 & ? & ?). eauto.
Qed.

Lemma traverse_total f cs :
  (forall k c, In (k, c) cs -> f c <> None) ->
  exists cs', traverse f cs = Some cs'.
Proof.
  induction cs as [|[k c] cs IH]; simpl; intros H; [eauto|].
  destruct (f c) eqn:Ef; [|exfalso; eapply H; eauto].
  destruct IH as (cs' & ->); eauto.
Qed.

(** The loop of [RemoveEndLeaves]. *)
Fixpoint pruneLoop (dropped : bool) (cs : list (Z * Node V)) (bs : list Z)
  : list (Z * Node V) * list Z :=
  match cs with
  | [] => ([], bs)
  | (k, n) :: cs' =>
      if dropped && (k =? leafBranch) then pruneLoop dropped cs' bs
      else if len (Branches n) =? 0 then
        let '(rest, bs') := pruneLoop dropped cs' bs in ((k, n) :: rest, bs')
      else
        let n' := RemoveEndLeaves n in
        if len (Branches n') =? 0 then
          pruneLoop dropped cs' (removeBranch bs k)
        else
          let '(rest, bs') := pruneLoop dropped cs' bs in ((k, n') :: rest, bs')
  end.

Lemma RemoveEndLeaves_eq r :
  RemoveEndLeaves r =
  let dropped := endOnlyLeaf (Children r) in
  let branches0 :=
    if dropped then removeBranch (Branches r) leafBranch else Branches r in
  let '(children', branches') := pruneLoop dropped (Children r) branches0 in
  mkNode children' branches' (Step r) (Value r) (isStartLeaf r) (isEndLeaf r).
Proof.
  destruct r as [cs bs st v s e]. cbn [RemoveEndLeaves Children Branches Step Value
    isStartLeaf isEndLeaf]. cbv zeta.
  generalize (endOnlyLeaf cs) as d.
  intros d. generalize (if d then removeBranch bs leafBranch else bs) as bs0.
  intros bs0.
  match goal with
  | |- (let '(_, _) := ?a in _) = (let '(_, _) := ?b in _) =>
      assert (E : a = b)
  end.
  { revert bs0. induction cs as [|[k c] cs IH]; intros bs0; [reflexivity|].
    cbn [pruneLoop].
    destruct (d && (k =? leafBranch)); [apply IH|].
    destruct (len (Branches c) =? 0); [now rewrite IH|].
    destruct (len (Branches (RemoveEndLeaves c)) =? 0); [apply IH|].
    now rewrite IH. }
  rewrite E. reflexivity.
Qed.

(** The update of [markEndLeaf] in the children of a node. *)
Fixpoint updateChild (f : Node V -> Node V) (br : Z) (cs : list (Z * Node V))
  : list (Z * Node V) :=
  match cs with
  | [] => []
  | (k, c) :: cs' =>
      if k =? br then (k, f c) :: cs' else (k, c) :: updateChild f br cs'
  end.

Lemma markEndLeaf_eq r key :
  markEndLeaf r key =
  match key with
  | [] =>
      setChildren r (updateChild (fun c => setIsEndLeaf c true) leafBranch
                                 (Children r))
  | b :: rest =>
      setChildren r (updateChild (fun c => markEndLeaf c rest) (int_of_byte b)
                                 (Children r))
  end.
Proof.
  destruct r as [cs bs st v s e]. unfold setChildren.
  destruct key as [|b rest]; simpl; f_equal;
    induction cs as [|[k c] cs IH]; simpl; try reflexivity;
    destruct (k =? _); try reflexivity; now rewrite IH.
Qed.

Lemma keys_updateChild f br cs : keys (updateChild f br cs) = keys cs.
Proof.
  induction cs as [|[k c] cs IH]; simpl; [reflexivity|].
  destruct (k =? br); simpl; [reflexivity|now rewrite IH].
Qed.

Lemma lookup_updateChild f br cs k :
  lookup k (updateChild f br cs) =
  if k =? br then option_map f (lookup k cs) else lookup k cs.
Proof.
  induction cs as [|[k0 c] cs IH]; simpl.
  - now destruct (k =? br).
  - destruct (Z.eqb_spec k0 br) as [->|Hne]; simpl.
    + destruct (Z.eqb_spec br k) as [<-|Hne'].
      * now rewrite Z.eqb_refl.
      * destruct (Z.eqb_spec k br); [congruence|reflexivity].
    + destruct (Z.eqb_spec k0 k) as [->|Hne'].
      * destruct (Z.eqb_spec k br); [congruence|reflexivity].
      * exact IH.
Qed.

Lemma In_updateChild f br cs k x :
  In (k, x) (updateChild f br cs) ->
  In (k, x) cs \/ (k = br /\ exists c, In (k, c) cs /\ x = f c).
Proof.
  induction cs as [|[k0 c] cs IH]; simpl; [tauto|].
  destruct (Z.eqb_spec k0 br) as [->|Hne]; simpl.
  - intros [[= <- <-]|H]; [right; split; eauto|left; now right].
  - intros [[= <- <-]|H]; [left; now left|].
    destruct (IH H) as [?|(-> & c0 & ? & ->)]; [left; now right|].
    right. split; eauto.
Qed.

End Loops.


(** ** Tries built from ascending keys *)

(** [a <= b] in the order of [key_ltb]. *)
Definition key_leb (a b : list byte) : bool := negb (key_ltb b a).

Fixpoint bounds_from (prev : list byte) (starts ends : list (list byte)) : bool :=
  match starts, ends with
  | s :: ss, e :: es => key_ltb prev s && key_leb s e && bounds_from e ss es
  | _, _ => true
  end.

(** The boundaries of the ranges ascend: every start is at most its end and
  every end is below the next start. *)
Definition bounds_ascending (starts ends : list (list byte)) : bool :=
  match starts, ends with
  | s :: ss, e :: es => key_leb s e && bounds_from e ss es
  | _, _ => true
  end.

Lemma key_leb_cases a : forall b,
  key_leb a b = true -> key_ltb a b = true \/ a = b.
Proof.
  unfold key_leb. induction a as [|x a IH]; intros [|y b]; simpl; intros H.
  - now right.
  - now left.
  - discriminate.
  -  apply negb_true_iff, orb_false_iff in H as [H1 H2].
    apply Z.ltb_ge in H1.
    destruct (Z.ltb_spec (int_of_byte x) (int_of_byte y)); [now left|].
    assert (E : int_of_byte x = int_of_byte y) by lia.
    rewrite E, Z.eqb_refl in *. simpl in *.
    apply int_of_byte_inj in E. subst y.
    destruct (IH b) as [? | ->]; auto. now rewrite H2.
Qed.

Section Built.
Context {V : Type}.
Implicit Types (n r c root : Node V) (key : list byte).

(** What the insertion loop needs of the trie it continues: the keys still
  to come lie above its greatest key. *)
Definition precedes root (keys : list (list byte)) : Prop :=
  (Branches root = [] /\ strictly_ascending keys = true)
  \/ (exists prev, rightmost root prev /\ ascending_from prev keys = true).

Lemma New_loop_ascending keys : forall (vals : list V) root,
  inner root -> branches_ascending root -> precedes root keys ->
  exists root', New_loop root keys vals = (root', None)
                /\ inner root' /\ branches_ascending root'.
Proof.
  induction keys as [|key keys IH]; intros vals root Hi Ha Hp.
  - exists root. destruct vals; auto.
  - destruct vals as [|v vals]; [exists root; auto|].
    cbn [New_loop].
    destruct (addKV_ascending key root v false false Hi Ha)
      as (root' & -> & Hi' & Ha' & Hr').
    { destruct Hp as [[E _]|(prev & Hr & Hasc)]; [now left|right].
      simpl in Hasc. apply andb_true_iff in Hasc as [? _]. eauto. }
    apply IH; auto. right. exists key. split; [assumption|].
    destruct Hp as [[_ Hasc]|(prev & _ & Hasc)]; simpl in Hasc; auto.
    now apply andb_true_iff in Hasc as [_ ?].
Qed.

(** A successful [New] on strictly ascending keys yields an ascending trie
  of the expected shape. *)
Lemma New_ascending keys values root :
  strictly_ascending keys = true ->
  New keys values = (Some root, None) ->
  inner root /\ branches_ascending root.
Proof.
  intros Hasc. unfold New. destruct (toSlice values) as [vals|]; [|discriminate].
  destruct (negb (len keys =? len vals)); [discriminate|].
  destruct (New_loop_ascending keys vals newNode) as (root' & -> & Hi & Ha).
  - apply inner_newNode.
  - constructor; [apply ascending_nil|]. intros k c [].
  - left. auto.
  - intros [= <-]. auto.
Qed.

(** *** The greatest key again: the duplicate error *)

Lemma addKV_rightmost n key (v : V) s e :
  inner n -> rightmost n key -> addKV n key v s e = inr ErrDuplicateKeys.
Proof.
  intros Hi Hr. revert Hi. induction Hr as [n bs Eb|n bs b c key Eb Hl Hr IH];
    intros Hi.
  - cbn [addKV].
    destruct (In_keys_lookup leafBranch (Children n)) as (x & ->);
      [|reflexivity].
    rewrite <- (inner_keys _ Hi), Eb. apply in_or_app. right. now left.
  - cbn [addKV]. rewrite Hl.
    destruct (inner_lookup_byte _ _ _ Hi Hl) as [Hci _].
    now rewrite (IH Hci).
Qed.

Lemma Branches_markEndLeaf n key : Branches (markEndLeaf n key) = Branches n.
Proof. rewrite markEndLeaf_eq. now destruct key. Qed.

Lemma markEndLeaf_inner key : forall n, inner n -> inner (markEndLeaf n key).
Proof.
  induction key as [|b rest IH]; intros n Hi; rewrite markEndLeaf_eq;
    inversion Hi as [cs bs Hk Hnd Hch]; subst; unfold setChildren; simpl;
    (apply inner_intro; [now rewrite keys_updateChild|assumption|]);
    intros k x Hin; apply In_updateChild in Hin as [Hin|(-> & c & Hin & ->)];
    auto.
  - destruct (Hch _ _ Hin) as [[_ (v & s & e & ->)]|[? _]];
      [|unfold leafBranch in *; lia].
    left. split; [reflexivity|]. now exists v, s, true.
  - destruct (Hch _ _ Hin) as [[E _]|(? & Hci & Hne)];
      [now apply int_of_byte_not_leaf in E|].
    right. split; [assumption|]. split; [auto|].
    now rewrite Branches_markEndLeaf.
Qed.

Lemma all_nodes_setIsEndLeaf (P : Node V -> Prop) c b :
  (forall x y, Branches x = Branches y -> P x -> P y) ->
  all_nodes P c -> all_nodes P (setIsEndLeaf c b).
Proof.
  intros HP [n Hn Hch]. constructor; [eapply HP; [|exact Hn]; reflexivity|].
  exact Hch.
Qed.

Lemma markEndLeaf_ascending key : forall n,
  branches_ascending n -> branches_ascending (markEndLeaf n key).
Proof.
  induction key as [|b rest IH]; intros n Ha; rewrite markEndLeaf_eq;
    destruct Ha as [n Hn Hch]; (constructor; [exact Hn|]); simpl;
    intros k x Hin; apply In_updateChild in Hin as [Hin|(-> & c & Hin & ->)].
  - exact (Hch _ _ Hin).
  - apply all_nodes_setIsEndLeaf; [|exact (Hch _ _ Hin)].
    intros x y E. now rewrite E.
  - exact (Hch _ _ Hin).
  - apply IH. exact (Hch _ _ Hin).
Qed.

Lemma markEndLeaf_rightmost n k :
  rightmost n k -> forall key, rightmost (markEndLeaf n key) k.
Proof.
  induction 1 as [n bs Eb|n bs b c k Eb Hl Hr IH]; intros key.
  - eapply rightmost_nil. rewrite Branches_markEndLeaf. exact Eb.
  - rewrite markEndLeaf_eq. destruct key as [|b' rest].
    + eapply rightmost_cons; [exact Eb| |exact Hr].
      simpl. rewrite lookup_updateChild.
      destruct (Z.eqb_spec (int_of_byte b) leafBranch) as [E|];
        [now apply int_of_byte_not_leaf in E|assumption].
    + destruct (Z.eqb_spec (int_of_byte b) (int_of_byte b')) as [E|Hne].
      * eapply rightmost_cons; [exact Eb| |apply (IH rest)].
        simpl. rewrite lookup_updateChild, E, Z.eqb_refl, <- E, Hl. reflexivity.
      * eapply rightmost_cons; [exact Eb| |exact Hr].
        simpl. rewrite lookup_updateChild.
        destruct (Z.eqb_spec (int_of_byte b) (int_of_byte b'));
          [contradiction|assumption].
Qed.

(** What the loop of [NewRangeTrie] needs of the trie it continues. *)
Definition precedes_bounds root (starts ends : list (list byte)) : Prop :=
  (Branches root = [] /\ bounds_ascending starts ends = true)
  \/ (exists prev, rightmost root prev /\ bounds_from prev starts ends = true).

Lemma NewRangeTrie_loop_ascending starts :
  forall ends (vals : list V) root root' err,
  inner root -> branches_ascending root -> precedes_bounds root starts ends ->
  NewRangeTrie_loop root starts ends vals = (root', err) ->
  inner root' /\ branches_ascending root'
  /\ (err = None -> starts <> [] -> ends <> [] -> vals <> [] ->
      exists last, rightmost root' last).
Proof.
  induction starts as [|s starts IH]; intros ends vals root root' err Hi Ha Hp Hrun.
  - simpl in Hrun. injection Hrun as <- <-. split; [|split]; auto. congruence.
  - destruct ends as [|e ends]; [injection Hrun as <- <-; (split; [|split]); auto; congruence|].
    destruct vals as [|v vals]; [injection Hrun as <- <-; (split; [|split]); auto; congruence|].
    cbn [NewRangeTrie_loop] in Hrun.
    assert (Hse : key_leb s e = true /\ bounds_from e starts ends = true).
    { destruct Hp as [[_ H]|(prev & _ & H)]; simpl in H;
        repeat (apply andb_true_iff in H as [H ?]); auto. }
    destruct Hse as [Hse Hrest].
    destruct (addKV_ascending s root v true false Hi Ha)
      as (root1 & E1 & Hi1 & Ha1 & Hr1).
    { destruct Hp as [[E _]|(prev & Hr & H)]; [now left|right].
      simpl in H. repeat (apply andb_true_iff in H as [H ?]). eauto. }
    rewrite E1 in Hrun.
    assert (Hnext : forall r2, inner r2 -> branches_ascending r2 ->
              (exists last, rightmost r2 last) -> rightmost r2 e ->
              NewRangeTrie_loop r2 starts ends vals = (root', err) ->
              inner root' /\ branches_ascending root'
              /\ (err = None -> s :: starts <> [] -> e :: ends <> [] ->
                  v :: vals <> [] -> exists last, rightmost root' last)).
    { intros r2 Hi2 Ha2 Hlast Hr2 Hrun2.
      destruct (IH ends vals r2 root' err Hi2 Ha2) as (? & ? & Hl); auto.
      { right. eauto. }
      split; [|split]; auto. intros Herr _ _ _.
      destruct starts as [|s' starts'];
        [simpl in Hrun2; injection Hrun2 as <- _; exact Hlast|].
      destruct ends as [|e' ends'];
        [simpl in Hrun2; injection Hrun2 as <- _; exact Hlast|].
      destruct vals as [|v' vals'];
        [simpl in Hrun2; injection Hrun2 as <- _; exact Hlast|].
      apply Hl; congruence. }
    destruct (key_leb_cases _ _ Hse) as [Hlt | <-].
    + destruct (addKV_ascending e root1 v false true Hi1 Ha1)
        as (root2 & E2 & Hi2 & Ha2 & Hr2); [right; eauto|].
      rewrite E2 in Hrun. apply (Hnext root2); eauto.
    + rewrite (addKV_rightmost root1 s v false true Hi1 Hr1) in Hrun.
      apply (Hnext (markEndLeaf root1 s)).
      * now apply markEndLeaf_inner.
      * now apply markEndLeaf_ascending.
      * exists s. now apply markEndLeaf_rightmost.
      * now apply markEndLeaf_rightmost.
      * exact Hrun.
Qed.

Lemma NewRangeTrie_ascending starts ends values root :
  bounds_ascending starts ends = true ->
  NewRangeTrie starts ends values = (Some root, None) ->
  inner root /\ branches_ascending root.
Proof.
  intros Hasc. unfold NewRangeTrie.
  destruct (negb (len starts =? len ends)); [discriminate|].
  destruct (toSlice values) as [vals|]; [|discriminate].
  destruct (negb (len starts =? len vals)); [discriminate|].
  destruct (NewRangeTrie_loop newNode starts ends vals) as [root' err] eqn:E.
  intros [= <- ->].
  destruct (NewRangeTrie_loop_ascending starts ends vals newNode root' None)
    as (? & ? & _); auto.
  - apply inner_newNode.
  - constructor; [apply ascending_nil|]. intros k c [].
  - left. auto.
Qed.

End Built.


(** ** [Squash] and [RemoveEndLeaves] keep the branches ascending *)

Section Preserved.
Context {V : Type}.
Implicit Types (n r c : Node V).

Lemma all_nodes_setStep (P : Node V -> Prop) c s :
  (forall x y, Branches x = Branches y -> P x -> P y) ->
  all_nodes P c -> all_nodes P (setStep c s).
Proof.
  intros HP [n Hn Hch]. constructor; [eapply HP; [|exact Hn]; reflexivity|].
  exact Hch.
Qed.

Lemma promote_cases n m :
  promote n = Some m ->
  m = n \/ exists b child, Branches n = [b] /\ b <> leafBranch
                           /\ lookup b (Children n) = Some child
                           /\ m = setStep child (uint16_add (Step child) 1).
Proof.
  unfold promote. destruct (Branches n) as [|b [|b' bs]].
  - intros [= <-]. now left.
  - destruct (Z.eqb_spec b leafBranch); [intros [= <-]; now left|].
    destruct (lookup b (Children n)) as [child|] eqn:El; [|discriminate].
    intros [= <-]. right. exists b, child. auto.
  - intros [= <-]. now left.
Qed.

Lemma Squash_all_nodes (P : Node V -> Prop) :
  (forall x y, Branches x = Branches y -> P x -> P y) ->
  forall n n', all_nodes P n -> Squash n = Some n' -> all_nodes P n'.
Proof.
  intros HP. induction n as [n IH] using Node_induction. intros n' Ha.
  rewrite Squash_eq. destruct (traverse squashChild (Children n)) as [cs'|] eqn:Et;
    [|discriminate].
  intros [= <-]. constructor.
  - eapply HP; [|exact (all_nodes_here _ _ Ha)]. reflexivity.
  - simpl. intros k m Hin.
    destruct (traverse_In _ _ _ _ _ Et Hin) as (c & Hc & Hsq).
    unfold squashChild in Hsq. destruct (Squash c) as [c'|] eqn:Ec; [|discriminate].
    pose proof (IH _ _ Hc c' (all_nodes_child _ _ _ _ Ha Hc) Ec) as Hc'.
    destruct (promote_cases _ _ Hsq) as [-> | (b & child & _ & _ & Hl & ->)];
      [assumption|].
    apply all_nodes_setStep; [assumption|].
    eapply all_nodes_child; [exact Hc'|]. eapply lookup_In. exact Hl.
Qed.

Lemma Squash_ascending n n' :
  branches_ascending n -> Squash n = Some n' -> branches_ascending n'.
Proof.
  apply Squash_all_nodes. intros x y E. now rewrite E.
Qed.

Lemma Forall_firstn {A} (P : A -> Prop) (l : list A) :
  forall a, Forall P l -> Forall P (firstn a l).
Proof.
  induction l as [|x l IH]; intros [|a] H; simpl; auto.
  inversion H; subst. constructor; auto.
Qed.

Lemma Forall_skipn {A} (P : A -> Prop) (l : list A) :
  forall b, Forall P l -> Forall P (skipn b l).
Proof.
  induction l as [|x l IH]; intros [|b] H; simpl; auto.
  inversion H; subst. auto.
Qed.

Lemma Forall_firstn_skipn {A} (P : A -> Prop) (l : list A) a b :
  Forall P l -> Forall P (firstn a l ++ skipn b l).
Proof.
  intros H. apply Forall_app. split;
    [now apply Forall_firstn|now apply Forall_skipn].
Qed.

Lemma ascending_skipn bs b : ascending bs -> ascending (skipn b bs).
Proof.
  unfold ascending. revert b. induction bs as [|x bs IH]; intros [|b] H; simpl;
    auto. apply StronglySorted_inv in H as [H _]. auto.
Qed.

Lemma ascending_cut bs : forall a b,
  (a < b)%nat -> ascending bs -> ascending (firstn a bs ++ skipn b bs).
Proof.
  unfold ascending. induction bs as [|x bs IH]; intros a b Hab H.
  - rewrite firstn_nil, skipn_nil. constructor.
  - apply StronglySorted_inv in H as [Hs Hf].
    destruct b as [|b]; [lia|]. destruct a as [|a]; simpl.
    + now apply ascending_skipn.
    + constructor; [apply IH; [lia|assumption]|].
      now apply Forall_firstn_skipn.
Qed.

Lemma removeBranch_ascending bs br :
  ascending bs -> ascending (removeBranch bs br).
Proof.
  intros H. unfold removeBranch.
  set (idx := sort_Search _ _).
  destruct (_ && _) eqn:E; [|assumption].
  apply andb_true_iff in E as [Hlt _]. apply Z.ltb_lt in Hlt.
  unfold cut. destruct (Z.le_gt_cases 0 idx).
  - apply ascending_cut; [lia|assumption].
  - replace (Z.to_nat idx) with 0%nat by lia. simpl.
    now apply ascending_skipn.
Qed.

Lemma pruneLoop_ascending d cs : forall bs cs' bs',
  (forall k c, In (k, c) cs ->
     branches_ascending c /\ branches_ascending (RemoveEndLeaves c)) ->
  ascending bs ->
  pruneLoop d cs bs = (cs', bs') ->
  ascending bs' /\ forall k c, In (k, c) cs' -> branches_ascending c.
Proof.
  induction cs as [|[k c] cs IH]; intros bs cs' bs' Hcs Hbs Hrun.
  - injection Hrun as <- <-. split; [assumption|]. intros k c [].
  - cbn [pruneLoop] in Hrun.
    assert (Hrest : forall k c, In (k, c) cs ->
              branches_ascending c /\ branches_ascending (RemoveEndLeaves c))
      by (intros k0 c0 H0; apply (Hcs k0 c0); now right).
    destruct (Hcs k c (or_introl eq_refl)) as [Hc Hc'].
    destruct (d && (k =? leafBranch)); [eauto|].
    destruct (len (Branches c) =? 0).
    + destruct (pruneLoop d cs bs) as [rest bs0] eqn:E. injection Hrun as <- <-.
      destruct (IH _ _ _ Hrest Hbs E) as [? Hall]. split; [assumption|].
      intros k0 c0 [[= <- <-]|Hin]; eauto.
    + destruct (len (Branches (RemoveEndLeaves c)) =? 0).
      * eapply IH; [exact Hrest| |exact Hrun]. now apply removeBranch_ascending.
      * destruct (pruneLoop d cs bs) as [rest bs0] eqn:E. injection Hrun as <- <-.
        destruct (IH _ _ _ Hrest Hbs E) as [? Hall]. split; [assumption|].
        intros k0 c0 [[= <- <-]|Hin]; eauto.
Qed.

Lemma RemoveEndLeaves_ascending n :
  branches_ascending n -> branches_ascending (RemoveEndLeaves n).
Proof.
  induction n as [n IH] using Node_induction. intros Ha.
  rewrite RemoveEndLeaves_eq. cbv zeta.
  destruct (pruneLoop _ _ _) as [cs' bs'] eqn:E.
  apply pruneLoop_ascending in E as [Hbs Hcs].
  - constructor; assumption.
  - intros k c Hin. pose proof (all_nodes_child _ _ _ _ Ha Hin). eauto.
  - pose proof (all_nodes_here _ _ Ha) as H. cbn beta in H.
    destruct (endOnlyLeaf _); [now apply removeBranch_ascending|assumption].
Qed.

End Preserved.


(** ** [Squash] never panics on a built trie *)

Section SquashTotal.
Context {V : Type}.
Implicit Types (n r c : Node V).

Lemma Squash_fields n n' :
  Squash n = Some n' ->
  Branches n' = Branches n /\ keys (Children n') = keys (Children n)
  /\ Step n' = Step n /\ Value n' = Value n
  /\ isStartLeaf n' = isStartLeaf n /\ isEndLeaf n' = isEndLeaf n.
Proof.
  rewrite Squash_eq.
  destruct (traverse squashChild (Children n)) as [cs'|] eqn:E; [|discriminate].
  intros [= <-]. simpl. apply traverse_keys in E. auto 6.
Qed.

Lemma Squash_leaf c : is_leaf c -> Squash c = Some c.
Proof. intros (v & s & e & ->). reflexivity. Qed.

Lemma promote_leaf c : is_leaf c -> promote c = Some c.
Proof. intros (v & s & e & ->). reflexivity. Qed.

Lemma promote_total n :
  Branches n = keys (Children n) -> exists m, promote n = Some m.
Proof.
  intros Hk. unfold promote. destruct (Branches n) as [|b [|b' bs]] eqn:Eb; eauto.
  destruct (b =? leafBranch); eauto.
  destruct (In_keys_lookup b (Children n)) as (x & ->); eauto.
  rewrite <- Hk. now left.
Qed.

Lemma Squash_total n : inner n -> exists n', Squash n = Some n'.
Proof.
  induction n as [n IH] using Node_induction. intros Hi.
  rewrite Squash_eq.
  destruct (traverse_total squashChild (Children n)) as (cs' & ->); eauto.
  intros k c Hin. unfold squashChild.
  destruct (inner_children _ _ _ Hi Hin) as [[_ Hl]|(_ & Hci & _)].
  - rewrite (Squash_leaf _ Hl), (promote_leaf _ Hl). discriminate.
  - destruct (IH _ _ Hin Hci) as (c' & Ec). rewrite Ec.
    destruct (Squash_fields _ _ Ec) as (Eb & Ek & _).
    destruct (promote_total c') as (m & ->); [|discriminate].
    now rewrite Eb, Ek, <- (inner_keys _ Hci).
Qed.

End SquashTotal.


(** ** Paths and the keys a trie holds *)

Section Paths.
Context {V : Type}.
Implicit Types (n r c m : Node V) (key path : list byte).

(** The node reached from [n] by one child per byte of [path], as the walk
  of [addKV] and the descent of [Search] in an unsquashed trie do. *)
Fixpoint node_at n path : option (Node V) :=
  match path with
  | [] => Some n
  | b :: rest =>
      match lookup (int_of_byte b) (Children n) with
      | None => None
      | Some c => node_at c rest
      end
  end.

(** The sentinel leaf of [key], if [key] is in the trie. *)
Definition leaf_at n key : option (Node V) :=
  match node_at n key with
  | None => None
  | Some m => lookup leafBranch (Children m)
  end.

Lemma leaf_at_cons n b rest :
  leaf_at n (b :: rest) =
  match lookup (int_of_byte b) (Children n) with
  | None => None
  | Some c => leaf_at c rest
  end.
Proof.
  unfold leaf_at. simpl. now destruct (lookup (int_of_byte b) (Children n)).
Qed.

Lemma node_at_app n p q :
  node_at n (p ++ q) =
  match node_at n p with
  | None => None
  | Some m => node_at m q
  end.
Proof.
  revert n. induction p as [|b p IH]; intros n; simpl; [reflexivity|].
  destruct (lookup (int_of_byte b) (Children n)); auto.
Qed.

Lemma lookup_byte_ne_leaf (b : byte) (x : Node V) cs :
  lookup (int_of_byte b) ((leafBranch, x) :: cs) = lookup (int_of_byte b) cs.
Proof.
  cbn [lookup].
  destruct (Z.eqb_spec leafBranch (int_of_byte b)) as [E|]; [|reflexivity].
  symmetry in E. now apply int_of_byte_not_leaf in E.
Qed.

(** The chain below a fresh node holds the new key and nothing else. *)
Lemma leaf_at_grow key leaf :
  leaf_at (grow newNode key leaf) key = Some leaf
  /\ forall key', key' <> key -> leaf_at (grow newNode key leaf) key' = None.
Proof.
  induction key as [|b rest [IH1 IH2]]; simpl.
  - split; [reflexivity|]. intros [|b' r'] Hne; [congruence|].
    rewrite leaf_at_cons. cbn [attach newNode Children assign].
    now rewrite lookup_byte_ne_leaf.
  - split.
    + rewrite leaf_at_cons. cbn [attach newNode Children assign lookup].
      now rewrite Z.eqb_refl.
    + intros [|b' r'] Hne.
      { unfold leaf_at. cbn [node_at attach newNode Children assign lookup].
        destruct (Z.eqb_spec (int_of_byte b) leafBranch) as [E|]; [|reflexivity].
        now apply int_of_byte_not_leaf in E. }
      rewrite leaf_at_cons. cbn [attach newNode Children assign lookup].
      destruct (Z.eqb_spec (int_of_byte b) (int_of_byte b')) as [E|]; [|reflexivity].
      apply int_of_byte_inj in E. subst b'. apply IH2. congruence.
Qed.

Lemma leaf_at_newNode key : leaf_at (@newNode V) key = None.
Proof. now destruct key. Qed.

(** [addKV] keeps the shape of the trie. *)
Lemma addKV_inner key : forall n (v : V) s e n',
  inner n -> addKV n key v s e = inl n' -> inner n' /\ Branches n' <> [].
Proof.
  induction key as [|b rest IH]; intros n v s e n' Hi; cbn [addKV].
  - destruct (lookup leafBranch (Children n)) eqn:El; [discriminate|].
    destruct (Z.eqb_spec (len (Branches n)) 0) as [E0|]; [|discriminate].
    simpl. intros [= <-]. split.
    + apply attach_inner; [assumption| |left; split; [reflexivity|apply is_leaf_newLeaf]].
      rewrite (inner_keys _ Hi). now apply lookup_None.
    + simpl. now destruct (Branches n).
  - destruct (lookup (int_of_byte b) (Children n)) as [child|] eqn:El.
    + destruct (addKV child rest v s e) as [child'|] eqn:Ea; [|discriminate].
      intros [= <-]. destruct (inner_lookup_byte _ _ _ Hi El) as [Hci _].
      destruct (IH _ _ _ _ _ Hci Ea) as [Hci' Hne'].
      inversion Hi as [cs bs Hk Hnd Hch]; subst. simpl in *. split.
      * apply inner_intro; [|assumption|].
        -- rewrite keys_assign_old; [reflexivity|congruence].
        -- intros k x Hin. apply In_assign in Hin as [[-> ->]|Hin]; auto.
           right. split; [apply int_of_byte_range|auto].
      * intros E. apply lookup_Some_keys in El. rewrite E in El. destruct El.
    + intros [= <-]. cbn [grow].
      destruct (grow_newNode rest (newLeaf v s e) (is_leaf_newLeaf v s e))
        as (Hgi & _ & _ & Hgne).
      split.
      * apply attach_inner; [assumption| |].
        -- rewrite (inner_keys _ Hi). now apply lookup_None.
        -- right. split; [apply int_of_byte_range|auto].
      * simpl. now destruct (Branches n).
Qed.

(** After a successful [addKV] the trie holds the new key with the new
  leaf, and every other key as before. *)
Lemma addKV_leaf_at key : forall n (v : V) s e n',
  inner n -> addKV n key v s e = inl n' ->
  leaf_at n' key = Some (newLeaf v s e)
  /\ forall key', key' <> key -> leaf_at n' key' = leaf_at n key'.
Proof.
  induction key as [|b rest IH]; intros n v s e n' Hi; cbn [addKV].
  - destruct (lookup leafBranch (Children n)) eqn:El; [discriminate|].
    destruct (Z.eqb_spec (len (Branches n)) 0) as [E0|]; [|discriminate].
    simpl. intros [= <-].
    assert (En : n = newNode).
    { apply inner_empty; [assumption|]. destruct (Branches n); [reflexivity|].
      unfold len in E0. simpl in E0. lia. }
    subst n. destruct (leaf_at_grow [] (newLeaf v s e)) as [H1 H2].
    split; [exact H1|]. intros key' Hne.
    rewrite leaf_at_newNode. now apply H2.
  - destruct (lookup (int_of_byte b) (Children n)) as [child|] eqn:El.
    + destruct (addKV child rest v s e) as [child'|] eqn:Ea; [|discriminate].
      intros [= <-]. destruct (inner_lookup_byte _ _ _ Hi El) as [Hci _].
      destruct (IH _ _ _ _ _ Hci Ea) as [H1 H2]. split.
      * rewrite leaf_at_cons. simpl. now rewrite lookup_assign_eq.
      * intros [|b' r'] Hne.
        -- unfold leaf_at. simpl. apply lookup_assign_ne. apply leaf_not_byte.
        -- rewrite !leaf_at_cons. simpl.
           destruct (Z.eq_dec (int_of_byte b') (int_of_byte b)) as [E|Hnb].
           ++ rewrite E, lookup_assign_eq, El. apply int_of_byte_inj in E.
              subst b'. apply H2. congruence.
           ++ now rewrite lookup_assign_ne.
    + intros [= <-]. cbn [grow].
      destruct (leaf_at_grow rest (newLeaf v s e)) as [H1 H2]. split.
      * rewrite leaf_at_cons. simpl. now rewrite lookup_assign_eq.
      * intros [|b' r'] Hne.
        -- unfold leaf_at. simpl. apply lookup_assign_ne. apply leaf_not_byte.
        -- rewrite !leaf_at_cons. simpl.
           destruct (Z.eq_dec (int_of_byte b') (int_of_byte b)) as [E|Hnb].
           ++ rewrite E, lookup_assign_eq, El. apply int_of_byte_inj in E.
              subst b'. apply H2. congruence.
           ++ now rewrite lookup_assign_ne.
Qed.

(** A key the trie holds is refused as a duplicate. *)
Lemma addKV_duplicate key : forall n (v : V) s e,
  leaf_at n key <> None -> addKV n key v s e = inr ErrDuplicateKeys.
Proof.
  induction key as [|b rest IH]; intros n v s e H; cbn [addKV].
  - unfold leaf_at in H. simpl in H.
    now destruct (lookup leafBranch (Children n)).
  - rewrite leaf_at_cons in H.
    destruct (lookup (int_of_byte b) (Children n)) as [child|]; [|congruence].
    now rewrite IH.
Qed.

(** A key that ends on a node with branches, and is not in the trie, is
  refused as out of order. *)
Lemma addKV_prefix key : forall n m (v : V) s e,
  leaf_at n key = None -> node_at n key = Some m -> Branches m <> [] ->
  addKV n key v s e = inr ErrKeyOutOfOrder.
Proof.
  induction key as [|b rest IH]; intros n m v s e Hl Hn Hb; cbn [addKV].
  - unfold leaf_at in Hl. simpl in *. injection Hn as <-. rewrite Hl.
    destruct (Z.eqb_spec (len (Branches n)) 0) as [E0|]; [|reflexivity].
    destruct (Branches n); [congruence|]. unfold len in E0. simpl in E0. lia.
  - rewrite leaf_at_cons in Hl. simpl in Hn.
    destruct (lookup (int_of_byte b) (Children n)) as [child|]; [|discriminate].
    now rewrite (IH _ _ _ _ _ Hl Hn Hb).
Qed.

(** The errors of [addKV] say what they mean. *)
Lemma addKV_error key : forall n (v : V) s e err,
  addKV n key v s e = inr err ->
  (err = ErrDuplicateKeys /\ leaf_at n key <> None)
  \/ (err = ErrKeyOutOfOrder /\ leaf_at n key = None
      /\ exists m, node_at n key = Some m /\ Branches m <> []).
Proof.
  induction key as [|b rest IH]; intros n v s e err; cbn [addKV].
  - unfold leaf_at. simpl.
    destruct (lookup leafBranch (Children n)); [intros [= <-]; left; split; congruence|].
    destruct (Z.eqb_spec (len (Branches n)) 0) as [E0|Hne]; [discriminate|].
    intros [= <-]. right. split; [reflexivity|]. split; [reflexivity|].
    exists n. split; [reflexivity|]. intros E. now rewrite E in Hne.
  - rewrite leaf_at_cons. simpl.
    destruct (lookup (int_of_byte b) (Children n)) as [child|]; [|discriminate].
    destruct (addKV child rest v s e) as [c'|e'] eqn:Ea; [discriminate|].
    intros [= <-]. exact (IH _ _ _ _ _ Ea).
Qed.

End Paths.


(** ** The keys and values a trie built by [New] holds *)

Definition key_eq_dec : forall a b : list byte, {a = b} + {a <> b} :=
  list_eq_dec Byte.byte_eq_dec.

Arguments key_eq_dec : simpl never.

Section Contents.
Context {V : Type}.
Implicit Types (n r c m root : Node V) (key : list byte)
         (kvs : list (list byte * V)).

(** The value paired with [k], the first one if there are several. *)
Fixpoint assoc (k : list byte) kvs : option V :=
  match kvs with
  | [] => None
  | (k', v) :: rest => if key_eq_dec k' k then Some v else assoc k rest
  end.

(** [root] has the shape [addKV] gives, and holds exactly the pairs [kvs],
  each value in a leaf without range flags. *)
Definition holds root kvs : Prop :=
  inner root
  /\ forall k, leaf_at root k
               = option_map (fun v => newLeaf v false false) (assoc k kvs).

Lemma assoc_app k kvs kvs' :
  assoc k (kvs ++ kvs') =
  match assoc k kvs with Some v => Some v | None => assoc k kvs' end.
Proof.
  induction kvs as [|[k' v] kvs IH]; simpl; [reflexivity|].
  now destruct (key_eq_dec k' k).
Qed.

Lemma assoc_combine_In k keys : forall (vals : list V),
  (length keys <= length vals)%nat -> In k keys ->
  assoc k (combine keys vals) <> None.
Proof.
  induction keys as [|k' keys IH]; intros [|v vals] Hlen Hin; simpl in *;
    try tauto; try lia.
  destruct (key_eq_dec k' k); [discriminate|].
  destruct Hin as [?|Hin]; [contradiction|]. apply IH; [lia|assumption].
Qed.

Lemma assoc_combine_not_In k keys : forall (vals : list V),
  ~ In k keys -> assoc k (combine keys vals) = None.
Proof.
  induction keys as [|k' keys IH]; intros [|v vals] Hin; simpl in *; auto.
  destruct (key_eq_dec k' k); [tauto|]. apply IH. tauto.
Qed.

Lemma holds_newNode : holds newNode [].
Proof. split; [apply inner_newNode|]. intros k. apply leaf_at_newNode. Qed.

Lemma New_loop_holds keys : forall (vals : list V) root kvs root',
  holds root kvs -> New_loop root keys vals = (root', None) ->
  holds root' (kvs ++ combine keys vals).
Proof.
  induction keys as [|key keys IH]; intros vals root kvs root' Hh Hrun.
  - destruct vals; injection Hrun as <-; now rewrite app_nil_r.
  - destruct vals as [|v vals]; [injection Hrun as <-; now rewrite app_nil_r|].
    cbn [New_loop] in Hrun.
    destruct (addKV root key v false false) as [root1|e] eqn:Ea; [|discriminate].
    destruct Hh as [Hi Hl].
    destruct (addKV_inner _ _ _ _ _ _ Hi Ea) as [Hi1 _].
    destruct (addKV_leaf_at _ _ _ _ _ _ Hi Ea) as [H1 H2].
    assert (Hnew : assoc key kvs = None).
    { destruct (assoc key kvs) eqn:E; [|reflexivity].
      rewrite addKV_duplicate in Ea; [discriminate|]. rewrite Hl, E. discriminate. }
    simpl. replace (kvs ++ (key, v) :: combine keys vals)
      with ((kvs ++ [(key, v)]) ++ combine keys vals)
      by now rewrite <- app_assoc.
    apply (IH vals root1); [|assumption]. split; [assumption|].
    intros k. rewrite assoc_app. simpl.
    destruct (key_eq_dec key k) as [<-|Hne].
    + now rewrite H1, Hnew.
    + rewrite (H2 k) by congruence. rewrite Hl. now destruct (assoc k kvs).
Qed.

Lemma New_loop_app pre : forall rest (vals : list V) root root1,
  (length pre <= length vals)%nat ->
  New_loop root pre (firstn (length pre) vals) = (root1, None) ->
  New_loop root (pre ++ rest) vals = New_loop root1 rest (skipn (length pre) vals).
Proof.
  induction pre as [|k pre IH]; intros rest vals root root1 Hlen Hrun.
  - simpl in *. now injection Hrun as <-.
  - destruct vals as [|v vals]; [simpl in Hlen; lia|].
    simpl in *. destruct (addKV root k v false false); [|discriminate].
    apply IH; [lia|assumption].
Qed.

Lemma node_at_inner path : forall n m,
  inner n -> node_at n path = Some m -> inner m.
Proof.
  induction path as [|b rest IH]; intros n m Hi; simpl.
  - now intros [= <-].
  - destruct (lookup (int_of_byte b) (Children n)) as [c|] eqn:El; [|discriminate].
    destruct (inner_lookup_byte _ _ _ Hi El). eauto.
Qed.

(** A key with a longer key below it ends on a node that has branches. *)
Lemma longer_key_branches n key b rest :
  inner n -> leaf_at n (key ++ b :: rest) <> None ->
  exists m, node_at n key = Some m /\ Branches m <> [].
Proof.
  intros Hi H. unfold leaf_at in H. rewrite node_at_app in H.
  destruct (node_at n key) as [m|] eqn:En; [|congruence].
  exists m. split; [reflexivity|]. simpl in H.
  destruct (lookup (int_of_byte b) (Children m)) eqn:El; [|congruence].
  rewrite (inner_keys m (node_at_inner _ _ _ Hi En)).
  apply lookup_Some_keys in El. intros E. rewrite E in El. destruct El.
Qed.

(** What [New] returns when the keys before [key] were accepted and [key]
  is refused by [addKV]. *)
Lemma New_stops_at pre key post (vals : list V) root e :
  len (pre ++ key :: post) = len vals ->
  New pre (Slice (firstn (length pre) vals)) = (Some root, None) ->
  (forall v, addKV root key v false false = inr e) ->
  New (pre ++ key :: post) (Slice vals) = (Some root, Some (WithContext e key)).
Proof.
  intros Hlen Hpre Hadd. unfold New in *. simpl in *.
  assert (Hl : (length pre < length vals)%nat).
  { unfold len in Hlen. rewrite length_app in Hlen. simpl in Hlen. lia. }
  rewrite Hlen, Z.eqb_refl. simpl.
  destruct (negb _); [discriminate|].
  destruct (New_loop newNode pre _) as [r0 e0] eqn:E0. injection Hpre as -> ->.
  rewrite (New_loop_app pre (key :: post) vals newNode root); [|lia|assumption].
  destruct (skipn (length pre) vals) as [|v vs] eqn:Es.
  - apply (f_equal (@length V)) in Es. rewrite length_skipn in Es. simpl in Es. lia.
  - simpl. now rewrite Hadd.
Qed.

Lemma New_holds keys (vals : list V) root :
  New keys (Slice vals) = (Some root, None) -> holds root (combine keys vals).
Proof.
  unfold New. simpl. destruct (negb _); [discriminate|].
  destruct (New_loop newNode keys vals) as [r e] eqn:E. intros [= -> ->].
  exact (New_loop_holds keys vals newNode [] root holds_newNode E).
Qed.

End Contents.


(** ** The branch the loop of [Search] takes *)

Section Iterations.
Context {V : Type}.
Implicit Types (key : list byte).

Lemma index_Some_lt {A} (l : list A) i x : index l i = Some x -> 0 <= i < len l.
Proof.
  unfold index, len. destruct (Z.ltb_spec i 0) as [Hneg|Hpos]; [discriminate|].
  intros Hx. assert (Hn : nth_error l (Z.to_nat i) <> None) by congruence.
  apply nth_error_Some in Hn. lia.
Qed.

Lemma branchAt_byte key i b :
  index key i = Some b -> branchAt key i = Some (int_of_byte b).
Proof.
  intros H. unfold branchAt. pose proof (index_Some_lt _ _ _ H).
  destruct (Z.eqb_spec (len key) i); [lia|]. now rewrite H.
Qed.

End Iterations.


(** ** [Search] in a trie that was not squashed *)

Section SearchPlain.
Context {V : Type}.
Implicit Types (n r c m eqNode : Node V) (key : list byte).

Lemma scan_spec rest : forall i b br i' b',
  scan i b rest br = (i', b') ->
  i <= i' <= i + len rest
  /\ nth_error (b :: rest) (Z.to_nat (i' - i)) = Some b'.
Proof.
  unfold len. induction rest as [|b1 rest IH]; intros i b br i' b'; simpl.
  - destruct (b >=? br); intros [= <- <-]; rewrite Z.sub_diag; simpl;
      (split; [lia|reflexivity]).
  - destruct (b >=? br).
    + intros [= <- <-]. rewrite Z.sub_diag. simpl. split; [lia|reflexivity].
    + intros H. apply IH in H as [Hr Hn]. split; [lia|].
      replace (Z.to_nat (i' - i)) with (S (Z.to_nat (i' - (i + 1)))) by lia.
      exact Hn.
Qed.

(** The indexes [neighborBranches] returns for a non-empty slice are -1 or
  valid. *)
Lemma neighborBranches_range branches br li ri :
  branches <> [] -> neighborBranches branches br = (li, ri) ->
  (li = -1 \/ 0 <= li < len branches) /\ (ri = -1 \/ 0 <= ri < len branches).
Proof.
  destruct branches as [|b0 rest]; [congruence|]. intros _. unfold neighborBranches.
  destruct (scan 0 b0 rest br) as [i b] eqn:Es.
  apply scan_spec in Es as [Hr _].
  assert (Hlen : len (b0 :: rest) = 1 + len rest) by (unfold len; cbn [length]; lia).
  rewrite Hlen.
  destruct (b =? br).
  - destruct (Z.eqb_spec (i + 1) (1 + len rest)); intros [= <- <-]; lia.
  - destruct (b >? br); intros [= <- <-]; lia.
Qed.

(** A node below which [leftMost] and [rightMost] find a leaf. *)
Definition subtree m : Prop := is_leaf m \/ (inner m /\ Branches m <> []).

Definition safe (x : option (Node V)) : Prop :=
  match x with None => True | Some m => subtree m end.

Lemma inner_child_subtree n k c :
  inner n -> In (k, c) (Children n) -> subtree c.
Proof.
  intros Hi Hin. destruct (inner_children _ _ _ Hi Hin) as [[_ ?]|(_ & ? & ?)];
    [now left|now right].
Qed.

Lemma inner_branch_child n b :
  inner n -> In b (Branches n) ->
  exists c, lookup b (Children n) = Some c /\ subtree c.
Proof.
  intros Hi Hb. rewrite (inner_keys _ Hi) in Hb.
  destruct (In_keys_lookup _ _ Hb) as (c & Hc). exists c. split; [assumption|].
  eapply inner_child_subtree; eauto using lookup_In.
Qed.

Lemma leftMost_subtree : forall n, subtree n ->
  exists m, leftMost n = Some m /\ is_leaf m.
Proof.
  induction n as [n IH] using Node_induction. intros [Hl|[Hi Hne]].
  - exists n. split; [|assumption]. destruct Hl as (v & s & e & ->). reflexivity.
  - rewrite leftMost_eq. destruct (Branches n) as [|b bs] eqn:Eb; [congruence|].
    destruct (inner_branch_child n b Hi) as (c & Hc & Hs); [rewrite Eb; now left|].
    rewrite Hc. eapply IH; eauto using lookup_In.
Qed.

Lemma last_In (bs : list Z) : forall b, In (last bs b) (b :: bs).
Proof.
  induction bs as [|x bs IH]; intros b; [now left|].
  destruct bs as [|y bs]; [right; now left|].
  change (last (x :: y :: bs) b) with (last (y :: bs) b).
  destruct (IH b) as [E|Hin]; [left; exact E|right; now right].
Qed.

Lemma rightMost_subtree : forall n, subtree n ->
  exists m, rightMost n = Some m /\ is_leaf m.
Proof.
  induction n as [n IH] using Node_induction. intros [Hl|[Hi Hne]].
  - exists n. split; [|assumption]. destruct Hl as (v & s & e & ->). reflexivity.
  - rewrite rightMost_eq. destruct (Branches n) as [|b bs] eqn:Eb; [congruence|].
    destruct (inner_branch_child n (last bs b) Hi) as (c & Hc & Hs).
    { rewrite Eb. apply last_In. }
    rewrite Hc. eapply IH; eauto using lookup_In.
Qed.

Lemma resolve_safe side x :
  (forall n, subtree n -> exists m, side n = Some m /\ is_leaf m) ->
  safe x -> exists v : option V, resolve side x = Some v.
Proof.
  intros Hside Hx. destruct x as [m|]; simpl; [|eauto].
  destruct (Hside m Hx) as (l & -> & _). simpl. eauto.
Qed.

Lemma candidate_safe n idx old :
  inner n -> (idx = -1 \/ 0 <= idx < len (Branches n)) -> safe old ->
  exists x, candidate n idx old = Some x /\ safe x.
Proof.
  intros Hi Hidx Hold. unfold candidate.
  destruct (Z.geb_spec idx 0); [|eauto].
  destruct Hidx as [->|Hr]; [lia|].
  unfold index. destruct (Z.ltb_spec idx 0); [lia|].
  destruct (nth_error (Branches n) (Z.to_nat idx)) as [b|] eqn:En.
  - destruct (inner_branch_child n b Hi) as (c & -> & Hs);
      [eapply nth_error_In; eauto|]. eauto.
  - apply nth_error_None in En. unfold len in Hr. lia.
Qed.

Lemma skipn_nth_error {A} (l : list A) : forall k,
  (k <= length l)%nat ->
  match skipn k l with
  | [] => k = length l
  | x :: rest =>
      nth_error l k = Some x /\ skipn (S k) l = rest /\ (k < length l)%nat
  end.
Proof.
  induction l as [|y l IH]; intros [|k] Hk; simpl in *; try lia.
  - split; [reflexivity|]. split; [reflexivity|lia].
  - specialize (IH k ltac:(lia)). destruct (skipn k l) as [|x rest]; [lia|].
    destruct IH as (? & ? & ?). split; [assumption|]. split; [assumption|lia].
Qed.

Lemma skipn_index key i :
  0 <= i <= len key ->
  match skipn (Z.to_nat i) key with
  | [] => i = len key
  | b :: rest =>
      index key i = Some b /\ skipn (Z.to_nat (i + 1)) key = rest /\ i < len key
  end.
Proof.
  unfold len, index. intros Hi. destruct (Z.ltb_spec i 0) as [Hneg|_]; [lia|].
  pose proof (skipn_nth_error key (Z.to_nat i) ltac:(lia)) as H.
  replace (Z.to_nat (i + 1)) with (S (Z.to_nat i)) by lia.
  destruct (skipn (Z.to_nat i) key) as [|b rest]; [lia|].
  destruct H as (? & ? & ?). split; [assumption|]. split; [assumption|lia].
Qed.

(** In a trie as [addKV] builds it, the loop of [Search] ends without a
  panic, with the leaf of the rest of the key, if the trie holds it, as
  [eqNode], and with candidates below which a leaf is found. *)
Lemma descend_plain : forall n key i ltNode gtNode,
  inner n -> Branches n <> [] -> 0 <= i <= len key ->
  safe ltNode -> safe gtNode ->
  exists ltNode' gtNode',
    descend n key i ltNode gtNode
    = Some (ltNode', leaf_at n (skipn (Z.to_nat i) key), gtNode')
    /\ safe ltNode' /\ safe gtNode'.
Proof.
  induction n as [n IH] using Node_induction.
  intros key i ltNode gtNode Hi Hne Hr Hlt Hgt.
  rewrite descend_eq. pose proof (skipn_index key i Hr) as Hs.
  assert (Hbr : exists br, branchAt key i = Some br
            /\ match skipn (Z.to_nat i) key with
               | [] => br = leafBranch
               | b :: _ => br = int_of_byte b
               end).
  { unfold branchAt. destruct (skipn (Z.to_nat i) key) as [|b rest].
    - subst i. rewrite Z.eqb_refl. eauto.
    - destruct Hs as (Hb & _ & Hl). destruct (Z.eqb_spec (len key) i); [lia|].
      rewrite Hb. simpl. eauto. }
  destruct Hbr as (br & -> & Hbr).
  destruct (neighborBranches (Branches n) br) as [li ri] eqn:En.
  destruct (neighborBranches_range _ _ _ _ Hne En) as [Hli Hri].
  destruct (candidate_safe n li ltNode Hi Hli Hlt) as (lt' & -> & Hlt').
  destruct (candidate_safe n ri gtNode Hi Hri Hgt) as (gt' & -> & Hgt').
  unfold advance.
  destruct (skipn (Z.to_nat i) key) as [|b rest] eqn:Esk.
  - subst br. unfold leaf_at. simpl.
    destruct (lookup leafBranch (Children n)); eauto.
  - subst br. destruct Hs as (Hb & Hrest & Hl). rewrite leaf_at_cons.
    destruct (lookup (int_of_byte b) (Children n)) as [c|] eqn:Ec; [|eauto].
    destruct (Z.eqb_spec (int_of_byte b) leafBranch) as [E|];
      [now apply int_of_byte_not_leaf in E|].
    destruct (inner_lookup_byte _ _ _ Hi Ec) as [Hci Hcne].
    assert (Hstep : Step c = 1) by (now inversion Hci).
    rewrite Hstep. destruct (Z.gtb_spec (i + 1) (len key)); [lia|].
    destruct (IH _ _ (lookup_In _ _ _ Ec) key (i + 1) lt' gt' Hci Hcne)
      as (lt2 & gt2 & Hd & ? & ?); auto; [lia|].
    rewrite Hd, Hrest. eauto.
Qed.

(** [Search] in such a trie returns, and its [eq] is the value of the key
  if the trie holds the key and absent otherwise. *)
Lemma Search_plain root key :
  inner root -> Branches root <> [] ->
  exists ltValue gtValue : option V,
    Search root key
    = Some (ltValue,
            match leaf_at root key with Some leaf => Value leaf | None => None end,
            gtValue).
Proof.
  intros Hi Hne. unfold Search.
  destruct (descend_plain root key 0 None None Hi Hne) as (lt' & gt' & -> & Hl & Hg);
    simpl; auto. { unfold len. lia. }
  destruct (resolve_safe rightMost lt' rightMost_subtree Hl) as (lv & ->).
  destruct (resolve_safe leftMost gt' leftMost_subtree Hg) as (gv & ->).
  eauto.
Qed.

End SearchPlain.


(** ** [sort.Search] and [removeBranch] *)

Section BinarySearch.

(** The binary search returns the boundary of a predicate that, once true,
  stays true. *)
Lemma sort_Search_loop_spec (f : Z -> bool) (n : Z) :
  (forall x y, 0 <= x <= y -> y < n -> f x = true -> f y = true) ->
  forall fuel i j,
    0 <= i <= j -> j <= n -> j - i <= Z.of_nat fuel ->
    (forall x, 0 <= x < i -> f x = false) ->
    (forall x, j <= x < n -> f x = true) ->
    let r := sort_Search_loop fuel i j f in
    i <= r <= j
    /\ (forall x, 0 <= x < r -> f x = false)
    /\ (forall x, r <= x < n -> f x = true).
Proof.
  intros Hmono. induction fuel as [|fuel IH]; intros i j Hij Hjn Hfuel Hlo Hhi;
    cbn [sort_Search_loop].
  - assert (i = j) by lia. subst j. cbv zeta. split; [lia|]. split; assumption.
  - destruct (Z.ltb_spec i j) as [Hlt|Hge].
    + cbv zeta. rewrite Z.shiftr_div_pow2 by lia. change (2 ^ 1) with 2.
      set (h := (i + j) / 2).
      assert (Hh : i <= h < j).
      { unfold h. split; [apply Z.div_le_lower_bound; lia|
                          apply Z.div_lt_upper_bound; lia]. }
      destruct (f h) eqn:Efh; cbn [negb].
      * destruct (IH i h) as (Hr & Hlo' & Hhi'); try lia; auto.
        { intros x Hx. apply (Hmono h x); [lia|lia|assumption]. }
        split; [lia|]. split; assumption.
      * destruct (IH (h + 1) j) as (Hr & Hlo' & Hhi'); try lia; auto.
        { intros x Hx. destruct (f x) eqn:Efx; [|reflexivity].
          rewrite (Hmono x h) in Efh; [discriminate|lia|lia|assumption]. }
        split; [lia|]. split; assumption.
    + assert (i = j) by lia. subst j. cbv zeta. split; [lia|]. split; assumption.
Qed.

Lemma sort_Search_spec (f : Z -> bool) (n : Z) :
  0 <= n ->
  (forall x y, 0 <= x <= y -> y < n -> f x = true -> f y = true) ->
  let r := sort_Search n f in
  0 <= r <= n
  /\ (forall x, 0 <= x < r -> f x = false)
  /\ (forall x, r <= x < n -> f x = true).
Proof.
  intros Hn Hmono. unfold sort_Search.
  apply sort_Search_loop_spec; try lia; auto; intros x Hx; lia.
Qed.

Lemma ascending_nth l : ascending l ->
  forall x y, (x < y < length l)%nat -> nth x l 0 < nth y l 0.
Proof.
  unfold ascending. induction 1 as [|a l Hs IH Hf]; intros x y Hxy; simpl in *;
    [lia|].
  destruct y as [|y]; [lia|]. destruct x as [|x].
  - rewrite Forall_forall in Hf. apply Hf. apply nth_In. lia.
  - apply IH. lia.
Qed.

Lemma removeBranch_search l br :
  ascending l ->
  let idx := sort_Search (len l) (fun i => nth (Z.to_nat i) l 0 >=? br) in
  0 <= idx <= len l
  /\ (forall x, 0 <= x < idx -> nth (Z.to_nat x) l 0 < br)
  /\ (forall x, idx <= x < len l -> br <= nth (Z.to_nat x) l 0).
Proof.
  intros Ha.
  destruct (sort_Search_spec (fun i => nth (Z.to_nat i) l 0 >=? br) (len l))
    as (Hr & Hlo & Hhi).
  - unfold len. lia.
  - intros x y Hxy Hy Hx. apply Z.geb_le in Hx. apply Z.geb_le.
    destruct (Z.eq_dec x y) as [->|]; [assumption|].
    pose proof (ascending_nth l Ha (Z.to_nat x) (Z.to_nat y)) as H.
    unfold len in Hy. specialize (H ltac:(lia)). lia.
  - cbv zeta. split; [assumption|]. split.
    + intros x Hx. specialize (Hlo x Hx). cbv beta in Hlo.
      destruct (Z.geb_spec (nth (Z.to_nat x) l 0) br); [discriminate|lia].
    + intros x Hx. specialize (Hhi x Hx). cbv beta in Hhi. now apply Z.geb_le.
Qed.

(** On an ascending slice [removeBranch] removes the branch. *)
Lemma removeBranch_present pre br tl :
  ascending (pre ++ br :: tl) -> removeBranch (pre ++ br :: tl) br = pre ++ tl.
Proof.
  intros Ha. unfold removeBranch.
  destruct (removeBranch_search _ br Ha) as (Hr & Hlo & Hhi). cbv zeta in *.
  set (l := pre ++ br :: tl) in *.
  set (idx := sort_Search (len l) _) in *.
  assert (Hlen : len l = len pre + 1 + len tl).
  { unfold l, len. rewrite length_app. cbn [length]. lia. }
  assert (Hmid : nth (length pre) l 0 = br) by (unfold l; apply nth_middle).
  assert (Hidx : idx = len pre).
  { unfold len in *. destruct (Z.lt_trichotomy idx (Z.of_nat (length pre)))
      as [Hlt|[E|Hgt]]; [|assumption|].
    - specialize (Hhi idx ltac:(lia)).
      pose proof (ascending_nth l Ha (Z.to_nat idx) (length pre) ltac:(lia)). lia.
    - specialize (Hlo (Z.of_nat (length pre)) ltac:(lia)).
      rewrite Nat2Z.id in Hlo. lia. }
  assert (Hc : (idx <? len l) && (nth (Z.to_nat idx) l 0 =? br) = true).
  { rewrite Hidx. unfold len in *. rewrite Nat2Z.id, Hmid, Z.eqb_refl.
    apply andb_true_iff. split; [apply Z.ltb_lt; lia|reflexivity]. }
  rewrite Hc. unfold cut. rewrite Hidx. unfold len, l.
  replace (Z.to_nat (Z.of_nat (length pre) + 1)) with (S (length pre)) by lia.
  rewrite Nat2Z.id.
  rewrite firstn_app, firstn_all, Nat.sub_diag, firstn_0, app_nil_r.
  replace (S (length pre)) with (length (pre ++ [br]))
    by (rewrite length_app; simpl; lia).
  replace (pre ++ br :: tl) with ((pre ++ [br]) ++ tl) by now rewrite <- app_assoc.
  now rewrite skipn_app, skipn_all, Nat.sub_diag.
Qed.

(** and leaves the slice alone when the branch is not in it. *)
Lemma removeBranch_absent l br :
  ascending l -> ~ In br l -> removeBranch l br = l.
Proof.
  intros Ha Hin. unfold removeBranch.
  destruct (removeBranch_search _ br Ha) as (Hr & _). cbv zeta in *.
  set (idx := sort_Search (len l) _) in *.
  destruct (Z.ltb_spec idx (len l)); [|reflexivity].
  destruct (Z.eqb_spec (nth (Z.to_nat idx) l 0) br) as [E|]; [|reflexivity].
  exfalso. apply Hin. rewrite <- E. apply nth_In. unfold len in *. lia.
Qed.

End BinarySearch.


(** ** What [RemoveEndLeaves] leaves of a trie *)

Section Pruned.
Context {V : Type}.
Implicit Types (n r c m : Node V) (key : list byte) (cs : list (Z * Node V)).

(** What the loop of [RemoveEndLeaves] makes of the child [c] under [k]:
  nothing if it is the sentinel leaf dropped before the loop or a node left
  without branches, else the child, pruned unless it had no branches. *)
Definition keepChild (dropped : bool) (k : Z) c : option (Node V) :=
  if dropped && (k =? leafBranch) then None
  else if len (Branches c) =? 0 then Some c
  else if len (Branches (RemoveEndLeaves c)) =? 0 then None
  else Some (RemoveEndLeaves c).

Fixpoint kept (dropped : bool) cs : list (Z * Node V) :=
  match cs with
  | [] => []
  | (k, c) :: cs' =>
      match keepChild dropped k c with
      | Some c' => (k, c') :: kept dropped cs'
      | None => kept dropped cs'
      end
  end.

(** The branches the loop starts from. *)
Definition live (dropped : bool) cs : list Z :=
  if dropped then filter (fun x => negb (x =? leafBranch)) (keys cs) else keys cs.

Lemma pruneLoop_fst d cs : forall bs, fst (pruneLoop d cs bs) = kept d cs.
Proof.
  induction cs as [|[k c] cs IH]; intros bs; [reflexivity|].
  cbn [pruneLoop kept]. unfold keepChild.
  destruct (d && (k =? leafBranch)); [apply IH|].
  destruct (len (Branches c) =? 0).
  - specialize (IH bs). destruct (pruneLoop d cs bs). simpl in *. now rewrite IH.
  - destruct (len (Branches (RemoveEndLeaves c)) =? 0); [apply IH|].
    specialize (IH bs). destruct (pruneLoop d cs bs). simpl in *. now rewrite IH.
Qed.

Lemma ascending_app_l a b : ascending (a ++ b) -> ascending a.
Proof.
  unfold ascending. induction a as [|x a IH]; simpl; intros H; [constructor|].
  apply StronglySorted_inv in H as [Hs Hf]. constructor; [auto|].
  apply Forall_app in Hf. tauto.
Qed.

Lemma ascending_drop_middle pre k tl :
  ascending (pre ++ k :: tl) -> ascending (pre ++ tl).
Proof.
  intros H. rewrite <- (removeBranch_present pre k tl H).
  now apply removeBranch_ascending.
Qed.

Lemma pruneLoop_snd d cs : forall pre,
  ascending (pre ++ live d cs) ->
  snd (pruneLoop d cs (pre ++ live d cs)) = pre ++ keys (kept d cs).
Proof.
  induction cs as [|[k c] cs IH]; intros pre Ha.
  - unfold live. simpl. now destruct d.
  - cbn [pruneLoop kept]. unfold keepChild.
    assert (Hlive : live d ((k, c) :: cs)
                    = if d && (k =? leafBranch) then live d cs else k :: live d cs).
    { unfold live. destruct d; simpl; [|reflexivity]. now destruct (k =? leafBranch). }
    rewrite Hlive in *.
    destruct (d && (k =? leafBranch)); [now apply IH|].
    assert (Hkeep : forall x : Node V,
              snd (let '(rest, bs') := pruneLoop d cs (pre ++ k :: live d cs) in
                   ((k, x) :: rest, bs'))
              = pre ++ keys ((k, x) :: kept d cs)).
    { intros x. specialize (IH (pre ++ [k])). rewrite <- !app_assoc in IH.
      simpl in IH. specialize (IH Ha).
      destruct (pruneLoop d cs (pre ++ k :: live d cs)). simpl in *.
      now rewrite IH. }
    destruct (len (Branches c) =? 0); [apply Hkeep|].
    destruct (len (Branches (RemoveEndLeaves c)) =? 0); [|apply Hkeep].
    rewrite (removeBranch_present _ _ _ Ha). apply IH.
    now apply ascending_drop_middle in Ha.
Qed.

Lemma ascending_lt_all a k tl x :
  ascending (a ++ k :: tl) -> (In x a -> x < k) /\ (In x tl -> k < x).
Proof.
  unfold ascending. induction a as [|y a IH]; simpl; intros H.
  - apply StronglySorted_inv in H as [_ Hf]. rewrite Forall_forall in Hf.
    split; [tauto|auto].
  - apply StronglySorted_inv in H as [Hs Hf]. rewrite Forall_forall in Hf.
    destruct (IH Hs) as [H1 H2]. split; [|assumption].
    intros [<-|Hin]; [|auto]. apply Hf. apply in_or_app. right. now left.
Qed.

Lemma filter_ne_id k l :
  ~ In k l -> filter (fun x => negb (x =? k)) l = l.
Proof.
  induction l as [|y l IH]; simpl; intros H; [reflexivity|].
  destruct (Z.eqb_spec y k); [tauto|]. simpl. f_equal. tauto.
Qed.

(** On an ascending slice [removeBranch] is the removal of the branch. *)
Lemma removeBranch_filter l br :
  ascending l -> removeBranch l br = filter (fun x => negb (x =? br)) l.
Proof.
  intros Ha. destruct (in_dec Z.eq_dec br l) as [Hin|Hout].
  - apply in_split in Hin as (pre & tl & ->).
    destruct (ascending_lt_all _ _ _ br Ha) as [H1 H2].
    rewrite (removeBranch_present _ _ _ Ha), filter_app. simpl.
    rewrite Z.eqb_refl. simpl.
    rewrite !filter_ne_id; [reflexivity| |];
      intros Hx; first [apply H1 in Hx|apply H2 in Hx]; lia.
  - now rewrite removeBranch_absent, filter_ne_id.
Qed.

Lemma ascending_NoDup l : ascending l -> NoDup l.
Proof.
  unfold ascending. induction 1 as [|a l Hs IH Hf]; constructor; [|assumption].
  rewrite Forall_forall in Hf. intros Hin. apply Hf in Hin. lia.
Qed.

(** Pruning keeps [Branches] the list of the children's branches. *)
Lemma RemoveEndLeaves_fields n :
  Branches n = keys (Children n) -> ascending (Branches n) ->
  Children (RemoveEndLeaves n) = kept (endOnlyLeaf (Children n)) (Children n)
  /\ Branches (RemoveEndLeaves n) = keys (Children (RemoveEndLeaves n))
  /\ Step (RemoveEndLeaves n) = Step n /\ Value (RemoveEndLeaves n) = Value n
  /\ isStartLeaf (RemoveEndLeaves n) = isStartLeaf n
  /\ isEndLeaf (RemoveEndLeaves n) = isEndLeaf n.
Proof.
  intros Hk Ha. rewrite RemoveEndLeaves_eq. cbv zeta.
  set (d := endOnlyLeaf (Children n)).
  assert (Hb : (if d then removeBranch (Branches n) leafBranch else Branches n)
               = [] ++ live d (Children n)).
  { unfold live. simpl. destruct d; [|assumption].
    rewrite removeBranch_filter by assumption. now rewrite Hk. }
  rewrite Hb.
  pose proof (pruneLoop_fst d (Children n) ([] ++ live d (Children n))) as H1.
  pose proof (pruneLoop_snd d (Children n) []) as H2.
  rewrite <- Hb in H2 at 1.
  assert (Ha0 : ascending (if d then removeBranch (Branches n) leafBranch
                           else Branches n))
    by (destruct d; [now apply removeBranch_ascending|assumption]).
  specialize (H2 Ha0).
  destruct (pruneLoop d (Children n) ([] ++ live d (Children n))) as [cs' bs'].
  simpl in *. subst. auto 7.
Qed.

Lemma In_kept d cs k x :
  In (k, x) (kept d cs) -> exists c, In (k, c) cs /\ keepChild d k c = Some x.
Proof.
  induction cs as [|[k0 c0] cs IH]; simpl; [tauto|].
  destruct (keepChild d k0 c0) as [c'|] eqn:E.
  - intros [[= <- <-]|Hin]; [eauto|]. destruct (IH Hin) as (c & ? & ?). eauto.
  - intros Hin. destruct (IH Hin) as (c & ? & ?). eauto.
Qed.

Lemma lookup_kept d cs k :
  NoDup (keys cs) ->
  lookup k (kept d cs) =
  match lookup k cs with Some c => keepChild d k c | None => None end.
Proof.
  induction cs as [|[k0 c0] cs IH]; simpl; intros Hnd; [reflexivity|].
  inversion Hnd as [|? ? Hout Hnd']; subst.
  destruct (Z.eqb_spec k0 k) as [->|Hne].
  - destruct (keepChild d k c0) eqn:E; simpl; [now rewrite Z.eqb_refl|].
    rewrite IH by assumption.
    destruct (lookup k cs) eqn:El; [|reflexivity].
    apply lookup_Some_keys in El. contradiction.
  - destruct (keepChild d k0 c0); simpl; [|auto].
    destruct (Z.eqb_spec k0 k); [contradiction|auto].
Qed.

Lemma len_zero {A} (l : list A) : (len l =? 0) = true <-> l = [].
Proof.
  unfold len. destruct l; simpl; split; try reflexivity; try discriminate.
Qed.

(** Pruning keeps the shape of the trie. *)
Lemma RemoveEndLeaves_inner : forall n,
  inner n -> branches_ascending n -> inner (RemoveEndLeaves n).
Proof.
  induction n as [n IH] using Node_induction. intros Hi Ha.
  pose proof (all_nodes_here _ _ Ha) as Hasc. cbn beta in Hasc.
  destruct (RemoveEndLeaves_fields n (inner_keys _ Hi) Hasc)
    as (Hc & Hb & Hs & Hv & Hsl & Hel).
  pose proof (RemoveEndLeaves_ascending n Ha) as Ha'.
  apply all_nodes_here in Ha'. cbn beta in Ha'.
  destruct (RemoveEndLeaves n) as [cs' bs' st' v' s' e'] eqn:E. simpl in *.
  inversion Hi as [cs bs Hk Hnd Hch]; subst. simpl in *.
  apply inner_intro; [reflexivity|now apply ascending_NoDup|].
  intros k x Hin. apply In_kept in Hin as (c & Hin & Hkeep).
  unfold keepChild in Hkeep.
  destruct (endOnlyLeaf cs && (k =? leafBranch)); [discriminate|].
  destruct (Hch _ _ Hin) as [[-> Hl]|(Hk & Hci & Hne)].
  - left. split; [reflexivity|]. destruct Hl as (v & s & e & ->).
    simpl in Hkeep. now injection Hkeep as <-; exists v, s, e.
  - right. split; [assumption|].
    destruct (len (Branches c) =? 0) eqn:E0; [now apply len_zero in E0|].
    destruct (len (Branches (RemoveEndLeaves c)) =? 0) eqn:E1; [discriminate|].
    injection Hkeep as <-. split.
    + apply (IH _ _ Hin Hci). eapply all_nodes_child; eauto.
    + intros E2. apply len_zero in E2. congruence.
Qed.

(** A leaf is an end-only leaf. *)
Definition endOnly (leaf : Node V) : bool :=
  isEndLeaf leaf && negb (isStartLeaf leaf).

(** After pruning, the trie holds the keys whose leaf is not an end-only
  leaf, with the same leaves, and no other key. *)
Lemma RemoveEndLeaves_leaf_at key : forall n,
  inner n -> branches_ascending n ->
  leaf_at (RemoveEndLeaves n) key =
  match leaf_at n key with
  | Some leaf => if endOnly leaf then None else Some leaf
  | None => None
  end.
Proof.
  induction key as [|b rest IH]; intros n Hi Ha;
    pose proof (all_nodes_here _ _ Ha) as Hasc; cbn beta in Hasc;
    destruct (RemoveEndLeaves_fields n (inner_keys _ Hi) Hasc) as (Hc & _);
    pose proof (inner_NoDup _ Hi) as Hnd; rewrite (inner_keys _ Hi) in Hnd.
  - unfold leaf_at. simpl. rewrite Hc, lookup_kept by assumption.
    destruct (lookup leafBranch (Children n)) as [leaf|] eqn:El; [|reflexivity].
    unfold keepChild, endOnlyLeaf. rewrite El, Z.eqb_refl, andb_true_r.
    fold (endOnly leaf). destruct (endOnly leaf); [reflexivity|].
    destruct (inner_lookup_leaf _ _ Hi El) as (v & s & e & ->). reflexivity.
  - rewrite !leaf_at_cons, Hc, lookup_kept by assumption.
    destruct (lookup (int_of_byte b) (Children n)) as [c|] eqn:El; [|reflexivity].
    destruct (inner_lookup_byte _ _ _ Hi El) as [Hci Hcne].
    pose proof (all_nodes_child _ _ _ _ Ha (lookup_In _ _ _ El)) as Hca.
    specialize (IH c Hci Hca). unfold keepChild.
    destruct (Z.eqb_spec (int_of_byte b) leafBranch) as [E|];
      [now apply int_of_byte_not_leaf in E|]. rewrite andb_false_r.
    destruct (len (Branches c) =? 0) eqn:E0; [now apply len_zero in E0|].
    destruct (len (Branches (RemoveEndLeaves c)) =? 0) eqn:E1; [|assumption].
    rewrite <- IH. apply len_zero in E1.
    rewrite (inner_empty _ (RemoveEndLeaves_inner c Hci Hca) E1).
    symmetry. apply leaf_at_newNode.
Qed.

End Pruned.


(** ** The flags of a range trie *)

Section RangeFlags.
Context {V : Type}.
Implicit Types (n r c m root : Node V) (key : list byte).

Lemma markEndLeaf_leaf_at s : forall n k,
  leaf_at (markEndLeaf n s) k =
  if key_eq_dec k s
  then option_map (fun leaf => setIsEndLeaf leaf true) (leaf_at n s)
  else leaf_at n k.
Proof.
  induction s as [|b rest IH]; intros n k; rewrite markEndLeaf_eq.
  - destruct k as [|b' r'].
    + destruct (key_eq_dec [] []); [|congruence].
      unfold leaf_at. simpl. now rewrite lookup_updateChild, Z.eqb_refl.
    + destruct (key_eq_dec (b' :: r') []); [discriminate|].
      rewrite !leaf_at_cons. simpl. rewrite lookup_updateChild.
      destruct (Z.eqb_spec (int_of_byte b') leafBranch) as [E|]; [|reflexivity].
      now apply int_of_byte_not_leaf in E.
  - destruct k as [|b' r'].
    + destruct (key_eq_dec [] (b :: rest)); [discriminate|].
      unfold leaf_at. simpl. rewrite lookup_updateChild.
      destruct (Z.eqb_spec leafBranch (int_of_byte b)) as [E|]; [|reflexivity].
      symmetry in E. now apply int_of_byte_not_leaf in E.
    + rewrite !leaf_at_cons. simpl. rewrite lookup_updateChild.
      destruct (Z.eqb_spec (int_of_byte b') (int_of_byte b)) as [E|Hne].
      * apply int_of_byte_inj in E. subst b'.
        destruct (lookup (int_of_byte b) (Children n)) as [c|]; simpl.
        -- rewrite IH. destruct (key_eq_dec r' rest) as [->|Hr].
           ++ destruct (key_eq_dec (b :: rest) (b :: rest)); [reflexivity|congruence].
           ++ destruct (key_eq_dec (b :: r') (b :: rest)); [congruence|reflexivity].
        -- now destruct (key_eq_dec (b :: r') (b :: rest)).
      * destruct (key_eq_dec (b' :: r') (b :: rest)); [congruence|reflexivity].
Qed.

(** Every leaf is marked as a start or as an end, and a leaf marked as a
  start is the leaf of one of the keys [starts]. *)
Definition flags root (starts : list (list byte)) : Prop :=
  forall k leaf, leaf_at root k = Some leaf ->
    (isStartLeaf leaf = true -> In k starts)
    /\ isStartLeaf leaf || isEndLeaf leaf = true.

Definition has_start root : Prop :=
  exists k leaf, leaf_at root k = Some leaf /\ isStartLeaf leaf = true.

Lemma flags_more root S S' :
  flags root S -> (forall k, In k S -> In k S') -> flags root S'.
Proof. intros H Hs k leaf Hl. destruct (H k leaf Hl). auto. Qed.

Lemma addKV_flags root key (v : V) s e root' S :
  inner root -> flags root S -> addKV root key v s e = inl root' ->
  s || e = true -> (s = true -> In key S) -> flags root' S.
Proof.
  intros Hi Hf Ha Hse Hs k leaf Hl.
  destruct (addKV_leaf_at _ _ _ _ _ _ Hi Ha) as [H1 H2].
  destruct (key_eq_dec k key) as [->|Hne].
  - rewrite H1 in Hl. injection Hl as <-. simpl. auto.
  - rewrite (H2 k Hne) in Hl. exact (Hf k leaf Hl).
Qed.

Lemma addKV_has_start root key (v : V) s e root' :
  inner root -> addKV root key v s e = inl root' ->
  has_start root \/ s = true -> has_start root'.
Proof.
  intros Hi Ha H. destruct (addKV_leaf_at _ _ _ _ _ _ Hi Ha) as [H1 H2].
  destruct H as [(k & leaf & Hl & Hs)| ->].
  - exists k, leaf. split; [|assumption]. rewrite H2; [assumption|].
    intros ->. rewrite addKV_duplicate in Ha; [discriminate|congruence].
  - exists key, (newLeaf v true e). auto.
Qed.

Lemma markEndLeaf_flags root s S :
  flags root S -> flags (markEndLeaf root s) S.
Proof.
  intros Hf k leaf. rewrite markEndLeaf_leaf_at.
  destruct (key_eq_dec k s) as [->|]; [|apply Hf].
  destruct (leaf_at root s) as [l0|] eqn:El; [|discriminate].
  simpl. intros [= <-]. destruct (Hf s l0 El) as [H1 H2]. simpl.
  split; [assumption|]. apply orb_true_r.
Qed.

Lemma markEndLeaf_has_start root s :
  has_start root -> has_start (markEndLeaf root s).
Proof.
  intros (k & leaf & Hl & Hs). destruct (key_eq_dec k s) as [->|Hne].
  - exists s, (setIsEndLeaf leaf true). rewrite markEndLeaf_leaf_at.
    destruct (key_eq_dec s s); [|congruence]. rewrite Hl. auto.
  - exists k, leaf. rewrite markEndLeaf_leaf_at.
    destruct (key_eq_dec k s); [contradiction|auto].
Qed.

Lemma NewRangeTrie_loop_flags starts :
  forall ends (vals : list V) root root' S,
  inner root -> flags root S -> (forall k, In k starts -> In k S) ->
  NewRangeTrie_loop root starts ends vals = (root', None) ->
  inner root' /\ flags root' S
  /\ (has_start root \/ (starts <> [] /\ ends <> [] /\ vals <> []) ->
      has_start root').
Proof.
  induction starts as [|s starts IH]; intros ends vals root root' S Hi Hf HS Hrun.
  - injection Hrun as E; subst root'. split; [|split]; auto.
    intros [?|[? _]]; congruence.
  - destruct ends as [|e ends];
      [injection Hrun as E; subst root'; (split; [|split]); auto;
       intros [?|(_ & ? & _)]; congruence|].
    destruct vals as [|v vals];
      [injection Hrun as E; subst root'; (split; [|split]); auto;
       intros [?|(_ & _ & ?)]; congruence|].
    cbn [NewRangeTrie_loop] in Hrun.
    destruct (addKV root s v true false) as [root1|] eqn:E1; [|discriminate].
    destruct (addKV_inner _ _ _ _ _ _ Hi E1) as [Hi1 _].
    assert (Hf1 : flags root1 S).
    { apply (addKV_flags root s v true false root1 S Hi Hf E1); [reflexivity|].
      intros _. apply HS. now left. }
    assert (Hs1 : has_start root1)
      by (apply (addKV_has_start root s v true false root1 Hi E1); now right).
    assert (Hnext : forall r2, inner r2 -> flags r2 S -> has_start r2 ->
              NewRangeTrie_loop r2 starts ends vals = (root', None) ->
              inner root' /\ flags root' S
              /\ (has_start root
                  \/ (s :: starts <> [] /\ e :: ends <> [] /\ v :: vals <> []) ->
                  has_start root')).
    { intros r2 Hi2 Hf2 Hs2 Hrun2.
      destruct (IH ends vals r2 root' S Hi2 Hf2) as (? & ? & Hh); auto.
      intros; apply HS; now right. }
    destruct (addKV root1 e v false true) as [root2|err] eqn:E2.
    + destruct (addKV_inner _ _ _ _ _ _ Hi1 E2) as [Hi2 _].
      apply (Hnext root2); auto.
      * apply (addKV_flags root1 e v false true root2 S Hi1 Hf1 E2);
          [reflexivity|discriminate].
      * apply (addKV_has_start root1 e v false true root2 Hi1 E2). now left.
    + destruct err; try discriminate.
      apply (Hnext (markEndLeaf root1 s)); auto.
      * now apply markEndLeaf_inner.
      * now apply markEndLeaf_flags.
      * now apply markEndLeaf_has_start.
Qed.

Lemma leaf_at_branches n key :
  inner n -> leaf_at n key <> None -> Branches n <> [].
Proof.
  intros Hi H E. rewrite (inner_empty _ Hi E), leaf_at_newNode in H. congruence.
Qed.

End RangeFlags.


(** ** [Squash] and [Search] *)

Section SquashSearch.
Context {V : Type}.
Implicit Types (n r c d e m : Node V) (key : list byte).

(** The end of [Search]: the values of the tracked nodes. *)
Definition finish (t : option (Tracked V))
  : option (option V * option V * option V) :=
  match t with
  | None => None
  | Some (ltNode, eqNode, gtNode) =>
      match resolve rightMost ltNode with
      | None => None
      | Some ltValue =>
          match resolve leftMost gtNode with
          | None => None
          | Some gtValue =>
              Some (ltValue,
                    match eqNode with None => None | Some n => Value n end,
                    gtValue)
          end
      end
  end.

Lemma Search_finish r key : Search r key = finish (descend r key 0 None None).
Proof.
  unfold Search, finish. destruct (descend r key 0 None None) as [[[? ?] ?]|];
    reflexivity.
Qed.

(** Candidates that resolve to the same value. *)
Definition ltEq (x y : option (Node V)) : Prop :=
  resolve rightMost x = resolve rightMost y.

Definition gtEq (x y : option (Node V)) : Prop :=
  resolve leftMost x = resolve leftMost y.

Lemma finish_eq lt1 gt1 lt2 gt2 eqNode :
  ltEq lt1 lt2 -> gtEq gt1 gt2 ->
  finish (Some (lt1, eqNode, gt1)) = finish (Some (lt2, eqNode, gt2)).
Proof. unfold ltEq, gtEq, finish. now intros -> ->. Qed.

Lemma descend_setStep n s key i ltNode gtNode :
  descend (setStep n s) key i ltNode gtNode = descend n key i ltNode gtNode.
Proof. now rewrite !descend_eq. Qed.

Lemma rightMost_setStep n s :
  option_map Value (rightMost (setStep n s)) = option_map Value (rightMost n).
Proof.
  rewrite !rightMost_eq. simpl. now destruct (Branches n).
Qed.

Lemma leftMost_setStep n s :
  option_map Value (leftMost (setStep n s)) = option_map Value (leftMost n).
Proof.
  rewrite !leftMost_eq. simpl. now destruct (Branches n).
Qed.

Lemma traverse_lookup_Some (f : Node V -> option (Node V)) cs cs' k c :
  traverse f cs = Some cs' -> lookup k cs = Some c ->
  exists c2, f c = Some c2 /\ lookup k cs' = Some c2.
Proof.
  intros Et El. pose proof (traverse_lookup f cs cs' k Et) as Hl.
  rewrite El in Hl. destruct (f c) as [c2|] eqn:Ef; [eauto|].
  exfalso. apply lookup_None in Hl. apply Hl.
  rewrite (traverse_keys _ _ _ Et). eapply lookup_Some_keys; eauto.
Qed.

(** Squashing does not change the leaves at the two ends of a subtree. *)
Lemma squash_extremes : forall n,
  (forall n', Squash n = Some n' ->
     option_map Value (rightMost n') = option_map Value (rightMost n)
     /\ option_map Value (leftMost n') = option_map Value (leftMost n))
  /\ (forall n2, squashChild n = Some n2 ->
        option_map Value (rightMost n2) = option_map Value (rightMost n)
        /\ option_map Value (leftMost n2) = option_map Value (leftMost n)).
Proof.
  induction n as [n IH] using Node_induction.
  assert (HP : forall n', Squash n = Some n' ->
     option_map Value (rightMost n') = option_map Value (rightMost n)
     /\ option_map Value (leftMost n') = option_map Value (leftMost n)).
  { intros n'. rewrite Squash_eq.
    destruct (traverse squashChild (Children n)) as [cs'|] eqn:Et; [|discriminate].
    intros [= <-]. rewrite !rightMost_eq, !leftMost_eq. simpl.
    destruct (Branches n) as [|b0 bs]; [auto|]. split.
    - destruct (lookup (last bs b0) (Children n)) as [c|] eqn:El.
      + destruct (traverse_lookup_Some _ _ _ _ _ Et El) as (c2 & Ec & ->).
        apply (IH _ _ (lookup_In _ _ _ El)). assumption.
      + now rewrite (traverse_lookup _ _ _ (last bs b0) Et), El.
    - destruct (lookup b0 (Children n)) as [c|] eqn:El.
      + destruct (traverse_lookup_Some _ _ _ _ _ Et El) as (c2 & Ec & ->).
        apply (IH _ _ (lookup_In _ _ _ El)). assumption.
      + now rewrite (traverse_lookup _ _ _ b0 Et), El. }
  split; [assumption|].
  intros n2. unfold squashChild. destruct (Squash n) as [n'|] eqn:Es; [|discriminate].
  intros Hp. destruct (HP n' eq_refl) as [Hr Hl]. rewrite <- Hr, <- Hl.
  destruct (promote_cases _ _ Hp) as [-> | (b & child & Eb & _ & Ec & ->)];
    [auto|].
  rewrite rightMost_setStep, leftMost_setStep.
  rewrite (rightMost_eq n'), (leftMost_eq n'), Eb. simpl. now rewrite Ec.
Qed.

(** No path below [n] has more than [D] bytes. *)
Inductive depth_le : Node V -> Z -> Prop :=
| depth_le_intro n D :
    0 <= D ->
    (forall k c, In (k, c) (Children n) -> k <> leafBranch -> depth_le c (D - 1)) ->
    depth_le n D.

Lemma depth_le_grow key leaf : forall D,
  Children leaf = [] -> len key <= D -> depth_le (grow newNode key leaf) D.
Proof.
  unfold len. induction key as [|b rest IH]; intros D Hleaf HD; simpl in *.
  - constructor; [lia|]. intros k c [[= <- <-]|[]] Hk. congruence.
  - constructor; [lia|]. intros k c [[= <- <-]|[]] _. apply IH; [assumption|lia].
Qed.

Lemma addKV_depth key : forall n (v : V) sl el n' D,
  depth_le n D -> len key <= D -> addKV n key v sl el = inl n' -> depth_le n' D.
Proof.
  unfold len. induction key as [|b rest IH]; intros n v sl el n' D Hd HD; cbn [addKV].
  - destruct (lookup leafBranch (Children n)); [discriminate|].
    destruct (negb _); [discriminate|]. intros [= <-]. simpl.
    destruct Hd as [n D H0 Hch]. constructor; [assumption|]. simpl.
    intros k c Hin Hk. apply In_assign in Hin as [[-> _]|Hin]; [congruence|eauto].
  - simpl in HD. destruct Hd as [n D H0 Hch].
    destruct (lookup (int_of_byte b) (Children n)) as [child|] eqn:El.
    + destruct (addKV child rest v sl el) as [child'|] eqn:Ea; [|discriminate].
      intros [= <-]. constructor; [assumption|]. simpl.
      intros k c Hin Hk. apply In_assign in Hin as [[-> ->]|Hin]; [|eauto].
      apply (IH child v sl el); [|lia|assumption].
      apply (Hch _ _ (lookup_In _ _ _ El)). apply int_of_byte_not_leaf.
    + intros [= <-]. cbn [grow]. constructor; [assumption|]. simpl.
      intros k c Hin Hk. apply In_assign in Hin as [[-> ->]|Hin]; [|eauto].
      apply depth_le_grow; [reflexivity|unfold len; lia].
Qed.

Lemma New_loop_depth keys : forall (vals : list V) root root' err D,
  depth_le root D -> Forall (fun k => len k <= D) keys ->
  New_loop root keys vals = (root', err) -> depth_le root' D.
Proof.
  induction keys as [|key keys IH]; intros vals root root' err D Hd Hk Hrun.
  - destruct vals; now injection Hrun as <- <-.
  - destruct vals as [|v vals]; [now injection Hrun as <- <-|].
    cbn [New_loop] in Hrun. inversion Hk; subst.
    destruct (addKV root key v false false) as [root1|] eqn:Ea.
    + eapply IH; [|eassumption|eassumption]. eapply addKV_depth; eauto.
    + now injection Hrun as <- <-.
Qed.

End SquashSearch.


Section SquashPreserves.
Context {V : Type}.
Implicit Types (n r c d e m : Node V) (key : list byte).

Lemma inner_Step n : inner n -> Step n = 1.
Proof. intros H. now inversion H. Qed.

Lemma neighborBranches_single b : neighborBranches [b] b = (-1, -1).
Proof.
  unfold neighborBranches, scan. destruct (b >=? b); now rewrite Z.eqb_refl.
Qed.

(** The candidates a node and its squashed copy pick at the same index
  resolve to the same values. *)
Lemma candidate_squash d cs' idx old2 old :
  traverse squashChild (Children d) = Some cs' ->
  (candidate (setChildren d cs') idx old2 = None /\ candidate d idx old = None)
  \/ exists a b,
       candidate (setChildren d cs') idx old2 = Some a
       /\ candidate d idx old = Some b
       /\ (ltEq old2 old -> ltEq a b) /\ (gtEq old2 old -> gtEq a b).
Proof.
  intros Et. unfold candidate. simpl. destruct (idx >=? 0).
  - destruct (index (Branches d) idx) as [b0|]; [|now left]. right.
    exists (lookup b0 cs'), (lookup b0 (Children d)).
    split; [reflexivity|]. split; [reflexivity|].
    destruct (lookup b0 (Children d)) as [c|] eqn:El.
    + destruct (traverse_lookup_Some _ _ _ _ _ Et El) as (c2 & Ec & ->).
      destruct (squash_extremes c) as [_ Hx]. destruct (Hx c2 Ec) as [Hr Hl].
      split; intros _; [exact Hr|exact Hl].
    + rewrite (traverse_lookup _ _ _ b0 Et), El. split; reflexivity.
  - right. exists old2, old. auto.
Qed.

(** What squashing keeps for a child [e] entered at position [q] of the
  unsquashed trie, on the path of a key the trie holds: the squashed child
  is entered where its own node was, and the search ends the same. *)
Definition child_kept e : Prop :=
  forall e2 key q D lt gt lt2 gt2,
    inner e -> Branches e <> [] -> squashChild e = Some e2 ->
    1 <= q <= len key -> leaf_at e (skipn (Z.to_nat q) key) <> None ->
    depth_le e D -> D + 1 < 65536 ->
    ltEq lt2 lt -> gtEq gt2 gt ->
    1 <= Step e2 <= D + 1 /\ q - 1 + Step e2 <= len key
    /\ finish (descend e2 key (q - 1 + Step e2) lt2 gt2)
       = finish (descend e key q lt gt).

Definition node_kept d : Prop :=
  forall d' key i D lt gt lt2 gt2,
    inner d -> Squash d = Some d' ->
    0 <= i <= len key -> leaf_at d (skipn (Z.to_nat i) key) <> None ->
    depth_le d D -> D < 65536 ->
    ltEq lt2 lt -> gtEq gt2 gt ->
    finish (descend d' key i lt2 gt2) = finish (descend d key i lt gt).

Lemma depth_le_child d D k c :
  depth_le d D -> In (k, c) (Children d) -> k <> leafBranch -> depth_le c (D - 1).
Proof. intros H. inversion H; subst. eauto. Qed.

Lemma depth_le_nonneg d D : depth_le d D -> 0 <= D.
Proof. intros H. now inversion H. Qed.

Lemma node_kept_step d :
  (forall k e, In (k, e) (Children d) -> child_kept e) -> node_kept d.
Proof.
  intros IH d' key i D lt gt lt2 gt2 Hi Hs Hr Hleaf Hd HD Hlt Hgt.
  rewrite Squash_eq in Hs.
  destruct (traverse squashChild (Children d)) as [cs'|] eqn:Et; [|discriminate].
  injection Hs as <-. rewrite !descend_eq.
  pose proof (skipn_index key i Hr) as Hsk.
  destruct (branchAt key i) as [br|] eqn:Ebr; [|reflexivity].
  change (Branches (setChildren d cs')) with (Branches d).
  change (Children (setChildren d cs')) with cs'.
  destruct (neighborBranches (Branches d) br) as [li ri].
  destruct (candidate_squash d cs' li lt2 lt Et)
    as [[-> ->]|(a & b & -> & -> & Hab & _)]; [reflexivity|].
  specialize (Hab Hlt).
  destruct (candidate_squash d cs' ri gt2 gt Et)
    as [[-> ->]|(a' & b' & -> & -> & _ & Hab')]; [reflexivity|].
  specialize (Hab' Hgt).
  destruct (lookup br (Children d)) as [e|] eqn:El.
  - destruct (traverse_lookup_Some _ _ _ _ _ Et El) as (e2 & Ee & ->).
    unfold advance. destruct (Z.eqb_spec br leafBranch) as [Eb|Nb].
    + subst br. pose proof (inner_lookup_leaf _ _ Hi El) as Hlf.
      unfold squashChild in Ee.
      rewrite (Squash_leaf _ Hlf), (promote_leaf _ Hlf) in Ee.
      injection Ee as <-. now apply finish_eq.
    + unfold branchAt in Ebr.
      destruct (Z.eqb_spec (len key) i) as [E|Ne];
        [injection Ebr as <-; congruence|].
      destruct (skipn (Z.to_nat i) key) as [|b0 rest] eqn:Esk; [lia|].
      destruct Hsk as (Hidx & Hrest & Hlen). rewrite Hidx in Ebr.
      injection Ebr as <-. rewrite leaf_at_cons, El in Hleaf.
      destruct (inner_lookup_byte _ _ _ Hi El) as [Hie Hne].
      destruct (IH _ _ (lookup_In _ _ _ El) e2 key (i + 1) (D - 1) b b' a a')
        as (Hs1 & Hs2 & Hfin); try assumption; try lia.
      { now rewrite Hrest. }
      { eapply depth_le_child; eauto using lookup_In. }
      rewrite (inner_Step _ Hie).
      replace (i + 1 - 1 + Step e2) with (i + Step e2) in * by lia.
      destruct (Z.gtb_spec (i + Step e2) (len key)); [lia|].
      destruct (Z.gtb_spec (i + 1) (len key)); [lia|]. exact Hfin.
  - rewrite (traverse_lookup _ _ _ br Et), El. unfold advance.
    now apply finish_eq.
Qed.

Lemma child_kept_all : forall e, child_kept e.
Proof.
  induction e as [e IH] using Node_induction.
  intros e2 key q D lt gt lt2 gt2 Hi Hne Hsq Hq Hleaf Hd HD Hlt Hgt.
  pose proof (depth_le_nonneg _ _ Hd) as HD0.
  unfold squashChild in Hsq. destruct (Squash e) as [e'|] eqn:Es; [|discriminate].
  destruct (Squash_fields _ _ Es) as (Eb & _ & Est & _).
  destruct (promote_cases _ _ Hsq) as [-> | (b & child & Eb' & Nb & Ec & ->)].
  - rewrite Est, (inner_Step _ Hi).
    split; [lia|]. split; [lia|].
    replace (q - 1 + 1) with q by lia.
    apply (node_kept_step e IH e' key q D); try assumption; lia.
  - rewrite Eb in Eb'. pose proof Es as Es'. rewrite Squash_eq in Es'.
    destruct (traverse squashChild (Children e)) as [cs'|] eqn:Et; [|discriminate].
    injection Es' as <-. simpl in Ec.
    pose proof (traverse_lookup _ _ _ b Et) as Hl. rewrite Ec in Hl.
    destruct (lookup b (Children e)) as [f|] eqn:Ef; [|discriminate].
    symmetry in Hl.
    assert (Hkeys : keys (Children e) = [b])
      by now rewrite <- (inner_keys _ Hi).
    pose proof (skipn_index key q ltac:(lia)) as Hsk.
    destruct (skipn (Z.to_nat q) key) as [|b0 rest] eqn:Esk.
    { exfalso. apply Hleaf. unfold leaf_at. simpl. apply lookup_None.
      rewrite Hkeys. intros [E|[]]. congruence. }
    destruct Hsk as (Hidx & Hrest & Hlen). rewrite leaf_at_cons in Hleaf.
    destruct (lookup (int_of_byte b0) (Children e)) as [f'|] eqn:Ef';
      [|congruence].
    assert (Hb0 : int_of_byte b0 = b).
    { pose proof (lookup_Some_keys _ _ _ Ef') as Hin. rewrite Hkeys in Hin.
      destruct Hin as [E|[]]. now symmetry. }
    rewrite Hb0, Ef in Ef'. injection Ef' as <-.
    assert (Hif : inner f /\ Branches f <> []).
    { apply (inner_lookup_byte e b0). assumption. now rewrite Hb0. }
    destruct Hif as [Hif Hnf].
    destruct (IH _ _ (lookup_In _ _ _ Ef) child key (q + 1) (D - 1) lt gt lt2 gt2)
      as (Hs1 & Hs2 & Hfin); try assumption; try lia.
    { now rewrite Hrest. }
    { eapply depth_le_child; eauto using lookup_In. }
    assert (Hstep : Step (setStep child (uint16_add (Step child) 1)) = Step child + 1).
    { simpl. unfold uint16_add. apply Z.mod_small. lia. }
    rewrite Hstep. split; [lia|]. split; [lia|].
    rewrite descend_setStep.
    replace (q - 1 + (Step child + 1)) with (q + 1 - 1 + Step child) by lia.
    rewrite Hfin. rewrite (descend_eq e), (branchAt_byte _ _ _ Hidx), Eb', Hb0.
    rewrite neighborBranches_single. unfold candidate. simpl.
    rewrite Ef. unfold advance.
    destruct (Z.eqb_spec b leafBranch); [congruence|].
    rewrite (inner_Step _ Hif).
    destruct (Z.gtb_spec (q + 1) (len key)); [lia|reflexivity].
Qed.

(** Squashing a trie of keys shorter than 65536 bytes does not change
  what [Search] returns for a key the trie holds. *)
Lemma Squash_Search_held (root squashed : Node V) key D :
  inner root -> depth_le root D -> D < 65536 ->
  leaf_at root key <> None ->
  Squash root = Some squashed ->
  Search squashed key = Search root key.
Proof.
  intros Hi Hd HD Hleaf Hs. rewrite !Search_finish.
  apply (node_kept_step root (fun k e _ => child_kept_all e)
           squashed key 0 D); try assumption; try reflexivity.
  unfold len. lia.
Qed.

Lemma depth_le_newNode D : 0 <= D -> depth_le (@newNode V) D.
Proof. intros H. constructor; [assumption|]. intros k c []. Qed.

Lemma New_depth keys (vals : list V) root D :
  0 <= D -> Forall (fun k => len k <= D) keys ->
  New keys (Slice vals) = (Some root, None) -> depth_le root D.
Proof.
  intros HD Hk. unfold New. simpl. destruct (negb _); [discriminate|].
  destruct (New_loop newNode keys vals) as [r e] eqn:E. intros [= -> ->].
  eapply New_loop_depth; [apply depth_le_newNode| |]; eauto.
Qed.

End SquashPreserves.

(** ** Tries a constructor returned, and their shape after [Squash] *)

Section BuiltTries.
Context {V : Type}.
Implicit Types (n m c root : Node V).

(** A trie a constructor returned without error. *)
Definition built root : Prop :=
  (exists keys values, New keys values = (Some root, None))
  \/ (exists starts ends values,
         NewRangeTrie starts ends values = (Some root, None)).

Lemma built_inner root : built root -> inner root.
Proof.
  intros [(keys & values & Hn)|(starts & ends & values & Hn)].
  - unfold New in Hn. destruct values as [|vals]; [discriminate|].
    apply (New_holds keys vals root Hn).
  - unfold NewRangeTrie in Hn.
    destruct (negb (len starts =? len ends)); [discriminate|].
    destruct (toSlice values) as [vals|]; [|discriminate].
    destruct (negb (len starts =? len vals)); [discriminate|].
    destruct (NewRangeTrie_loop newNode starts ends vals) as [r e] eqn:E.
    injection Hn as -> ->.
    destruct (NewRangeTrie_loop_flags starts ends vals newNode root starts)
      as (Hi & _); auto using inner_newNode.
    intros k leaf Hl. now rewrite leaf_at_newNode in Hl.
Qed.

End BuiltTries.

Section SquashedShape.
Context {V : Type}.
Implicit Types (n m c root : Node V) (key : list byte).

(** The shape [Squash] keeps: one entry of [Branches] per child, a leaf
  under the sentinel, and under a byte a node that has a branch; the steps
  are no longer 1. *)
Inductive shape : Node V -> Prop :=
| shape_intro n :
    Branches n = keys (Children n) -> 0 <= Step n ->
    (forall b c, In (b, c) (Children n) ->
       (b = leafBranch /\ is_leaf c)
       \/ (b <> leafBranch /\ shape c /\ Branches c <> [])) ->
    shape n.

Lemma shape_children n b c :
  shape n -> In (b, c) (Children n) ->
  (b = leafBranch /\ is_leaf c)
  \/ (b <> leafBranch /\ shape c /\ Branches c <> []).
Proof. intros H. inversion H; subst. auto. Qed.

Lemma shape_keys n : shape n -> Branches n = keys (Children n).
Proof. intros H. now inversion H. Qed.

Lemma shape_Step n : shape n -> 0 <= Step n.
Proof. intros H. now inversion H. Qed.

Lemma inner_shape : forall n, inner n -> shape n.
Proof.
  induction n as [n IH] using Node_induction. intros Hi.
  constructor; [now apply inner_keys|rewrite (inner_Step _ Hi); lia|].
  intros b c Hin. destruct (inner_children _ _ _ Hi Hin) as [?|(Hb & Hic & Hnc)];
    [now left|right].
  split; [unfold leafBranch; lia|]. split; [eapply IH; eauto|assumption].
Qed.

Lemma shape_squashed : forall n, shape n ->
  (forall n', Squash n = Some n' -> shape n')
  /\ (Branches n <> [] -> forall m, squashChild n = Some m ->
        shape m /\ Branches m <> []).
Proof.
  induction n as [n IH] using Node_induction. intros Hs.
  assert (HS : forall n', Squash n = Some n' -> shape n').
  { intros n'. rewrite Squash_eq.
    destruct (traverse squashChild (Children n)) as [cs'|] eqn:Et; [|discriminate].
    intros [= <-]. constructor; simpl.
    - rewrite (traverse_keys _ _ _ Et). now apply shape_keys.
    - now apply shape_Step.
    - intros b c' Hin. destruct (traverse_In _ _ _ _ _ Et Hin) as (c & Hc & Hsq).
      destruct (shape_children _ _ _ Hs Hc) as [[-> Hl]|(Hb & Hsc & Hnc)].
      + left. split; [reflexivity|]. unfold squashChild in Hsq.
        rewrite (Squash_leaf _ Hl), (promote_leaf _ Hl) in Hsq.
        now injection Hsq as <-.
      + right. split; [assumption|].
        destruct (IH _ _ Hc Hsc) as [_ H]. now apply H. }
  split; [assumption|]. intros Hne m Hm. unfold squashChild in Hm.
  destruct (Squash n) as [n'|] eqn:Es; [|discriminate].
  pose proof (HS n' eq_refl) as Hs'.
  destruct (Squash_fields _ _ Es) as (Eb & _).
  destruct (promote_cases _ _ Hm) as [-> | (b & child & Eb' & Nb & Ec & ->)].
  - split; [assumption|]. now rewrite Eb.
  - destruct (shape_children _ _ _ Hs' (lookup_In _ _ _ Ec))
      as [[? _]|(_ & Hsc & Hnc)]; [contradiction|].
    split; [|assumption]. constructor; simpl.
    + now apply shape_keys.
    + unfold uint16_add. apply Z.mod_pos_bound. lia.
    + intros b' c' Hin. now apply (shape_children child).
Qed.

(** [leftMost] and [rightMost] return from [x], if it is a node. *)
Definition ends_found (x : option (Node V)) : Prop :=
  match x with
  | None => True
  | Some m => rightMost m <> None /\ leftMost m <> None
  end.

Lemma leaf_ends c : is_leaf c -> ends_found (Some c).
Proof. intros (v & s & e & ->). split; discriminate. Qed.

Lemma shape_ends : forall n, shape n -> ends_found (Some n).
Proof.
  induction n as [n IH] using Node_induction. intros Hs. simpl.
  rewrite rightMost_eq, leftMost_eq.
  destruct (Branches n) as [|b0 bs] eqn:Eb; [split; discriminate|].
  assert (Hchild : forall b, In b (b0 :: bs) ->
            exists c, lookup b (Children n) = Some c /\ ends_found (Some c)).
  { intros b Hb. rewrite <- Eb, (shape_keys _ Hs) in Hb.
    destruct (In_keys_lookup _ _ Hb) as (c & Hc). exists c. split; [assumption|].
    pose proof (lookup_In _ _ _ Hc) as Hin.
    destruct (shape_children _ _ _ Hs Hin) as [[_ Hl]|(_ & Hsc & _)].
    - now apply leaf_ends.
    - eapply IH; eauto. }
  split.
  - destruct (Hchild (last bs b0) (last_In bs b0)) as (c & -> & Hr & _). exact Hr.
  - destruct (Hchild b0 ltac:(now left)) as (c & -> & _ & Hl). exact Hl.
Qed.

Lemma candidate_ends n idx old :
  shape n -> (idx = -1 \/ 0 <= idx < len (Branches n)) -> ends_found old ->
  exists x, candidate n idx old = Some x /\ ends_found x.
Proof.
  intros Hs Hidx Hold. unfold candidate.
  destruct (Z.geb_spec idx 0); [|eauto].
  destruct Hidx as [->|Hr]; [lia|].
  unfold index. destruct (Z.ltb_spec idx 0); [lia|].
  destruct (nth_error (Branches n) (Z.to_nat idx)) as [b|] eqn:En.
  - exists (lookup b (Children n)). split; [reflexivity|].
    destruct (lookup b (Children n)) as [c|] eqn:Ec; [|exact I].
    destruct (shape_children _ _ _ Hs (lookup_In _ _ _ Ec)) as [[_ Hl]|(_ & Hsc & _)].
    + now apply leaf_ends.
    + now apply shape_ends.
  - apply nth_error_None in En. unfold len in Hr. lia.
Qed.

(** The loop of [Search] returns in a trie of this shape. *)
Lemma descend_shape : forall n key i ltNode gtNode,
  shape n -> Branches n <> [] -> 0 <= i <= len key ->
  ends_found ltNode -> ends_found gtNode ->
  exists ltNode' eqNode' gtNode',
    descend n key i ltNode gtNode = Some (ltNode', eqNode', gtNode')
    /\ ends_found ltNode' /\ ends_found gtNode'.
Proof.
  induction n as [n IH] using Node_induction.
  intros key i ltNode gtNode Hs Hne Hr Hlt Hgt.
  rewrite descend_eq. pose proof (skipn_index key i Hr) as Hsk.
  assert (Hbr : exists br, branchAt key i = Some br).
  { unfold branchAt. destruct (skipn (Z.to_nat i) key) as [|b rest].
    - subst i. rewrite Z.eqb_refl. eauto.
    - destruct Hsk as (Hb & _ & Hl). destruct (Z.eqb_spec (len key) i); [lia|].
      rewrite Hb. simpl. eauto. }
  destruct Hbr as (br & ->).
  destruct (neighborBranches (Branches n) br) as [li ri] eqn:En.
  destruct (neighborBranches_range _ _ _ _ Hne En) as [Hli Hri].
  destruct (candidate_ends n li ltNode Hs Hli Hlt) as (lt' & -> & Hlt').
  destruct (candidate_ends n ri gtNode Hs Hri Hgt) as (gt' & -> & Hgt').
  unfold advance.
  destruct (lookup br (Children n)) as [c|] eqn:Ec; [|eauto 6].
  destruct (Z.eqb_spec br leafBranch) as [E|Nb]; [eauto 6|].
  destruct (shape_children _ _ _ Hs (lookup_In _ _ _ Ec)) as [[? _]|(_ & Hsc & Hnc)];
    [contradiction|].
  pose proof (shape_Step _ Hsc) as Hst.
  destruct (Z.gtb_spec (i + Step c) (len key)).
  - exists lt', None, (Some c). split; [reflexivity|]. split; [assumption|].
    now apply shape_ends.
  - apply (IH _ _ (lookup_In _ _ _ Ec)); auto. lia.
Qed.

End SquashedShape.


(** ** A key that ends inside a compressed edge *)

Section Overshoot.
Context {V : Type}.
Implicit Types (n m c root leaf : Node V) (key : list byte).

(** The leftmost leaf of the subtree of a node: the node that has no branch
  at the end of the path of first branches. *)
Inductive first_leaf : Node V -> Node V -> Prop :=
| first_leaf_here n : Branches n = [] -> first_leaf n n
| first_leaf_down n b bs c leaf :
    Branches n = b :: bs -> lookup b (Children n) = Some c ->
    first_leaf c leaf -> first_leaf n leaf.

(** From the node [n], reached at position [i] of the key, the bytes of the
  key lead down, each edge taking the step of the child it enters, to the
  node [c], whose edge passes the end of the key. *)
Inductive overshoots key : Node V -> Z -> Node V -> Prop :=
| overshoots_here n i b c :
    index key i = Some b ->
    lookup (int_of_byte b) (Children n) = Some c ->
    i + Step c > len key ->
    overshoots key n i c
| overshoots_down n i b m c :
    index key i = Some b ->
    lookup (int_of_byte b) (Children n) = Some m ->
    i + Step m <= len key ->
    overshoots key m (i + Step m) c ->
    overshoots key n i c.

Lemma shape_first_leaf : forall n,
  shape n -> Branches n <> [] ->
  exists leaf, leftMost n = Some leaf /\ first_leaf n leaf /\ is_leaf leaf.
Proof.
  induction n as [n IH] using Node_induction. intros Hs Hne.
  destruct (Branches n) as [|b0 bs] eqn:Eb; [congruence|].
  assert (Hin : In b0 (keys (Children n))).
  { rewrite <- (shape_keys _ Hs), Eb. now left. }
  destruct (In_keys_lookup _ _ Hin) as (c & Hc).
  rewrite leftMost_eq, Eb, Hc.
  destruct (shape_children _ _ _ Hs (lookup_In _ _ _ Hc)) as [[_ Hl]|(_ & Hsc & Hnc)].
  - exists c. split; [|split; [|assumption]].
    + destruct Hl as (v & s & e & ->). reflexivity.
    + apply (first_leaf_down n b0 bs c c Eb Hc). apply first_leaf_here.
      destruct Hl as (v & s & e & ->). reflexivity.
  - destruct (IH _ _ (lookup_In _ _ _ Hc) Hsc Hnc) as (leaf & Hl & Hf & Hleaf).
    exists leaf. split; [assumption|]. split; [|assumption].
    apply (first_leaf_down n b0 bs c leaf Eb Hc Hf).
Qed.

Lemma shape_child_branches n b c :
  shape n -> lookup b (Children n) = Some c -> Branches n <> [].
Proof.
  intros Hs Hc. rewrite (shape_keys _ Hs).
  apply lookup_Some_keys in Hc. intros E. now rewrite E in Hc.
Qed.

(** The loop of [Search] in a trie of the shape [Squash] keeps: on such a
  path it ends with no exact node and with [c] as the candidate on the
  right. *)
Lemma descend_overshoots key n i c :
  overshoots key n i c ->
  forall ltNode gtNode,
  shape n -> 0 <= i ->
  ends_found ltNode -> ends_found gtNode ->
  exists ltNode',
    descend n key i ltNode gtNode = Some (ltNode', None, Some c)
    /\ ends_found ltNode' /\ shape c /\ Branches c <> [].
Proof.
  induction 1 as [n i b c Hb Hc Hover|n i b m c Hb Hc Hle Hrest IH];
    intros ltNode gtNode Hs Hi Hlt Hgt.
  - pose proof (shape_child_branches _ _ _ Hs Hc) as Hne.
    rewrite descend_eq, (branchAt_byte _ _ _ Hb).
    destruct (neighborBranches (Branches n) (int_of_byte b)) as [li ri] eqn:En.
    destruct (neighborBranches_range _ _ _ _ Hne En) as [Hli Hri].
    destruct (candidate_ends n li ltNode Hs Hli Hlt) as (lt' & -> & Hlt').
    destruct (candidate_ends n ri gtNode Hs Hri Hgt) as (gt' & -> & Hgt').
    rewrite Hc. unfold advance.
    destruct (Z.eqb_spec (int_of_byte b) leafBranch) as [E|_];
      [now apply int_of_byte_not_leaf in E|].
    destruct (Z.gtb_spec (i + Step c) (len key)); [|lia].
    exists lt'. split; [reflexivity|]. split; [assumption|].
    destruct (shape_children _ _ _ Hs (lookup_In _ _ _ Hc)) as [[E _]|(_ & ? & ?)];
      [now apply int_of_byte_not_leaf in E|auto].
  - pose proof (shape_child_branches _ _ _ Hs Hc) as Hne.
    rewrite descend_eq, (branchAt_byte _ _ _ Hb).
    destruct (neighborBranches (Branches n) (int_of_byte b)) as [li ri] eqn:En.
    destruct (neighborBranches_range _ _ _ _ Hne En) as [Hli Hri].
    destruct (candidate_ends n li ltNode Hs Hli Hlt) as (lt' & -> & Hlt').
    destruct (candidate_ends n ri gtNode Hs Hri Hgt) as (gt' & -> & Hgt').
    rewrite Hc. unfold advance.
    destruct (Z.eqb_spec (int_of_byte b) leafBranch) as [E|_];
      [now apply int_of_byte_not_leaf in E|].
    destruct (Z.gtb_spec (i + Step m) (len key)); [lia|].
    destruct (shape_children _ _ _ Hs (lookup_In _ _ _ Hc)) as [[E _]|(_ & Hsm & _)];
      [now apply int_of_byte_not_leaf in E|].
    pose proof (shape_Step _ Hsm).
    apply IH; auto. lia.
Qed.

End Overshoot.

End TrieFacts.

(** * The claims about package trie *)

Module TrieClaims.
Import Trie GoMap GoMapFacts TrieFacts.

(** ** Concrete tries *)

Definition byte_of (n : N) : byte :=
  match Byte.of_N n with Some b => b | None => x00 end.

Definition key_of (l : list N) : list byte := map byte_of l.

(** The root a constructor returned, [newNode] standing in for nil. *)
Definition root_of {V : Type} (r : option (Node V) * option GoError) : Node V :=
  match fst r with Some root => root | None => newNode end.

(** The six single-byte keys 10, 20, ..., 60, each mapped to itself. *)
Definition six_keys : list (list byte) :=
  map (fun n => key_of [n]) [10; 20; 30; 40; 50; 60]%N.

Definition six_values : list Z := [10; 20; 30; 40; 50; 60].

Definition six : Node Z := root_of (New six_keys (Slice six_values)).

(** ** C8: the branches ascend *)

(** A trie that a constructor returned without error for ascending input:
  [New] on strictly ascending keys, or [NewRangeTrie] on ranges whose
  boundaries ascend. *)
Definition built_ascending {V : Type} (root : Node V) : Prop :=
  (exists keys values,
      strictly_ascending keys = true /\ New keys values = (Some root, None))
  \/ (exists starts ends values,
         bounds_ascending starts ends = true
         /\ NewRangeTrie starts ends values = (Some root, None)).

(** C8. In every trie that [New] or [NewRangeTrie] returned without error
  for ascending keys, [Branches] is numerically ascending in every node
  (the sentinel -1 lying below every byte value); [Squash] returns such a
  trie again, and so does [RemoveEndLeaves], before or after [Squash]; both
  keep the ordering of any trie that has it. *)
Theorem branches_stay_ascending (V : Type) (root : Node V) :
  built_ascending root ->
  branches_ascending root
  /\ (exists squashed, Squash root = Some squashed
                       /\ branches_ascending squashed
                       /\ branches_ascending (RemoveEndLeaves squashed))
  /\ branches_ascending (RemoveEndLeaves root)
  /\ (forall n n' : Node V,
        branches_ascending n -> Squash n = Some n' -> branches_ascending n')
  /\ (forall n : Node V,
        branches_ascending n -> branches_ascending (RemoveEndLeaves n)).
Proof.
  intros Hb.
  assert (H : inner root /\ branches_ascending root).
  { destruct Hb as [(keys & values & Ha & Hn)|(starts & ends & values & Ha & Hn)].
    - eapply New_ascending; eauto.
    - eapply NewRangeTrie_ascending; eauto. }
  destruct H as [Hi Ha]. destruct (Squash_total _ Hi) as (sq & Esq).
  split; [assumption|]. split.
  - exists sq. split; [assumption|].
    pose proof (Squash_ascending _ _ Ha Esq).
    split; [assumption|now apply RemoveEndLeaves_ascending].
  - split; [now apply RemoveEndLeaves_ascending|]. split.
    + intros n n'. apply Squash_ascending.
    + intros n. apply RemoveEndLeaves_ascending.
Qed.

Lemma branches_stay_ascending_witness :
  branches_ascending six
  /\ (exists squashed, Squash six = Some squashed
                       /\ branches_ascending squashed
                       /\ branches_ascending (RemoveEndLeaves squashed))
  /\ branches_ascending (RemoveEndLeaves six)
  /\ (forall n n' : Node Z,
        branches_ascending n -> Squash n = Some n' -> branches_ascending n')
  /\ (forall n : Node Z,
        branches_ascending n -> branches_ascending (RemoveEndLeaves n)).
Proof.
  apply (branches_stay_ascending Z six).
  left. exists six_keys, (Slice six_values). split; reflexivity.
Defined.

(** ** C4: the errors of [New] *)

(** C4, the claim as stated fails: the keys "b", "a" are not ascending,
  yet [New] accepts them and returns a trie and no error. *)
Lemma New_accepts_descending_keys :
  strictly_ascending [key_of [98%N]; key_of [97%N]] = false
  /\ New [key_of [98%N]; key_of [97%N]] (Slice [1; 2])
     = (Some (root_of (New [key_of [98%N]; key_of [97%N]] (Slice [1; 2]))), None).
Proof. split; vm_compute; reflexivity. Qed.

(** C4, amended.  When [New] has accepted the keys before [key]: if [key]
  equals one of them, [New] returns the duplicate-key error with [key]
  attached; if [key] is none of them but a strict prefix of one of them,
  [New] returns the key-out-of-order error with [key] attached. *)
Theorem New_reports_first_bad_key (V : Type) pre key post (vals : list V) root :
  len (pre ++ key :: post) = len vals ->
  New pre (Slice (firstn (length pre) vals)) = (Some root, None) ->
  (In key pre ->
   snd (New (pre ++ key :: post) (Slice vals))
   = Some (WithContext ErrDuplicateKeys key))
  /\ (~ In key pre ->
      (exists b rest, In (key ++ b :: rest) pre) ->
      snd (New (pre ++ key :: post) (Slice vals))
      = Some (WithContext ErrKeyOutOfOrder key)).
Proof.
  intros Hlen Hpre.
  assert (Hl : (length pre <= length vals)%nat).
  { unfold len in Hlen. rewrite length_app in Hlen. simpl in Hlen. lia. }
  pose proof (New_holds _ _ _ Hpre) as [Hi Hleaf].
  assert (Hin : forall k, In k pre -> leaf_at root k <> None).
  { intros k Hk. rewrite Hleaf.
    destruct (assoc k _) eqn:E; [discriminate|].
    apply assoc_combine_In in E; [destruct E| |assumption].
    rewrite length_firstn. lia. }
  split.
  - intros Hk.
    rewrite (New_stops_at pre key post vals root ErrDuplicateKeys Hlen Hpre);
      [reflexivity|].
    intros v. apply addKV_duplicate. auto.
  - intros Hk (b & rest & Hlong).
    rewrite (New_stops_at pre key post vals root ErrKeyOutOfOrder Hlen Hpre);
      [reflexivity|].
    intros v.
    destruct (longer_key_branches root key b rest Hi (Hin _ Hlong))
      as (m & Hm & Hb).
    apply (addKV_prefix key root m); [|assumption|assumption].
    rewrite Hleaf, assoc_combine_not_In; auto.
Qed.

Lemma New_reports_first_bad_key_witness :
  snd (New ([key_of [1; 2]%N] ++ key_of [1; 2]%N :: []) (Slice [7; 8]))
  = Some (WithContext ErrDuplicateKeys (key_of [1; 2]%N))
  /\ snd (New ([key_of [1; 2]%N] ++ key_of [1%N] :: []) (Slice [7; 8]))
     = Some (WithContext ErrKeyOutOfOrder (key_of [1%N])).
Proof.
  split.
  - apply (New_reports_first_bad_key Z [key_of [1; 2]%N] (key_of [1; 2]%N) []
             [7; 8] (root_of (New [key_of [1; 2]%N] (Slice [7])))).
    + reflexivity.
    + vm_compute; reflexivity.
    + now left.
  - apply (New_reports_first_bad_key Z [key_of [1; 2]%N] (key_of [1%N]) []
             [7; 8] (root_of (New [key_of [1; 2]%N] (Slice [7])))).
    + reflexivity.
    + vm_compute; reflexivity.
    + intros [H|[]]. discriminate H.
    + exists (byte_of 2), []. now left.
Defined.

(** ** C7: end boundaries after [RemoveEndLeaves] *)

(** Three ranges whose boundaries do not ascend: the ends [1, 5] and [1, 3]
  are inserted in this order, and the end [2] is the start of no range. *)
Definition crossed_starts : list (list byte) :=
  [key_of [0%N]; key_of [0; 1]%N; key_of [0; 2]%N].

Definition crossed_ends : list (list byte) :=
  [key_of [1; 5]%N; key_of [1; 3]%N; key_of [2%N]].

Definition crossed_ranges : Node Z :=
  root_of (NewRangeTrie crossed_starts crossed_ends (Slice [1; 2; 3])).

(** C7, the claim as stated fails: [NewRangeTrie] accepts these ranges; the
  node under the byte 1 gets the branches [5, 3], where the binary search of
  [removeBranch] finds neither 5 nor 3, so [RemoveEndLeaves] deletes both
  children and leaves both branches; [Search] on the end-only key [2] then
  follows the branch 3 to a child that is gone and panics. *)
Lemma RemoveEndLeaves_crossed_ranges_panics :
  NewRangeTrie crossed_starts crossed_ends (Slice [1; 2; 3])
  = (Some crossed_ranges, None)
  /\ In (key_of [2%N]) crossed_ends /\ ~ In (key_of [2%N]) crossed_starts
  /\ option_map (fun n => (Branches n, keys (Children n)))
       (lookup 1 (Children (RemoveEndLeaves crossed_ranges)))
     = Some ([5; 3], [])
  /\ Search (RemoveEndLeaves crossed_ranges) (key_of [2%N]) = None.
Proof.
  split; [vm_compute; reflexivity|]. split; [right; right; now left|].
  split; [intros [H|[H|[H|[]]]]; discriminate H|].
  split; vm_compute; reflexivity.
Qed.

(** C7, amended.  In a range trie that [NewRangeTrie] returned without
  error from ranges whose boundaries ascend, after [RemoveEndLeaves],
  [Search] on a key that is the end of some range and the start of none
  returns, with eq absent. *)
Theorem end_boundary_not_found (V : Type) starts ends (values : GoValues V)
        root key :
  bounds_ascending starts ends = true ->
  NewRangeTrie starts ends values = (Some root, None) ->
  In key ends -> ~ In key starts ->
  exists ltValue gtValue : option V,
    Search (RemoveEndLeaves root) key = Some (ltValue, None, gtValue).
Proof.
  intros Hasc Hnew Hend Hstart.
  destruct (NewRangeTrie_ascending _ _ _ _ Hasc Hnew) as [Hi Ha].
  assert (Hfl : flags root starts /\ has_start root).
  { unfold NewRangeTrie in Hnew.
    destruct (Z.eqb_spec (len starts) (len ends)) as [E1|]; [|discriminate].
    simpl in Hnew. destruct (toSlice values) as [vals|]; [|discriminate].
    destruct (Z.eqb_spec (len starts) (len vals)) as [E2|]; [|discriminate].
    simpl in Hnew.
    destruct (NewRangeTrie_loop newNode starts ends vals) as [r e] eqn:E.
    injection Hnew as -> ->.
    destruct (NewRangeTrie_loop_flags starts ends vals newNode root starts)
      as (_ & Hf & Hh); auto using inner_newNode.
    { intros k leaf Hl. now rewrite leaf_at_newNode in Hl. }
    split; [assumption|]. apply Hh. right.
    unfold len in *. destruct ends; [destruct Hend|].
    destruct starts; [simpl in *; lia|]. destruct vals; [simpl in *; lia|].
    repeat split; discriminate. }
  destruct Hfl as [Hfl (ks & sleaf & Hsl & Hss)].
  pose proof (RemoveEndLeaves_inner root Hi Ha) as Hi'.
  assert (Hne : Branches (RemoveEndLeaves root) <> []).
  { apply (leaf_at_branches _ ks Hi').
    rewrite (RemoveEndLeaves_leaf_at ks root Hi Ha), Hsl.
    unfold endOnly. rewrite Hss, andb_false_r. discriminate. }
  destruct (Search_plain (RemoveEndLeaves root) key Hi' Hne) as (lv & gv & Hs).
  exists lv, gv. rewrite Hs.
  rewrite (RemoveEndLeaves_leaf_at key root Hi Ha).
  destruct (leaf_at root key) as [leaf|] eqn:El; [|reflexivity].
  destruct (Hfl key leaf El) as [H1 H2]. unfold endOnly.
  destruct (isStartLeaf leaf); [exfalso; auto|].
  simpl in H2. rewrite H2. reflexivity.
Qed.

Definition ranges_example : Node Z :=
  root_of (NewRangeTrie [key_of [1%N]; key_of [3%N]]
                        [key_of [2%N]; key_of [3%N]] (Slice [7; 8])).

Lemma end_boundary_not_found_witness :
  exists ltValue gtValue : option Z,
    Search (RemoveEndLeaves ranges_example) (key_of [2%N])
    = Some (ltValue, None, gtValue).
Proof.
  apply (end_boundary_not_found Z [key_of [1%N]; key_of [3%N]]
           [key_of [2%N]; key_of [3%N]] (Slice [7; 8]) ranges_example
           (key_of [2%N])).
  - reflexivity.
  - vm_compute. reflexivity.
  - now left.
  - intros [H|[H|[]]]; discriminate H.
Defined.

(** ** C9: the worked example *)

(** C9. In the trie built by [New] over the single-byte keys 10, 20, 30, 40,
  50, 60, each mapped to itself, [Search(25)] returns lt = 20, eq absent,
  gt = 30; [Search(10)] returns eq = 10 (with lt absent and gt = 20);
  [Search(5)] returns lt absent and gt = 10 (with eq absent). *)
Theorem search_six_keys :
  New six_keys (Slice six_values) = (Some six, None)
  /\ Search six (key_of [25%N]) = Some (Some 20, None, Some 30)
  /\ Search six (key_of [10%N]) = Some (None, Some 10, Some 20)
  /\ Search six (key_of [5%N]) = Some (None, None, Some 10).
Proof. (split; [|split; [|split]]); vm_compute; reflexivity. Qed.

(** ** C3: [Search] on the empty trie *)

(** C3 (the code departs from the claim).  [New] on zero keys succeeds and
  returns a root without branches; on that root [Search] panics for every
  key: [neighborBranches] answers [(0, 0)] for the empty [Branches], and
  [Search] then reads [Branches[0]]. *)
Theorem Search_empty_trie_panics (V : Type) (key : list byte) :
  New [] (Slice (@nil V)) = (Some newNode, None)
  /\ Search (@newNode V) key = None.
Proof.
  split; [reflexivity|].
  unfold Search. rewrite descend_eq. unfold branchAt.
  destruct key as [|b rest]; reflexivity.
Qed.

(** ** C5: a range that starts where the previous one ends *)


(** ** C6: the step added by [Squash] *)

Definition range_example : Node Z :=
  root_of (NewRangeTrie [key_of [65%N]; key_of [97; 98; 99]%N]
                        [key_of [97; 98]%N; key_of [97; 98; 100]%N]
                        (Slice [1; 2])).

Definition squash_or_same {V : Type} (r : Node V) : Node V :=
  match Squash r with Some r' => r' | None => r end.

(** C6 (the code departs from the claim).  [Squash] adds 1 to the step of
  the surviving child, not the step of the node it removes.  After
  [Squash], [RemoveEndLeaves] and [Squash] again, the node of the start key
  "abc" replaces a node of step 2 and gets step 2 instead of 3, and
  [Search] no longer finds "abc", which it found before the second
  [Squash]. *)
Theorem Squash_adds_one_not_the_step :
  let once := RemoveEndLeaves (squash_or_same range_example) in
  let twice := squash_or_same once in
  option_map (fun n => (Step n, Branches n)) (lookup 97 (Children once))
    = Some (2, [99])
  /\ option_map Step (lookup 97 (Children twice)) = Some 2
  /\ Search once (key_of [97; 98; 99]%N) = Some (Some 1, Some 2, None)
  /\ Search twice (key_of [97; 98; 99]%N) = Some (Some 2, None, None).
Proof. (split; [|split; [|split]]); vm_compute; reflexivity. Qed.

(** ** C10: the key ends inside a compressed edge *)

(** The keys [1, 2, 3, 4], [1, 2, 3, 5], [1, 7] and [2]. *)
Definition four_keys : list (list byte) :=
  [key_of [1; 2; 3; 4]%N; key_of [1; 2; 3; 5]%N; key_of [1; 7]%N; key_of [2%N]].

Definition four_squashed : Node Z :=
  squash_or_same (root_of (New four_keys (Slice [7; 8; 9; 10]))).

(** In [four_squashed] the node below the bytes 1, 2, of step 2: it stands
  for the prefix [1, 2, 3] and has the branches 4 and 5. *)
Definition deep_edge : Node Z :=
  match lookup 1 (Children four_squashed) with
  | Some n1 =>
      match lookup 2 (Children n1) with
      | Some c => c
      | None => newNode
      end
  | None => newNode
  end.

(** C10. In a trie that [New] or [NewRangeTrie] returned without error,
  after [Squash]: whenever the bytes of the key lead from the root, each
  edge taking the step of the child it enters, to a node [c] whose step
  passes the end of the key, [Search] returns; the loop ends with no exact
  node and with [c] as the candidate on the right, so eq is absent and gt is
  the value of the leftmost leaf of the subtree of [c], which is a sentinel
  leaf. *)
Theorem overshoot_ends_on_leftmost_leaf (V : Type) (root squashed : Node V)
        key c :
  built root -> Squash root = Some squashed ->
  overshoots key squashed 0 c ->
  exists ltNode ltValue leaf,
    descend squashed key 0 None None = Some (ltNode, None, Some c)
    /\ first_leaf c leaf /\ is_leaf leaf
    /\ Search squashed key = Some (ltValue, None, Value leaf).
Proof.
  intros Hb Hs Hover. pose proof (built_inner root Hb) as Hi.
  destruct (shape_squashed root (inner_shape root Hi)) as [Hshape _].
  specialize (Hshape squashed Hs).
  destruct (descend_overshoots key squashed 0 c Hover None None Hshape)
    as (lt' & Hd & Hlt & Hsc & Hnc); try exact I; [lia|].
  destruct (shape_first_leaf c Hsc Hnc) as (leaf & Hl & Hf & Hleaf).
  assert (Hlv : exists ltValue, resolve rightMost lt' = Some ltValue).
  { destruct lt' as [l|]; simpl in *; [|eauto].
    destruct Hlt as [Hr _]. destruct (rightMost l); [simpl; eauto|congruence]. }
  destruct Hlv as (ltValue & Hlv).
  exists lt', ltValue, leaf. split; [assumption|]. split; [assumption|].
  split; [assumption|].
  unfold Search. rewrite Hd, Hlv. simpl. now rewrite Hl.
Qed.

Lemma overshoot_ends_on_leftmost_leaf_witness :
  exists ltNode ltValue leaf,
    descend four_squashed (key_of [1; 2]%N) 0 None None
    = Some (ltNode, None, Some deep_edge)
    /\ first_leaf deep_edge leaf /\ is_leaf leaf
    /\ Search four_squashed (key_of [1; 2]%N) = Some (ltValue, None, Value leaf).
Proof.
  apply (overshoot_ends_on_leftmost_leaf Z
           (root_of (New four_keys (Slice [7; 8; 9; 10]))) four_squashed
           (key_of [1; 2]%N) deep_edge).
  - left. exists four_keys, (Slice [7; 8; 9; 10]). vm_compute. reflexivity.
  - vm_compute. reflexivity.
  - apply (overshoots_down (key_of [1; 2]%N) four_squashed 0 (byte_of 1)
             (match lookup 1 (Children four_squashed) with
              | Some n1 => n1
              | None => newNode
              end) deep_edge).
    + reflexivity.
    + vm_compute. reflexivity.
    + vm_compute. discriminate.
    + apply (overshoots_here (key_of [1; 2]%N) _ _ (byte_of 2) deep_edge).
      * vm_compute. reflexivity.
      * vm_compute. reflexivity.
      * vm_compute. reflexivity.
Defined.


(** ** C2: [Search] after [Squash] *)

(** The trie of the one key [1, 2] with value 7. *)
Definition one_key : Node Z := root_of (New [key_of [1; 2]%N] (Slice [7])).

(** C2, the claim as stated fails: in the trie of the one key [1, 2],
  [Search] on the absent key [1, 3] returns lt = 7 and eq absent before
  [Squash]; after [Squash] the step of 2 skips the byte that differs, and
  [Search] returns eq = 7 and lt absent. *)
Lemma Squash_changes_absent_key :
  strictly_ascending [key_of [1; 2]%N] = true
  /\ New [key_of [1; 2]%N] (Slice [7]) = (Some one_key, None)
  /\ Search one_key (key_of [1; 3]%N) = Some (Some 7, None, None)
  /\ exists squashed,
       Squash one_key = Some squashed
       /\ Search squashed (key_of [1; 3]%N) = Some (None, Some 7, None).
Proof.
  split; [reflexivity|]. split; [reflexivity|]. split; [reflexivity|].
  eexists. split; vm_compute; reflexivity.
Qed.

(** C2, amended.  For a trie that [New] returned without error from keys
  shorter than 65536 bytes, and for every key that was inserted, [Squash]
  returns and [Search] on the squashed trie returns the same (lt, eq, gt)
  as [Search] on the unsquashed trie, with eq present. *)
Theorem Squash_keeps_held_keys (V : Type) keys (vals : list V) root key :
  New keys (Slice vals) = (Some root, None) ->
  Forall (fun k => len k < 65536) keys ->
  In key keys ->
  exists squashed ltValue value gtValue,
    Squash root = Some squashed
    /\ Search root key = Some (ltValue, Some value, gtValue)
    /\ Search squashed key = Some (ltValue, Some value, gtValue).
Proof.
  intros Hnew Hshort Hin.
  pose proof (New_holds _ _ _ Hnew) as [Hi Hleaf].
  assert (Hlen : len keys = len vals).
  { unfold New in Hnew. simpl in Hnew.
    destruct (Z.eqb_spec (len keys) (len vals)); [assumption|discriminate]. }
  assert (Hd : depth_le root 65535).
  { apply (New_depth keys vals); [lia| |assumption].
    eapply Forall_impl; [|exact Hshort]. simpl. intros k Hk. lia. }
  assert (Hheld : exists v, leaf_at root key = Some (newLeaf v false false)).
  { rewrite Hleaf. destruct (assoc key (combine keys vals)) as [v|] eqn:E.
    - now exists v.
    - exfalso. revert E. apply assoc_combine_In; [|assumption].
      unfold len in Hlen. lia. }
  destruct Hheld as (v & Hv).
  assert (Hne : Branches root <> []).
  { apply (leaf_at_branches _ key Hi). rewrite Hv. discriminate. }
  destruct (Squash_total _ Hi) as (squashed & Hs).
  destruct (Search_plain root key Hi Hne) as (lv & gv & Hsearch).
  rewrite Hv in Hsearch. simpl in Hsearch.
  exists squashed, lv, v, gv. split; [assumption|]. split; [assumption|].
  rewrite <- Hsearch.
  apply (Squash_Search_held root squashed key 65535); try assumption; [lia|].
  rewrite Hv. discriminate.
Qed.

(** The keys [1, 2, 3], [1, 2, 4] and [5]. *)
Definition three_keys : list (list byte) :=
  [key_of [1; 2; 3]%N; key_of [1; 2; 4]%N; key_of [5%N]].

Lemma Squash_keeps_held_keys_witness :
  exists squashed ltValue value gtValue,
    Squash (root_of (New three_keys (Slice [7; 8; 9]))) = Some squashed
    /\ Search (root_of (New three_keys (Slice [7; 8; 9]))) (key_of [1; 2; 4]%N)
       = Some (ltValue, Some value, gtValue)
    /\ Search squashed (key_of [1; 2; 4]%N)
       = Some (ltValue, Some value, gtValue).
Proof.
  apply (Squash_keeps_held_keys Z three_keys [7; 8; 9]
           (root_of (New three_keys (Slice [7; 8; 9]))) (key_of [1; 2; 4]%N)).
  - vm_compute. reflexivity.
  - repeat (apply Forall_cons; [reflexivity|]). apply Forall_nil.
  - right. now left.
Defined.

End TrieClaims.

(** * Verification of the array codec *)

Module SerializeFacts.
Import Array Serialize.

Lemma int_of_byte_of_Z z : 0 <= z < 256 -> int_of_byte (byte_of_Z z) = z.
Proof.
  intros Hz. unfold int_of_byte, byte_of_Z.
  destruct (Byte.of_N (Z.to_N z)) as [b|] eqn:E.
  - apply Byte.to_of_N in E. rewrite E. lia.
  - apply Byte.of_N_None_iff in E. lia.
Qed.

Lemma length_putUint w : forall n, length (putUint w n) = w.
Proof. induction w; intros n; simpl; [reflexivity|now rewrite IHw]. Qed.

Lemma getUint_putUint w : forall n,
  0 <= n < 256 ^ Z.of_nat w -> getUint (putUint w n) = n.
Proof.
  induction w as [|w IH]; intros n Hn.
  - simpl in *. lia.
  - rewrite Nat2Z.inj_succ, Z.pow_succ_r in Hn by lia.
    cbn [putUint getUint].
    rewrite int_of_byte_of_Z by (apply Z.mod_pos_bound; lia).
    rewrite IH.
    + pose proof (Z.div_mod n 256 ltac:(lia)). lia.
    + split; [apply Z.div_pos; lia|].
      apply Z.div_lt_upper_bound; lia.
Qed.

Lemma take_app x : forall rest, take (length x) (x ++ rest) = Some (x, rest).
Proof.
  induction x as [|b x IH]; intros rest; simpl; [reflexivity|now rewrite IH].
Qed.

Lemma take_exact n x rest : length x = n -> take n (x ++ rest) = Some (x, rest).
Proof. intros <-. apply take_app. Qed.

Lemma getItems_app {A} (enc : A -> list byte) dec w l : forall rest,
  Forall (fun x => length (enc x) = w /\ dec (enc x) = Some x) l ->
  getItems (length l) w dec (concat (map enc l) ++ rest) = Some (l, rest).
Proof.
  induction l as [|x l IH]; intros rest Hl; [reflexivity|].
  inversion Hl as [|? ? Hx Hl']; subst. destruct Hx as [Hw Hd].
  cbn [length getItems map concat].
  rewrite <- app_assoc. rewrite (take_exact w _ _ Hw), Hd, IH; auto.
Qed.

Lemma getSeq_putSeq {A} lenWidth (enc : A -> list byte) dec w l rest :
  len l < 256 ^ Z.of_nat lenWidth ->
  Forall (fun x => length (enc x) = w /\ dec (enc x) = Some x) l ->
  getSeq lenWidth w dec (putSeq lenWidth enc l ++ rest) = Some (l, rest).
Proof.
  intros Hlen Hl. unfold getSeq, putSeq. rewrite <- app_assoc.
  rewrite (take_exact lenWidth _ _ (length_putUint lenWidth (len l))).
  rewrite getUint_putUint by (unfold len in *; lia).
  unfold len. rewrite Nat2Z.id. now apply getItems_app.
Qed.

Lemma uint_items w l :
  Forall (fun x => 0 <= x < 256 ^ Z.of_nat w) l ->
  Forall (fun x => length (putUint w x) = w
                   /\ (fun bs => Some (getUint bs)) (putUint w x) = Some x) l.
Proof.
  intros H. eapply Forall_impl; [|exact H]. simpl. intros x Hx.
  split; [apply length_putUint|]. now rewrite getUint_putUint.
Qed.

(** *** What [New] builds *)

Section Built.
Context {E : Type}.
Implicit Types (a : Array E).

(** The stored count is the number of elements, every bitmap is a 64-bit
  word and every offset a count of elements stored by then. *)
Definition wellformed a : Prop :=
  Cnt a = len (Elts a)
  /\ Forall (fun w => 0 <= w < 2 ^ 64) (Bitmaps a)
  /\ Forall (fun o => 0 <= o <= Cnt a) (Offsets a).

Lemma setBit_range w p :
  0 <= w < 2 ^ 64 -> 0 <= p < 64 -> 0 <= setBit w p < 2 ^ 64.
Proof.
  intros Hw Hp. unfold setBit. rewrite Z.shiftl_1_l.
  assert (H2 : 0 < 2 ^ p) by (apply Z.pow_pos_nonneg; lia).
  assert (Hnn : 0 <= Z.lor w (2 ^ p)) by (apply Z.lor_nonneg; lia).
  split; [assumption|].
  assert (Hpos : 0 < Z.lor w (2 ^ p)).
  { destruct (Z.eq_dec (Z.lor w (2 ^ p)) 0) as [E0|]; [|lia].
    apply Z.lor_eq_0_iff in E0. lia. }
  apply Z.log2_lt_pow2; [assumption|].
  rewrite Z.log2_lor by lia. rewrite Z.log2_pow2 by lia.
  destruct (Z.eq_dec w 0) as [->|]; [simpl; lia|].
  assert (Z.log2 w < 64) by (apply Z.log2_lt_pow2; lia). lia.
Qed.

Lemma toggle_range bitmaps : forall bucket p,
  0 <= p < 64 ->
  Forall (fun w => 0 <= w < 2 ^ 64) bitmaps ->
  Forall (fun w => 0 <= w < 2 ^ 64) (toggle bitmaps bucket p).
Proof.
  induction bitmaps as [|w rest IH]; intros bucket p Hp Hall; [constructor|].
  inversion Hall; subst. destruct bucket; simpl.
  - constructor; [now apply setBit_range|assumption].
  - constructor; [assumption|now apply IH].
Qed.

Lemma put_wellformed a idx e : wellformed a -> wellformed (put a idx e).
Proof.
  intros (Hc & Hb & Ho). unfold wellformed, put. cbn [Cnt Bitmaps Offsets Elts].
  split; [|split].
  - unfold len in *. rewrite length_app. simpl. lia.
  - apply toggle_range.
    + unfold BucketSize. apply Z.mod_pos_bound. lia.
    + apply Forall_app. split; [assumption|].
      apply Forall_forall. intros x Hx. apply repeat_spec in Hx. subst x. lia.
  - assert (H0 : 0 <= Cnt a) by (unfold len in Hc; lia).
    apply Forall_app. split.
    + eapply Forall_impl; [|exact Ho]. simpl. intros o Hx. lia.
    + apply Forall_forall. intros x Hx. apply repeat_spec in Hx. subst x. lia.
Qed.

Lemma New_loop_wellformed indices : forall (elts : list E) a prev a',
  wellformed a -> New_loop a prev indices elts = Some a' -> wellformed a'.
Proof.
  induction indices as [|idx indices IH]; intros elts a prev a' Hw Hrun.
  - destruct elts; [|discriminate]. now injection Hrun as <-.
  - destruct elts as [|e elts]; [discriminate|]. cbn [New_loop] in Hrun.
    destruct (prev <? idx); [|discriminate].
    eapply IH; [|eassumption]. now apply put_wellformed.
Qed.

Lemma New_wellformed indices (elts : list E) a :
  New indices elts = Some a -> wellformed a.
Proof.
  apply New_loop_wellformed. unfold wellformed. simpl.
  split; [reflexivity|]. split; constructor.
Qed.

End Built.

(** *** The round trip *)

Section RoundTrip.
Context {E : Type}.
Variable version : list byte.
Variables lenWidth offsetWidth eltWidth : nat.
Variable encodeElt : E -> list byte.
Variable decodeElt : list byte -> option E.
Hypothesis encodeElt_width : forall e, length (encodeElt e) = eltWidth.
Hypothesis decodeElt_encodeElt : forall e, decodeElt (encodeElt e) = Some e.

(** Every count of [a] fits the wire field it is written to. *)
Definition fits (a : Array E) : Prop :=
  Cnt a < 2 ^ 64
  /\ Cnt a < 256 ^ Z.of_nat offsetWidth
  /\ len (Bitmaps a) < 256 ^ Z.of_nat lenWidth
  /\ len (Offsets a) < 256 ^ Z.of_nat lenWidth
  /\ len (Elts a) < 256 ^ Z.of_nat lenWidth.

Lemma UnmarshalHeader_marshalHeader h rest :
  exists h', UnmarshalHeader (marshalHeader h ++ rest) = Some (h', rest).
Proof.
  unfold UnmarshalHeader, marshalHeader.
  set (v := firstn versionLen (Version h ++ repeat x00 versionLen)).
  assert (Hv : length v = versionLen).
  { unfold v. rewrite length_firstn, length_app, repeat_length. lia. }
  rewrite <- !app_assoc. rewrite (take_exact versionLen v _ Hv).
  rewrite (take_exact 8 _ _ (length_putUint 8 (HeaderSize h))).
  rewrite (take_exact 8 _ _ (length_putUint 8 (DataSize h))).
  eauto.
Qed.

Lemma Unmarshal_Marshal a shell :
  wellformed a -> fits a ->
  Unmarshal lenWidth offsetWidth eltWidth decodeElt
            (fst (Marshal version lenWidth offsetWidth encodeElt a)) shell
  = Some a.
Proof.
  intros (Hc & Hb & Ho) (F1 & F2 & F3 & F4 & F5).
  assert (H0 : 0 <= Cnt a) by (unfold len in Hc; lia).
  unfold Unmarshal, Marshal. cbn [fst].
  destruct (UnmarshalHeader_marshalHeader
              (makeDefaultDataHeader version
                 (len (marshalData lenWidth offsetWidth encodeElt a)))
              (marshalData lenWidth offsetWidth encodeElt a)) as (h' & ->).
  unfold marshalData.
  rewrite (take_exact 8 _ _ (length_putUint 8 (Cnt a))).
  rewrite (getSeq_putSeq lenWidth (putUint 8) _ 8 (Bitmaps a)); [|assumption|].
  2:{ apply uint_items. eapply Forall_impl; [|exact Hb]. simpl. intros w Hw.
      change (256 ^ Z.of_nat 8) with (2 ^ 64). exact Hw. }
  rewrite (getSeq_putSeq lenWidth (putUint offsetWidth) _ offsetWidth (Offsets a));
    [|assumption|].
  2:{ apply uint_items. eapply Forall_impl; [|exact Ho]. simpl. intros o Hx. lia. }
  rewrite <- (app_nil_r (putSeq lenWidth encodeElt (Elts a))).
  rewrite (getSeq_putSeq lenWidth encodeElt decodeElt eltWidth (Elts a));
    [|assumption|].
  2:{ apply Forall_forall. intros e _. auto. }
  rewrite getUint_putUint by (change (256 ^ Z.of_nat 8) with (2 ^ 64); lia).
  now destruct a.
Qed.

End RoundTrip.

End SerializeFacts.

(** * The claim about the array codec *)

Module SerializeClaims.
Import Array Serialize SerializeFacts.

(** C1. For every array that [New] built from strictly ascending indexes
  paired 1:1 with elements, whose counts fit their wire fields, and for an
  element codec of fixed width that decodes what it encodes: [Unmarshal] of
  the bytes [Marshal] wrote, into a [NewEmpty] shell, succeeds and yields an
  array with identical [Cnt], [Bitmaps], [Offsets] and [Elts], and whose
  [Get] answers as the original's at every index, stored or absent. *)
Theorem Marshal_Unmarshal_round_trip (E : Type) (version : list byte)
        (lenWidth offsetWidth eltWidth : nat)
        (encodeElt : E -> list byte) (decodeElt : list byte -> option E)
        (indices : list Z) (elts : list E) (a : Array E) :
  (forall e, length (encodeElt e) = eltWidth) ->
  (forall e, decodeElt (encodeElt e) = Some e) ->
  New indices elts = Some a ->
  fits lenWidth offsetWidth a ->
  exists a2,
    Unmarshal lenWidth offsetWidth eltWidth decodeElt
              (fst (Marshal version lenWidth offsetWidth encodeElt a)) NewEmpty
    = Some a2
    /\ Cnt a2 = Cnt a /\ Bitmaps a2 = Bitmaps a
    /\ Offsets a2 = Offsets a /\ Elts a2 = Elts a
    /\ forall idx, Get a2 idx = Get a idx.
Proof.
  intros Hw Hd Hnew Hfit. exists a. split.
  - apply Unmarshal_Marshal; auto. eapply New_wellformed; eauto.
  - auto 6.
Qed.

(** An array of one-byte elements over two buckets. *)
Definition bytes_example : Array byte :=
  match New [10; 20; 70; 200] [x0a; x14; x46; xc8] with
  | Some a => a
  | None => NewEmpty
  end.

Definition decodeByte (bs : list byte) : option byte :=
  match bs with
  | [b] => Some b
  | _ => None
  end.

Lemma Marshal_Unmarshal_round_trip_witness :
  exists a2,
    Unmarshal 8 4 1 decodeByte
              (fst (Marshal [x31; x2e; x30; x2e; x30] 8 4 (fun b => [b])
                            bytes_example)) NewEmpty
    = Some a2
    /\ Cnt a2 = Cnt bytes_example /\ Bitmaps a2 = Bitmaps bytes_example
    /\ Offsets a2 = Offsets bytes_example /\ Elts a2 = Elts bytes_example
    /\ forall idx, Get a2 idx = Get bytes_example idx.
Proof.
  apply (Marshal_Unmarshal_round_trip byte [x31; x2e; x30; x2e; x30] 8 4 1
           (fun b => [b]) decodeByte [10; 20; 70; 200] [x0a; x14; x46; xc8]
           bytes_example).
  - reflexivity.
  - reflexivity.
  - reflexivity.
  - unfold fits.
    split; [reflexivity|]. split; [reflexivity|]. split; [reflexivity|].
    split; reflexivity.
Defined.

End SerializeClaims.

(** * Further properties of package trie *)

Module TrieProperties.
Import Trie GoMap GoMapFacts TrieFacts TrieClaims.

Section Lookup.
Context {V : Type}.
Implicit Types (n m root : Node V) (key : list byte).

Lemma held_key_branches keys (vals : list V) root :
  New keys (Slice vals) = (Some root, None) -> keys <> [] ->
  inner root /\ Branches root <> [].
Proof.
  intros Hnew Hne. pose proof (New_holds _ _ _ Hnew) as [Hi Hleaf].
  split; [assumption|].
  assert (Hlen : len keys = len vals).
  { unfold New in Hnew. simpl in Hnew.
    destruct (Z.eqb_spec (len keys) (len vals)); [assumption|discriminate]. }
  destruct keys as [|k0 keys]; [congruence|].
  apply (leaf_at_branches root k0 Hi). rewrite Hleaf.
  destruct (assoc k0 (combine (k0 :: keys) vals)) eqn:E; [discriminate|].
  exfalso. revert E. apply assoc_combine_In; [unfold len in Hlen; lia|now left].
Qed.

Lemma byte_of_branch k : 0 <= k < 256 -> exists b, int_of_byte b = k.
Proof.
  intros Hk. destruct (Byte.of_N (Z.to_N k)) as [b|] eqn:E.
  - exists b. unfold int_of_byte. apply Byte.to_of_N in E. rewrite E. lia.
  - apply Byte.of_N_None_iff in E. lia.
Qed.

(** Below a node that has a branch there is the leaf of some key. *)
Lemma branches_reach_leaf : forall n,
  inner n -> Branches n <> [] -> exists path, leaf_at n path <> None.
Proof.
  induction n as [n IH] using Node_induction. intros Hi Hne.
  destruct (Branches n) as [|b0 bs] eqn:Eb; [congruence|].
  destruct (inner_branch_child n b0 Hi) as (c & Hc & _); [rewrite Eb; now left|].
  pose proof (lookup_In _ _ _ Hc) as Hin.
  destruct (inner_children _ _ _ Hi Hin) as [[-> _]|(Hk & Hic & Hnc)].
  - exists []. unfold leaf_at. simpl. rewrite Hc. discriminate.
  - destruct (IH _ _ Hin Hic Hnc) as (path & Hp).
    destruct (byte_of_branch b0 Hk) as (b & Hb). exists (b :: path).
    now rewrite leaf_at_cons, Hb, Hc.
Qed.

Lemma leaf_at_app n : forall p q m,
  node_at n p = Some m -> leaf_at n (p ++ q) = leaf_at m q.
Proof.
  intros p q m Hm. unfold leaf_at. now rewrite node_at_app, Hm.
Qed.

Lemma New_loop_error keys : forall (vals : list V) root root' err,
  New_loop root keys vals = (root', Some err) ->
  exists pre key post v e,
    keys = pre ++ key :: post /\ (length pre < length vals)%nat
    /\ New_loop root pre (firstn (length pre) vals) = (root', None)
    /\ addKV root' key v false false = inr e
    /\ err = WithContext e key.
Proof.
  induction keys as [|key keys IH]; intros vals root root' err Hrun.
  - destruct vals; discriminate.
  - destruct vals as [|v vals]; [discriminate|]. cbn [New_loop] in Hrun.
    destruct (addKV root key v false false) as [root1|e] eqn:Ea.
    + destruct (IH _ _ _ _ Hrun) as (pre & k & post & v' & e & -> & Hl & Hp & Hk & ->).
      exists (key :: pre), k, post, v', e. simpl. rewrite Ea.
      split; [reflexivity|]. split; [lia|]. auto.
    + injection Hrun as <- <-. exists [], key, keys, v, e. simpl.
      split; [reflexivity|]. split; [lia|]. auto.
Qed.

End Lookup.

(** X1. In a trie that [New] returned without error from at least one key,
  [Search] returns for every key, and its eq is the value paired with the
  key when the key was inserted and absent when it was not. *)
Theorem Search_finds_what_New_stored (V : Type) keys (vals : list V) root key :
  New keys (Slice vals) = (Some root, None) -> keys <> [] ->
  exists ltValue gtValue : option V,
    Search root key = Some (ltValue, assoc key (combine keys vals), gtValue).
Proof.
  intros Hnew Hne. destruct (held_key_branches _ _ _ Hnew Hne) as [Hi Hb].
  destruct (Search_plain root key Hi Hb) as (lv & gv & Hs).
  exists lv, gv. rewrite Hs. destruct (New_holds _ _ _ Hnew) as [_ Hleaf].
  rewrite Hleaf. now destruct (assoc key (combine keys vals)).
Qed.

Lemma Search_finds_what_New_stored_witness :
  exists ltValue gtValue : option Z,
    Search (root_of (New three_keys (Slice [7; 8; 9]))) (key_of [1; 2; 4]%N)
    = Some (ltValue, assoc (key_of [1; 2; 4]%N) (combine three_keys [7; 8; 9]),
            gtValue).
Proof.
  apply (Search_finds_what_New_stored Z three_keys [7; 8; 9]
           (root_of (New three_keys (Slice [7; 8; 9]))) (key_of [1; 2; 4]%N)).
  - vm_compute. reflexivity.
  - discriminate.
Defined.

(** X2. [New] accepts every list of strictly ascending keys that is as long
  as the values: it returns a trie and no error. *)
Theorem New_accepts_ascending_keys (V : Type) keys (vals : list V) :
  strictly_ascending keys = true -> len keys = len vals ->
  exists root, New keys (Slice vals) = (Some root, None).
Proof.
  intros Hasc Hlen. unfold New. simpl. rewrite Hlen, Z.eqb_refl. simpl.
  destruct (New_loop_ascending keys vals newNode) as (root & -> & _).
  - apply inner_newNode.
  - constructor; [apply ascending_nil|]. intros k c [].
  - left. auto.
  - eauto.
Qed.

Lemma New_accepts_ascending_keys_witness :
  exists root, New three_keys (Slice [7; 8; 9]) = (Some root, None).
Proof.
  apply (New_accepts_ascending_keys Z three_keys [7; 8; 9]); reflexivity.
Defined.

(** X3. When [New] returns an error from its loop, the error names the first
  key [key] that is a duplicate of an earlier key (duplicate-key error) or a
  strict prefix of an earlier key (out-of-order error), and the root
  returned with it is the trie of the keys before [key]. *)
Theorem New_fails_only_on_duplicate_or_prefix (V : Type) keys (vals : list V)
        r err :
  New keys (Slice vals) = (r, Some err) -> len keys = len vals ->
  exists pre key post root e,
    keys = pre ++ key :: post
    /\ r = Some root /\ err = WithContext e key
    /\ New pre (Slice (firstn (length pre) vals)) = (Some root, None)
    /\ ((e = ErrDuplicateKeys /\ In key pre)
        \/ (e = ErrKeyOutOfOrder /\ ~ In key pre
            /\ exists b rest, In (key ++ b :: rest) pre)).
Proof.
  intros Hnew Hlen. unfold New in Hnew. simpl in Hnew.
  rewrite Hlen, Z.eqb_refl in Hnew. simpl in Hnew.
  destruct (New_loop newNode keys vals) as [root e0] eqn:Hrun.
  injection Hnew as <- ->.
  destruct (New_loop_error _ _ _ _ _ Hrun)
    as (pre & key & post & v & e & -> & Hl & Hp & Hk & ->).
  assert (Hpre : New pre (Slice (firstn (length pre) vals)) = (Some root, None)).
  { unfold New. simpl. unfold len. rewrite length_firstn.
    replace (Nat.min (length pre) (length vals)) with (length pre) by lia.
    rewrite Z.eqb_refl. simpl. now rewrite Hp. }
  exists pre, key, post, root, e.
  split; [reflexivity|]. split; [reflexivity|]. split; [reflexivity|].
  split; [assumption|].
  destruct (New_holds _ _ _ Hpre) as [Hi Hleaf].
  assert (Hin : forall k, leaf_at root k <> None -> In k pre).
  { intros k Hk'. destruct (in_dec key_eq_dec k pre) as [?|Hn]; [assumption|].
    exfalso. apply Hk'. rewrite Hleaf, assoc_combine_not_In; auto. }
  destruct (addKV_error _ _ _ _ _ _ Hk) as [[-> Hd]|(-> & Hnone & m & Hm & Hb)].
  - left. auto.
  - right. split; [reflexivity|]. split.
    + intros Hkin.
      assert (Ha : assoc key (combine pre (firstn (length pre) vals)) <> None).
      { apply assoc_combine_In; [|assumption]. rewrite length_firstn. lia. }
      rewrite Hleaf in Hnone.
      destruct (assoc key (combine pre (firstn (length pre) vals)));
        [discriminate|congruence].
    + assert (Him : inner m /\ (leaf_at m [] = None)).
      { split; [eapply node_at_inner; eauto|].
        rewrite <- (leaf_at_app root key [] m Hm), app_nil_r. assumption. }
      destruct Him as [Him Hnil].
      destruct (branches_reach_leaf m Him Hb) as ([|b rest] & Hpath);
        [congruence|].
      exists b, rest. apply Hin. now rewrite (leaf_at_app root key _ m Hm).
Qed.

Lemma New_fails_only_on_duplicate_or_prefix_witness :
  exists pre key post root e,
    [key_of [1; 2]%N; key_of [1%N]; key_of [3%N]] = pre ++ key :: post
    /\ Some (root_of (New [key_of [1; 2]%N] (Slice [7]))) = Some root
    /\ WithContext ErrKeyOutOfOrder (key_of [1%N]) = WithContext e key
    /\ New pre (Slice (firstn (length pre) [7; 8; 9])) = (Some root, None)
    /\ ((e = ErrDuplicateKeys /\ In key pre)
        \/ (e = ErrKeyOutOfOrder /\ ~ In key pre
            /\ exists b rest, In (key ++ b :: rest) pre)).
Proof.
  apply (New_fails_only_on_duplicate_or_prefix Z
           [key_of [1; 2]%N; key_of [1%N]; key_of [3%N]] [7; 8; 9]).
  - vm_compute. reflexivity.
  - reflexivity.
Defined.

(** X4. On a slice of ascending branches, [removeBranch] removes exactly
  the branch [br], wherever it stands, and leaves a slice without [br] as it
  is. *)
Theorem removeBranch_removes_exactly (l : list Z) (br : Z) :
  ascending l ->
  removeBranch l br = filter (fun x => negb (x =? br)) l
  /\ (~ In br l -> removeBranch l br = l).
Proof.
  intros Ha. split; [now apply removeBranch_filter|].
  now apply removeBranch_absent.
Qed.

Lemma removeBranch_removes_exactly_witness :
  removeBranch [-1; 3; 7; 9] 7 = filter (fun x => negb (x =? 7)) [-1; 3; 7; 9]
  /\ (~ In 7 [-1; 3; 7; 9] -> removeBranch [-1; 3; 7; 9] 7 = [-1; 3; 7; 9]).
Proof.
  apply (removeBranch_removes_exactly [-1; 3; 7; 9] 7).
  unfold ascending. repeat (constructor; try lia).
Defined.

(** X5. [Squash] keeps the two ends of every subtree: the values that
  [leftMost] and [rightMost] reach from a node are the same before and after
  the node is squashed. *)
Theorem Squash_keeps_both_ends (V : Type) (n n' : Node V) :
  Squash n = Some n' ->
  option_map Value (leftMost n') = option_map Value (leftMost n)
  /\ option_map Value (rightMost n') = option_map Value (rightMost n).
Proof.
  intros Hs. destruct (squash_extremes n) as [H _].
  destruct (H n' Hs). auto.
Qed.

Lemma Squash_keeps_both_ends_witness :
  option_map Value (leftMost (squash_or_same (root_of (New three_keys (Slice [7; 8; 9])))))
  = option_map Value (leftMost (root_of (New three_keys (Slice [7; 8; 9]))))
  /\ option_map Value (rightMost (squash_or_same (root_of (New three_keys (Slice [7; 8; 9])))))
     = option_map Value (rightMost (root_of (New three_keys (Slice [7; 8; 9])))).
Proof.
  apply (Squash_keeps_both_ends Z (root_of (New three_keys (Slice [7; 8; 9])))).
  vm_compute. reflexivity.
Defined.


Section SquashTwice.
Context {V : Type}.
Implicit Types (n m c root : Node V).

(** A node that [Squash] leaves in place: it is not a node with a single
  branch other than the sentinel. *)
Definition stable m : Prop := forall b, Branches m = [b] -> b = leafBranch.

Lemma promote_stable m : stable m -> promote m = Some m.
Proof.
  intros Hs. unfold promote. destruct (Branches m) as [|b [|b' bs]] eqn:Eb; auto.
  now rewrite (Hs b Eb).
Qed.

Lemma traverse_fixed (f : Node V -> option (Node V)) cs :
  (forall k c, In (k, c) cs -> f c = Some c) -> traverse f cs = Some cs.
Proof.
  induction cs as [|[k c] cs IH]; intros H; simpl; [reflexivity|].
  rewrite (H k c) by now left. rewrite IH; [reflexivity|].
  intros k' c' Hin. apply (H k'). now right.
Qed.

Lemma Squash_setStep c s :
  Squash (setStep c s)
  = match Squash c with Some c' => Some (setStep c' s) | None => None end.
Proof.
  rewrite !Squash_eq. simpl.
  now destruct (traverse squashChild (Children c)).
Qed.

Lemma squashed_children_fixed n cs' :
  (forall k c, In (k, c) (Children n) ->
     forall m, squashChild c = Some m -> Squash m = Some m /\ stable m) ->
  traverse squashChild (Children n) = Some cs' ->
  (forall k c', In (k, c') cs' -> Squash c' = Some c' /\ stable c')
  /\ Squash (setChildren n cs') = Some (setChildren n cs').
Proof.
  intros IH Et.
  assert (Hfix : forall k c', In (k, c') cs' -> Squash c' = Some c' /\ stable c').
  { intros k c' Hin. destruct (traverse_In _ _ _ _ _ Et Hin) as (c & Hc & Hsq).
    eapply IH; eauto. }
  split; [assumption|]. rewrite Squash_eq. simpl.
  rewrite traverse_fixed; [reflexivity|].
  intros k c' Hin. destruct (Hfix k c' Hin) as [Hs Hst].
  unfold squashChild. rewrite Hs. now apply promote_stable.
Qed.

(** What [Squash] puts in place of a child is squashed already. *)
Lemma squashChild_fixed : forall n m,
  squashChild n = Some m -> Squash m = Some m /\ stable m.
Proof.
  induction n as [n IH] using Node_induction. intros m Hm.
  unfold squashChild in Hm. rewrite Squash_eq in Hm.
  destruct (traverse squashChild (Children n)) as [cs'|] eqn:Et; [|discriminate].
  destruct (squashed_children_fixed n cs' IH Et) as [Hfix Hself].
  unfold promote in Hm. cbn [Branches Children setChildren] in Hm.
  destruct (Branches n) as [|b [|b' bs]] eqn:Eb.
  - injection Hm as <-. split; [assumption|]. intros x Hx. simpl in Hx. congruence.
  - destruct (Z.eqb_spec b leafBranch) as [->|Nb].
    + injection Hm as <-. split; [assumption|]. intros x Hx. simpl in Hx. congruence.
    + destruct (lookup b cs') as [child|] eqn:El; [|discriminate].
      injection Hm as <-.
      destruct (Hfix b child (lookup_In _ _ _ El)) as [Hs Hst].
      split; [now rewrite Squash_setStep, Hs|]. exact Hst.
  - injection Hm as <-. split; [assumption|]. intros x Hx. simpl in Hx. congruence.
Qed.

Lemma Squash_fixed n n' : Squash n = Some n' -> Squash n' = Some n'.
Proof.
  intros Hs. rewrite Squash_eq in Hs.
  destruct (traverse squashChild (Children n)) as [cs'|] eqn:Et; [|discriminate].
  injection Hs as <-.
  apply (squashed_children_fixed n cs'); [|assumption].
  intros k c _. apply squashChild_fixed.
Qed.

End SquashTwice.

(** X6. [Squash] is idempotent: on a trie that [New] or [NewRangeTrie]
  returned without error [Squash] returns, and squashing the squashed trie
  again changes nothing. *)
Theorem Squash_twice_is_Squash_once (V : Type) (root : Node V) :
  built root ->
  exists squashed,
    Squash root = Some squashed /\ Squash squashed = Some squashed.
Proof.
  intros Hb. destruct (Squash_total root (built_inner root Hb)) as (sq & Hs).
  exists sq. split; [assumption|]. now apply (Squash_fixed root).
Qed.

Lemma Squash_twice_is_Squash_once_witness :
  exists squashed,
    Squash (root_of (New three_keys (Slice [7; 8; 9]))) = Some squashed
    /\ Squash squashed = Some squashed.
Proof.
  apply (Squash_twice_is_Squash_once Z (root_of (New three_keys (Slice [7; 8; 9])))).
  left. exists three_keys, (Slice [7; 8; 9]). vm_compute. reflexivity.
Defined.


Section RangeStarts.
Context {V : Type}.
Implicit Types (n m root : Node V) (key : list byte).

(** Every pair of [kvs] has its leaf in the trie, marked as a start and
  holding the value. *)
Definition start_leaves root (kvs : list (list byte * V)) : Prop :=
  forall k v, In (k, v) kvs ->
    exists leaf, leaf_at root k = Some leaf
                 /\ isStartLeaf leaf = true /\ Value leaf = Some v.

Lemma start_leaves_kept root root' kvs :
  start_leaves root kvs ->
  (forall k leaf, leaf_at root k = Some leaf ->
     exists leaf', leaf_at root' k = Some leaf'
                   /\ isStartLeaf leaf' = isStartLeaf leaf
                   /\ Value leaf' = Value leaf) ->
  start_leaves root' kvs.
Proof.
  intros Hs Hk k v Hin. destruct (Hs k v Hin) as (leaf & Hl & Hst & Hv).
  destruct (Hk k leaf Hl) as (leaf' & Hl' & Hst' & Hv').
  exists leaf'. split; [assumption|]. split; congruence.
Qed.

Lemma addKV_keeps_leaves root key (v : V) s e root' :
  inner root -> addKV root key v s e = inl root' ->
  forall k leaf, leaf_at root k = Some leaf ->
    exists leaf', leaf_at root' k = Some leaf'
                  /\ isStartLeaf leaf' = isStartLeaf leaf
                  /\ Value leaf' = Value leaf.
Proof.
  intros Hi Ha k leaf Hl. destruct (addKV_leaf_at _ _ _ _ _ _ Hi Ha) as [_ Hother].
  exists leaf. rewrite Hother; [auto|].
  intros ->. rewrite (addKV_duplicate key root v s e) in Ha; [discriminate|].
  congruence.
Qed.

Lemma markEndLeaf_keeps_leaves root s :
  forall k leaf, leaf_at root k = Some leaf ->
    exists leaf', leaf_at (markEndLeaf root s) k = Some leaf'
                  /\ isStartLeaf leaf' = isStartLeaf leaf
                  /\ Value leaf' = Value leaf.
Proof.
  intros k leaf Hl. rewrite markEndLeaf_leaf_at.
  destruct (key_eq_dec k s) as [->|_].
  - rewrite Hl. simpl. eauto.
  - eauto.
Qed.

Lemma NewRangeTrie_loop_starts starts :
  forall ends (vals : list V) root root' kvs,
  length starts = length ends -> length starts = length vals ->
  inner root -> start_leaves root kvs ->
  NewRangeTrie_loop root starts ends vals = (root', None) ->
  start_leaves root' (kvs ++ combine starts vals).
Proof.
  induction starts as [|s starts IH];
    intros ends vals root root' kvs Hle Hlv Hi Hs Hrun.
  - injection Hrun as E; subst root'. simpl. now rewrite app_nil_r.
  - destruct ends as [|e ends]; [discriminate|].
    destruct vals as [|v vals]; [discriminate|].
    cbn [NewRangeTrie_loop] in Hrun. simpl in Hle, Hlv.
    destruct (addKV root s v true false) as [root1|] eqn:E1; [|discriminate].
    destruct (addKV_inner _ _ _ _ _ _ Hi E1) as [Hi1 _].
    assert (Hs1 : start_leaves root1 (kvs ++ [(s, v)])).
    { intros k v0 Hin. apply in_app_or in Hin as [Hin|[[= <- <-]|[]]].
      - apply (start_leaves_kept root root1 kvs Hs
                 (addKV_keeps_leaves root s v true false root1 Hi E1) k v0 Hin).
      - destruct (addKV_leaf_at _ _ _ _ _ _ Hi E1) as [Hnew _].
        exists (newLeaf v true false). auto. }
    cbn [combine]. replace (kvs ++ (s, v) :: combine starts vals)
      with ((kvs ++ [(s, v)]) ++ combine starts vals)
      by now rewrite <- app_assoc.
    destruct (addKV root1 e v false true) as [root2|err] eqn:E2.
    + destruct (addKV_inner _ _ _ _ _ _ Hi1 E2) as [Hi2 _].
      apply (IH ends vals root2); try lia; try assumption.
      apply (start_leaves_kept root1 root2 _ Hs1).
      apply (addKV_keeps_leaves root1 e v false true root2 Hi1 E2).
    + destruct err; try discriminate.
      apply (IH ends vals (markEndLeaf root1 s)); try lia; try assumption.
      * now apply markEndLeaf_inner.
      * apply (start_leaves_kept root1 _ _ Hs1).
        apply markEndLeaf_keeps_leaves.
Qed.

End RangeStarts.

(** X7. In a range trie that [NewRangeTrie] returned without error from
  ranges whose boundaries ascend, every start key is still found after
  [RemoveEndLeaves]: [Search] returns eq = the value of its range. *)
Theorem start_boundary_stays_found (V : Type) starts ends (vals : list V)
        root key v :
  bounds_ascending starts ends = true ->
  NewRangeTrie starts ends (Slice vals) = (Some root, None) ->
  In (key, v) (combine starts vals) ->
  exists ltValue gtValue : option V,
    Search (RemoveEndLeaves root) key = Some (ltValue, Some v, gtValue).
Proof.
  intros Hasc Hnew Hin.
  destruct (NewRangeTrie_ascending _ _ _ _ Hasc Hnew) as [Hi Ha].
  assert (Hst : start_leaves root (combine starts vals)).
  { unfold NewRangeTrie in Hnew. simpl in Hnew.
    destruct (Z.eqb_spec (len starts) (len ends)) as [E1|]; [|discriminate].
    destruct (Z.eqb_spec (len starts) (len vals)) as [E2|]; [|discriminate].
    simpl in Hnew.
    destruct (NewRangeTrie_loop newNode starts ends vals) as [r e] eqn:E.
    injection Hnew as -> ->. unfold len in *.
    apply (NewRangeTrie_loop_starts starts ends vals newNode root []);
      try lia; auto using inner_newNode.
    intros k v0 []. }
  destruct (Hst key v Hin) as (leaf & Hl & Hs & Hv).
  pose proof (RemoveEndLeaves_inner root Hi Ha) as Hi'.
  assert (Hkept : leaf_at (RemoveEndLeaves root) key = Some leaf).
  { rewrite (RemoveEndLeaves_leaf_at key root Hi Ha), Hl.
    unfold endOnly. now rewrite Hs, andb_false_r. }
  assert (Hne : Branches (RemoveEndLeaves root) <> []).
  { apply (leaf_at_branches _ key Hi'). rewrite Hkept. discriminate. }
  destruct (Search_plain (RemoveEndLeaves root) key Hi' Hne) as (lv & gv & Hsearch).
  exists lv, gv. now rewrite Hsearch, Hkept, Hv.
Qed.

Lemma start_boundary_stays_found_witness :
  exists ltValue gtValue : option Z,
    Search (RemoveEndLeaves
              (root_of (NewRangeTrie [key_of [1%N]; key_of [3%N]]
                                     [key_of [2%N]; key_of [3%N]] (Slice [7; 8]))))
           (key_of [3%N])
    = Some (ltValue, Some 8, gtValue).
Proof.
  apply (start_boundary_stays_found Z [key_of [1%N]; key_of [3%N]]
           [key_of [2%N]; key_of [3%N]] [7; 8]).
  - reflexivity.
  - vm_compute. reflexivity.
  - right. now left.
Defined.


Section NothingToPrune.
Context {V : Type}.
Implicit Types (n m c root : Node V) (key : list byte).

(** No leaf of the trie is an end-only leaf. *)
Definition clean n : Prop :=
  forall k leaf, leaf_at n k = Some leaf -> endOnly leaf = false.

Lemma pruneLoop_fixed cs : forall bs,
  (forall k c, In (k, c) cs ->
     Branches c = [] \/ (Branches c <> [] /\ RemoveEndLeaves c = c)) ->
  pruneLoop false cs bs = (cs, bs).
Proof.
  induction cs as [|[k c] cs IH]; intros bs H; [reflexivity|].
  cbn [pruneLoop andb].
  rewrite (IH bs) by (intros k' c' Hin; apply (H k'); now right).
  destruct (H k c ltac:(now left)) as [E|[Hne E]].
  - now rewrite E.
  - rewrite E. destruct (Branches c) as [|b bs']; [congruence|].
    unfold len. simpl. reflexivity.
Qed.

Lemma clean_fixed : forall n, inner n -> clean n -> RemoveEndLeaves n = n.
Proof.
  induction n as [n IH] using Node_induction. intros Hi Hc.
  rewrite RemoveEndLeaves_eq. cbv zeta.
  assert (Hd : endOnlyLeaf (Children n) = false).
  { unfold endOnlyLeaf. destruct (lookup leafBranch (Children n)) as [leaf|] eqn:El;
      [|reflexivity].
    apply (Hc [] leaf). unfold leaf_at. simpl. assumption. }
  rewrite Hd. rewrite pruneLoop_fixed; [now destruct n|].
  intros k c Hin. destruct (inner_children _ _ _ Hi Hin) as [[_ Hl]|(Hk & Hic & Hnc)].
  - left. destruct Hl as (v & s & e & ->). reflexivity.
  - right. split; [assumption|]. apply (IH k c Hin Hic).
    destruct (byte_of_branch k Hk) as (b & Hb).
    intros path leaf Hl. apply (Hc (b :: path) leaf).
    rewrite leaf_at_cons, Hb.
    assert (Hlk : lookup k (Children n) = Some c).
    { apply In_lookup; [|assumption]. rewrite <- (inner_keys _ Hi).
      now apply inner_NoDup. }
    now rewrite Hlk.
Qed.

End NothingToPrune.

(** X8. [RemoveEndLeaves] leaves a trie built by [New] as it is: [New]
  marks no leaf as the end of a range. *)
Theorem RemoveEndLeaves_keeps_plain_trie (V : Type) keys (vals : list V) root :
  New keys (Slice vals) = (Some root, None) -> RemoveEndLeaves root = root.
Proof.
  intros Hnew. destruct (New_holds _ _ _ Hnew) as [Hi Hleaf].
  apply clean_fixed; [assumption|].
  intros k leaf Hl. rewrite Hleaf in Hl.
  destruct (assoc k (combine keys vals)); [|discriminate].
  now injection Hl as <-.
Qed.

Lemma RemoveEndLeaves_keeps_plain_trie_witness :
  RemoveEndLeaves (root_of (New three_keys (Slice [7; 8; 9])))
  = root_of (New three_keys (Slice [7; 8; 9])).
Proof.
  apply (RemoveEndLeaves_keeps_plain_trie Z three_keys [7; 8; 9]).
  vm_compute. reflexivity.
Defined.

(** X9. [RemoveEndLeaves] is idempotent on a range trie that [NewRangeTrie]
  returned without error from ranges whose boundaries ascend: pruning the
  pruned trie again changes nothing. *)
Theorem RemoveEndLeaves_twice_is_once (V : Type) starts ends
        (values : GoValues V) root :
  bounds_ascending starts ends = true ->
  NewRangeTrie starts ends values = (Some root, None) ->
  RemoveEndLeaves (RemoveEndLeaves root) = RemoveEndLeaves root.
Proof.
  intros Hasc Hnew.
  destruct (NewRangeTrie_ascending _ _ _ _ Hasc Hnew) as [Hi Ha].
  apply clean_fixed; [now apply RemoveEndLeaves_inner|].
  intros k leaf. rewrite (RemoveEndLeaves_leaf_at k root Hi Ha).
  destruct (leaf_at root k) as [l0|]; [|discriminate].
  destruct (endOnly l0) eqn:E; [discriminate|]. now intros [= <-].
Qed.

Lemma RemoveEndLeaves_twice_is_once_witness :
  RemoveEndLeaves (RemoveEndLeaves ranges_example)
  = RemoveEndLeaves ranges_example.
Proof.
  apply (RemoveEndLeaves_twice_is_once Z [key_of [1%N]; key_of [3%N]]
           [key_of [2%N]; key_of [3%N]] (Slice [7; 8])).
  - reflexivity.
  - vm_compute. reflexivity.
Defined.


Section Neighbours.

Lemma index_at_len {A} (a : list A) x c : index (a ++ x :: c) (len a) = Some x.
Proof.
  unfold index, len. destruct (Z.ltb_spec (Z.of_nat (length a)) 0); [lia|].
  rewrite Nat2Z.id. rewrite nth_error_app2 by lia.
  now rewrite Nat.sub_diag.
Qed.

Lemma last_or_nil {A} (l : list A) :
  (exists l0 x, l = l0 ++ [x]) \/ l = [].
Proof.
  induction l as [|y l IH] using rev_ind; [now right|]. left. eauto.
Qed.

Lemma ascending_split pre x post :
  ascending (pre ++ x :: post) ->
  (forall y, In y pre -> y < x) /\ (forall y, In y post -> x < y).
Proof.
  intros Ha. split; intros y Hy;
    destruct (ascending_lt_all pre x post y Ha); auto.
Qed.

(** The loop of [neighborBranches] stops at the first branch that is not
  below [br], or at the last branch. *)
Lemma scan_split rest : forall i b br i' b',
  scan i b rest br = (i', b') ->
  exists pre post,
    b :: rest = pre ++ b' :: post /\ i' = i + len pre
    /\ Forall (fun x => x < br) pre /\ (br <= b' \/ post = []).
Proof.
  induction rest as [|b1 rest IH]; intros i b br i' b' Hs; cbn [scan] in Hs.
  - exists [], []. assert (E : (i', b') = (i, b)) by (destruct (b >=? br); congruence).
    injection E as -> ->. split; [reflexivity|]. split; [unfold len; simpl; lia|].
    split; [constructor|now right].
  - destruct (Z.geb_spec b br) as [Hge|Hlt].
    + injection Hs as <- <-. exists [], (b1 :: rest).
      split; [reflexivity|]. split; [unfold len; simpl; lia|].
      split; [constructor|left; lia].
    + destruct (IH _ _ _ _ _ Hs) as (pre & post & E & Hi & Hf & Hp).
      exists (b :: pre), post. split; [simpl; now rewrite E|].
      split; [unfold len in *; cbn [length]; lia|].
      split; [constructor; assumption|assumption].
Qed.

(** The indexes [neighborBranches] returns on ascending branches. *)
Lemma neighbours_of_branch (bs : list Z) (br li ri : Z) :
  ascending bs -> bs <> [] -> neighborBranches bs br = (li, ri) ->
  ((li = -1 /\ forall b, In b bs -> br <= b)
   \/ exists bl, index bs li = Some bl /\ bl < br
                 /\ forall b, In b bs -> b < br -> b <= bl)
  /\ ((ri = -1 /\ forall b, In b bs -> b <= br)
      \/ exists bg, index bs ri = Some bg /\ br < bg
                    /\ forall b, In b bs -> br < b -> bg <= b).
Proof.
  intros Ha Hne Hn. destruct bs as [|b0 rest]; [congruence|].
  unfold neighborBranches in Hn.
  destruct (scan 0 b0 rest br) as [i' b'] eqn:Es.
  destruct (scan_split _ _ _ _ _ _ Es) as (pre & post & E & Hi & Hf & Hp).
  rewrite E in *. clear E Es. simpl in Hi. subst i'.
  destruct (ascending_split _ _ _ Ha) as [Hpre Hpost].
  rewrite Forall_forall in Hf.
  assert (Hin : forall b, In b (pre ++ b' :: post) ->
                  In b pre \/ b = b' \/ In b post).
  { intros b Hb. apply in_app_or in Hb as [?|[?|?]]; auto. }
  (* the branch before [b'] *)
  assert (Hbefore : br <= b' ->
    (len pre - 1 = -1 /\ forall b, In b (pre ++ b' :: post) -> br <= b)
    \/ exists bl, index (pre ++ b' :: post) (len pre - 1) = Some bl /\ bl < br
                  /\ forall b, In b (pre ++ b' :: post) -> b < br -> b <= bl).
  { intros Hge. destruct (last_or_nil pre) as [(pre0 & bl & ->)|Hnil].
    - right. exists bl. split.
      + replace (len (pre0 ++ [bl]) - 1) with (len pre0)
          by (unfold len; rewrite length_app; simpl; lia).
        rewrite <- app_assoc. apply index_at_len.
      + split; [apply Hf, in_or_app; right; now left|].
        intros b Hb Hlt. apply Hin in Hb as [Hb|[->|Hb]].
        * apply in_app_or in Hb as [Hb|[->|[]]]; [|lia].
          pose proof (ascending_app_l _ _ Ha) as Ha0.
          destruct (ascending_split pre0 bl [] Ha0) as [H1 _].
          specialize (H1 b Hb). lia.
        * lia.
        * specialize (Hpost b Hb). lia.
    - left. subst pre. split; [reflexivity|].
      intros b Hb. apply Hin in Hb as [[]|[->|Hb]]; [lia|].
      specialize (Hpost b Hb). lia. }
  destruct (Z.eqb_spec b' br) as [Heq|Hneq].
  - injection Hn as <- <-. split; [apply Hbefore; lia|].
    destruct post as [|bg post'].
    + left. split.
      * destruct (Z.eqb_spec (len pre + 1) (len (pre ++ [b']))) as [_|Hx];
          [reflexivity|].
        exfalso. apply Hx. unfold len. rewrite length_app. simpl. lia.
      * intros b Hb. apply Hin in Hb as [Hb|[->|[]]]; [|lia].
        specialize (Hf b Hb). lia.
    + right. exists bg.
      destruct (Z.eqb_spec (len pre + 1) (len (pre ++ b' :: bg :: post'))) as [Hx|_].
      { exfalso. unfold len in Hx. rewrite length_app in Hx. simpl in Hx. lia. }
      split.
      * replace (pre ++ b' :: bg :: post') with ((pre ++ [b']) ++ bg :: post')
          by now rewrite <- app_assoc.
        replace (len pre + 1) with (len (pre ++ [b']))
          by (unfold len; rewrite length_app; simpl; lia).
        apply index_at_len.
      * split; [specialize (Hpost bg ltac:(now left)); lia|].
        intros b Hb Hgt. apply Hin in Hb as [Hb|[->|[->|Hb]]]; try lia.
        -- specialize (Hf b Hb). lia.
        -- replace (pre ++ b' :: bg :: post') with ((pre ++ [b']) ++ bg :: post') in Ha
             by now rewrite <- app_assoc.
           destruct (ascending_split _ _ _ Ha) as [_ H2]. specialize (H2 b Hb). lia.
  - destruct (Z.gtb_spec b' br) as [Hgt|Hle].
    + injection Hn as <- <-. split; [apply Hbefore; lia|].
      right. exists b'. split; [apply index_at_len|]. split; [lia|].
      intros b Hb Hb'. apply Hin in Hb as [Hb|[->|Hb]]; try lia.
      * specialize (Hf b Hb). lia.
      * specialize (Hpost b Hb). lia.
    + injection Hn as <- <-.
      destruct Hp as [Hge | ->]; [lia|]. split.
      * right. exists b'. split; [apply index_at_len|]. split; [lia|].
        intros b Hb _. apply Hin in Hb as [Hb|[->|[]]]; [|lia].
        specialize (Hpre b Hb). lia.
      * left. split; [reflexivity|].
        intros b Hb. apply Hin in Hb as [Hb|[->|[]]]; [|lia].
        specialize (Hf b Hb). lia.
Qed.

End Neighbours.

(** X10. On a non-empty slice of ascending branches, [neighborBranches]
  returns the index of the greatest branch below [br], or -1 when no branch
  is below [br], and the index of the smallest branch above [br], or -1
  when no branch is above [br]. *)
Theorem neighborBranches_finds_neighbours (bs : list Z) (br li ri : Z) :
  ascending bs -> bs <> [] -> neighborBranches bs br = (li, ri) ->
  ((li = -1 /\ forall b, In b bs -> br <= b)
   \/ exists bl, index bs li = Some bl /\ bl < br
                 /\ forall b, In b bs -> b < br -> b <= bl)
  /\ ((ri = -1 /\ forall b, In b bs -> b <= br)
      \/ exists bg, index bs ri = Some bg /\ br < bg
                    /\ forall b, In b bs -> br < b -> bg <= b).
Proof. apply neighbours_of_branch. Qed.

Lemma neighborBranches_finds_neighbours_witness :
  ((1 = -1 /\ forall b, In b [-1; 3; 7; 9] -> 5 <= b)
   \/ exists bl, index [-1; 3; 7; 9] 1 = Some bl /\ bl < 5
                 /\ forall b, In b [-1; 3; 7; 9] -> b < 5 -> b <= bl)
  /\ ((2 = -1 /\ forall b, In b [-1; 3; 7; 9] -> b <= 5)
      \/ exists bg, index [-1; 3; 7; 9] 2 = Some bg /\ 5 < bg
                    /\ forall b, In b [-1; 3; 7; 9] -> 5 < b -> bg <= b).
Proof.
  apply (neighborBranches_finds_neighbours [-1; 3; 7; 9] 5 1 2).
  - unfold ascending. repeat (constructor; try lia).
  - discriminate.
  - reflexivity.
Defined.


Section KeyOrder.
Context {V : Type}.
Implicit Types (n m c root : Node V) (key k : list byte).

(** The branch a key takes at a node: the sentinel for the empty key. *)
Definition first_branch k : Z :=
  match k with
  | [] => leafBranch
  | x :: _ => int_of_byte x
  end.

(** The trie below [n] holds the key [k]. *)
Definition has n k : Prop := leaf_at n k <> None.

Lemma ltb_first k1 k2 :
  first_branch k1 < first_branch k2 -> key_ltb k1 k2 = true.
Proof.
  destruct k1 as [|x a], k2 as [|y b]; simpl; intros H.
  - lia.
  - reflexivity.
  - pose proof (int_of_byte_range x). unfold leafBranch in H. lia.
  - apply Z.ltb_lt in H. now rewrite H.
Qed.

Lemma ltb_first_le k1 k2 :
  key_ltb k1 k2 = true -> first_branch k1 <= first_branch k2.
Proof.
  destruct k1 as [|x a], k2 as [|y b]; simpl; intros H; try discriminate.
  - pose proof (int_of_byte_range y). unfold leafBranch. lia.
  - apply orb_true_iff in H as [H|H].
    + apply Z.ltb_lt in H. lia.
    + apply andb_true_iff in H as [H _]. apply Z.eqb_eq in H. lia.
Qed.

Lemma ltb_cons x a b : key_ltb (x :: a) (x :: b) = key_ltb a b.
Proof. simpl. now rewrite Z.ltb_irrefl, Z.eqb_refl. Qed.

Lemma ltb_nil_r k : key_ltb k [] = false.
Proof. now destruct k. Qed.

Lemma has_first n k : inner n -> has n k -> In (first_branch k) (Branches n).
Proof.
  intros Hi Hk. rewrite (inner_keys _ Hi). unfold has in Hk.
  destruct k as [|x r]; simpl.
  - unfold leaf_at in Hk. simpl in Hk.
    destruct (lookup leafBranch (Children n)) eqn:E; [|congruence].
    eapply lookup_Some_keys; eauto.
  - rewrite leaf_at_cons in Hk.
    destruct (lookup (int_of_byte x) (Children n)) eqn:E; [|congruence].
    eapply lookup_Some_keys; eauto.
Qed.

Lemma last_cons (bs : list Z) : forall b0 b1, last (b1 :: bs) b0 = last bs b1.
Proof.
  induction bs as [|b2 bs IH]; intros b0 b1; [reflexivity|].
  change (last (b1 :: b2 :: bs) b0) with (last (b2 :: bs) b0).
  now rewrite (IH b0 b2), (IH b1 b2).
Qed.

Lemma ascending_last bs : forall b0,
  ascending (b0 :: bs) -> forall b, In b (b0 :: bs) -> b <= last bs b0.
Proof.
  induction bs as [|b1 bs IH]; intros b0 Ha b Hb.
  - destruct Hb as [->|[]]. simpl. lia.
  - rewrite last_cons. apply StronglySorted_inv in Ha as [Ha Hall].
    destruct Hb as [->|Hb]; [|now apply IH].
    rewrite Forall_forall in Hall.
    specialize (Hall b1 ltac:(now left)).
    specialize (IH b1 Ha b1 ltac:(now left)). lia.
Qed.

Lemma ascending_head b0 bs :
  ascending (b0 :: bs) -> forall b, In b (b0 :: bs) -> b0 <= b.
Proof.
  intros Ha b Hb. apply StronglySorted_inv in Ha as [_ Hall].
  rewrite Forall_forall in Hall. destruct Hb as [->|Hb]; [lia|].
  specialize (Hall b Hb). lia.
Qed.

(** [rightMost] reaches the leaf of the greatest key below [n]. *)
Definition max_in n : Prop :=
  exists kmax leaf,
    rightMost n = Some leaf /\ leaf_at n kmax = Some leaf
    /\ forall k, has n k -> k = kmax \/ key_ltb k kmax = true.

(** [leftMost] reaches the leaf of the smallest key below [n]. *)
Definition min_in n : Prop :=
  exists kmin leaf,
    leftMost n = Some leaf /\ leaf_at n kmin = Some leaf
    /\ forall k, has n k -> k = kmin \/ key_ltb kmin k = true.

(** The same for the keys of [n] that go through the branch [b], whose
  child is [c]. *)
Definition max_through n b c : Prop :=
  exists kmax leaf,
    rightMost c = Some leaf /\ leaf_at n kmax = Some leaf
    /\ first_branch kmax = b
    /\ forall k, has n k -> first_branch k = b ->
         k = kmax \/ key_ltb k kmax = true.

Definition min_through n b c : Prop :=
  exists kmin leaf,
    leftMost c = Some leaf /\ leaf_at n kmin = Some leaf
    /\ first_branch kmin = b
    /\ forall k, has n k -> first_branch k = b ->
         k = kmin \/ key_ltb kmin k = true.

Lemma leaf_child_through n c :
  inner n -> lookup leafBranch (Children n) = Some c ->
  rightMost c = Some c /\ leftMost c = Some c /\ leaf_at n [] = Some c
  /\ forall k, first_branch k = leafBranch -> k = [].
Proof.
  intros Hi Hc. destruct (inner_lookup_leaf _ _ Hi Hc) as (v & s & e & ->).
  split; [reflexivity|]. split; [reflexivity|]. split; [exact Hc|].
  intros [|x r] Hk; [reflexivity|]. simpl in Hk.
  now apply int_of_byte_not_leaf in Hk.
Qed.

Lemma byte_child_keys n x c k :
  lookup (int_of_byte x) (Children n) = Some c ->
  has n k -> first_branch k = int_of_byte x ->
  exists r, k = x :: r /\ has c r.
Proof.
  intros Hc Hk Hf. destruct k as [|y r]; simpl in Hf.
  - now apply leaf_not_byte in Hf.
  - apply int_of_byte_inj in Hf. subst y. exists r. split; [reflexivity|].
    unfold has in *. now rewrite leaf_at_cons, Hc in Hk.
Qed.

Lemma max_through_child n b c :
  inner n ->
  (forall (b' : Z) c', In (b', c') (Children n) -> inner c' -> Branches c' <> [] ->
     max_in c') ->
  lookup b (Children n) = Some c -> max_through n b c.
Proof.
  intros Hi IH Hc. pose proof (lookup_In _ _ _ Hc) as Hin.
  destruct (inner_children _ _ _ Hi Hin) as [[-> _]|(Hb & Hic & Hnc)].
  - destruct (leaf_child_through n c Hi Hc) as (Hr & _ & Hl & Hk).
    exists [], c. split; [assumption|]. split; [assumption|].
    split; [reflexivity|]. intros k _ Hf. left. auto.
  - destruct (byte_of_branch b Hb) as (x & <-).
    destruct (IH _ _ Hin Hic Hnc) as (kmax & leaf & Hr & Hl & Hmax).
    exists (x :: kmax), leaf. split; [assumption|].
    split; [now rewrite leaf_at_cons, Hc|]. split; [reflexivity|].
    intros k Hk Hf. destruct (byte_child_keys n x c k Hc Hk Hf) as (r & -> & Hr').
    destruct (Hmax r Hr') as [->|Hlt]; [now left|right].
    now rewrite ltb_cons.
Qed.

Lemma min_through_child n b c :
  inner n ->
  (forall (b' : Z) c', In (b', c') (Children n) -> inner c' -> Branches c' <> [] ->
     min_in c') ->
  lookup b (Children n) = Some c -> min_through n b c.
Proof.
  intros Hi IH Hc. pose proof (lookup_In _ _ _ Hc) as Hin.
  destruct (inner_children _ _ _ Hi Hin) as [[-> _]|(Hb & Hic & Hnc)].
  - destruct (leaf_child_through n c Hi Hc) as (_ & Hr & Hl & Hk).
    exists [], c. split; [assumption|]. split; [assumption|].
    split; [reflexivity|]. intros k _ Hf. left. auto.
  - destruct (byte_of_branch b Hb) as (x & <-).
    destruct (IH _ _ Hin Hic Hnc) as (kmin & leaf & Hr & Hl & Hmin).
    exists (x :: kmin), leaf. split; [assumption|].
    split; [now rewrite leaf_at_cons, Hc|]. split; [reflexivity|].
    intros k Hk Hf. destruct (byte_child_keys n x c k Hc Hk Hf) as (r & -> & Hr').
    destruct (Hmin r Hr') as [->|Hlt]; [now left|right].
    now rewrite ltb_cons.
Qed.

Lemma rightMost_is_max : forall n,
  inner n -> branches_ascending n -> Branches n <> [] -> max_in n.
Proof.
  induction n as [n IH] using Node_induction. intros Hi Ha Hne.
  destruct (Branches n) as [|b0 bs] eqn:Eb; [congruence|].
  pose proof (all_nodes_here _ _ Ha) as Hasc. simpl in Hasc. rewrite Eb in Hasc.
  destruct (inner_branch_child n (last bs b0) Hi) as (c & Hc & _).
  { rewrite Eb. apply last_In. }
  destruct (max_through_child n (last bs b0) c Hi) as (kmax & leaf & Hr & Hl & Hf & Hmax);
    [|assumption|].
  { intros k c' Hin Hic Hnc. apply (IH k c' Hin Hic); [|assumption].
    eapply all_nodes_child; eauto. }
  exists kmax, leaf. split; [now rewrite rightMost_eq, Eb, Hc|].
  split; [assumption|]. intros k Hk.
  pose proof (has_first n k Hi Hk) as Hin. rewrite Eb in Hin.
  pose proof (ascending_last bs b0 Hasc _ Hin) as Hle.
  destruct (Z.eq_dec (first_branch k) (last bs b0)) as [E|Hneq].
  - now apply Hmax.
  - right. apply ltb_first. lia.
Qed.

Lemma leftMost_is_min : forall n,
  inner n -> branches_ascending n -> Branches n <> [] -> min_in n.
Proof.
  induction n as [n IH] using Node_induction. intros Hi Ha Hne.
  destruct (Branches n) as [|b0 bs] eqn:Eb; [congruence|].
  pose proof (all_nodes_here _ _ Ha) as Hasc. simpl in Hasc. rewrite Eb in Hasc.
  destruct (inner_branch_child n b0 Hi) as (c & Hc & _).
  { rewrite Eb. now left. }
  destruct (min_through_child n b0 c Hi) as (kmin & leaf & Hr & Hl & Hf & Hmin);
    [|assumption|].
  { intros k c' Hin Hic Hnc. apply (IH k c' Hin Hic); [|assumption].
    eapply all_nodes_child; eauto. }
  exists kmin, leaf. split; [now rewrite leftMost_eq, Eb, Hc|].
  split; [assumption|]. intros k Hk.
  pose proof (has_first n k Hi Hk) as Hin. rewrite Eb in Hin.
  pose proof (ascending_head b0 bs Hasc _ Hin) as Hle.
  destruct (Z.eq_dec (first_branch k) b0) as [E|Hneq].
  - now apply Hmin.
  - right. apply ltb_first. lia.
Qed.

End KeyOrder.


Section Ordered.
Context {V : Type}.
Implicit Types (n m c root : Node V) (key k rest : list byte).

Lemma first_branch_ge k : leafBranch <= first_branch k.
Proof.
  destruct k as [|x r]; simpl; [lia|].
  pose proof (int_of_byte_range x). unfold leafBranch. lia.
Qed.

Lemma first_branch_leaf k : first_branch k <= leafBranch -> k = [].
Proof.
  destruct k as [|x r]; simpl; [reflexivity|].
  pose proof (int_of_byte_range x). unfold leafBranch. lia.
Qed.

Lemma index_In {A} (l : list A) i x : index l i = Some x -> In x l.
Proof.
  unfold index. destruct (i <? 0); [discriminate|]. apply nth_error_In.
Qed.

(** What the candidate on the left is after one iteration at [n], where
  the key takes the branch [br]: the subtree of the greatest branch below
  [br], or the candidate as it was. *)
Definition lt_cand n br (lt lt' : option (Node V)) : Prop :=
  (exists kmax leaf,
      resolve rightMost lt' = Some (Value leaf) /\ leaf_at n kmax = Some leaf
      /\ first_branch kmax < br
      /\ forall k, has n k -> first_branch k < br ->
           k = kmax \/ key_ltb k kmax = true)
  \/ (lt' = lt /\ forall k, has n k -> br <= first_branch k).

Definition gt_cand n br (gt gt' : option (Node V)) : Prop :=
  (exists kmin leaf,
      resolve leftMost gt' = Some (Value leaf) /\ leaf_at n kmin = Some leaf
      /\ br < first_branch kmin
      /\ forall k, has n k -> br < first_branch k ->
           k = kmin \/ key_ltb kmin k = true)
  \/ (gt' = gt /\ forall k, has n k -> first_branch k <= br).

Lemma lt_candidate n br li lt :
  inner n -> branches_ascending n ->
  ((li = -1 /\ forall b, In b (Branches n) -> br <= b)
   \/ exists bl, index (Branches n) li = Some bl /\ bl < br
                 /\ forall b, In b (Branches n) -> b < br -> b <= bl) ->
  exists lt', candidate n li lt = Some lt' /\ lt_cand n br lt lt'.
Proof.
  intros Hi Ha [[-> Hall]|(bl & Hidx & Hlt & Hmax)]; unfold candidate.
  - simpl. exists lt. split; [reflexivity|]. right. split; [reflexivity|].
    intros k Hk. apply Hall. now apply has_first.
  - pose proof (index_Some_lt _ _ _ Hidx) as Hr.
    destruct (Z.geb_spec li 0); [|lia]. rewrite Hidx.
    destruct (inner_branch_child n bl Hi (index_In _ _ _ Hidx)) as (c & Hc & _).
    rewrite Hc. exists (Some c). split; [reflexivity|]. left.
    destruct (max_through_child n bl c Hi) as (kmax & leaf & Hr' & Hl & Hf & Hm);
      [|assumption|].
    { intros b' c' Hin Hic Hnc. apply rightMost_is_max; try assumption.
      eapply all_nodes_child; eauto. }
    exists kmax, leaf. simpl. rewrite Hr'. split; [reflexivity|].
    split; [assumption|]. split; [lia|].
    intros k Hk Hkb.
    pose proof (Hmax _ (has_first n k Hi Hk) Hkb) as Hle.
    destruct (Z.eq_dec (first_branch k) bl) as [E|Hneq]; [now apply Hm|].
    right. apply ltb_first. lia.
Qed.

Lemma gt_candidate n br ri gt :
  inner n -> branches_ascending n ->
  ((ri = -1 /\ forall b, In b (Branches n) -> b <= br)
   \/ exists bg, index (Branches n) ri = Some bg /\ br < bg
                 /\ forall b, In b (Branches n) -> br < b -> bg <= b) ->
  exists gt', candidate n ri gt = Some gt' /\ gt_cand n br gt gt'.
Proof.
  intros Hi Ha [[-> Hall]|(bg & Hidx & Hlt & Hmin)]; unfold candidate.
  - simpl. exists gt. split; [reflexivity|]. right. split; [reflexivity|].
    intros k Hk. apply Hall. now apply has_first.
  - pose proof (index_Some_lt _ _ _ Hidx) as Hr.
    destruct (Z.geb_spec ri 0); [|lia]. rewrite Hidx.
    destruct (inner_branch_child n bg Hi (index_In _ _ _ Hidx)) as (c & Hc & _).
    rewrite Hc. exists (Some c). split; [reflexivity|]. left.
    destruct (min_through_child n bg c Hi) as (kmin & leaf & Hr' & Hl & Hf & Hm);
      [|assumption|].
    { intros b' c' Hin Hic Hnc. apply leftMost_is_min; try assumption.
      eapply all_nodes_child; eauto. }
    exists kmin, leaf. simpl. rewrite Hr'. split; [reflexivity|].
    split; [assumption|]. split; [lia|].
    intros k Hk Hkb.
    pose proof (Hmin _ (has_first n k Hi Hk) Hkb) as Hle.
    destruct (Z.eq_dec (first_branch k) bg) as [E|Hneq]; [now apply Hm|].
    right. apply ltb_first. lia.
Qed.

(** What [Search] answers on the left for the keys below [n]: the value
  of the greatest key below [rest], or what the candidate [lt] gives when
  there is none. *)
Definition pred_in n rest (lt lt' : option (Node V)) : Prop :=
  (exists kmax leaf,
      resolve rightMost lt' = Some (Value leaf) /\ leaf_at n kmax = Some leaf
      /\ key_ltb kmax rest = true
      /\ forall k, has n k -> key_ltb k rest = true ->
           k = kmax \/ key_ltb k kmax = true)
  \/ (resolve rightMost lt' = resolve rightMost lt
      /\ forall k, has n k -> key_ltb k rest = false).

Definition succ_in n rest (gt gt' : option (Node V)) : Prop :=
  (exists kmin leaf,
      resolve leftMost gt' = Some (Value leaf) /\ leaf_at n kmin = Some leaf
      /\ key_ltb rest kmin = true
      /\ forall k, has n k -> key_ltb rest k = true ->
           k = kmin \/ key_ltb kmin k = true)
  \/ (resolve leftMost gt' = resolve leftMost gt
      /\ forall k, has n k -> key_ltb rest k = false).

Lemma pred_from_candidate n rest lt lt' lt'' :
  lt_cand n (first_branch rest) lt lt' ->
  resolve rightMost lt'' = resolve rightMost lt' ->
  (forall k, has n k -> first_branch k = first_branch rest ->
     key_ltb k rest = false) ->
  pred_in n rest lt lt''.
Proof.
  intros [(kmax & leaf & Hr & Hl & Hf & Hm)|[-> Hall]] Hsame Hexact.
  - left. exists kmax, leaf. split; [congruence|]. split; [assumption|].
    split; [now apply ltb_first|].
    intros k Hk Hlt. pose proof (ltb_first_le _ _ Hlt) as Hle.
    destruct (Z.eq_dec (first_branch k) (first_branch rest)) as [E|Hneq].
    + rewrite (Hexact k Hk E) in Hlt. discriminate.
    + apply Hm; [assumption|lia].
  - right. split; [assumption|].
    intros k Hk. destruct (key_ltb k rest) eqn:Hlt; [|reflexivity].
    pose proof (ltb_first_le _ _ Hlt) as Hle. specialize (Hall k Hk).
    rewrite (Hexact k Hk) in Hlt; [discriminate|lia].
Qed.

Lemma succ_from_candidate n rest gt gt' gt'' :
  gt_cand n (first_branch rest) gt gt' ->
  resolve leftMost gt'' = resolve leftMost gt' ->
  (forall k, has n k -> first_branch k = first_branch rest ->
     key_ltb rest k = false) ->
  succ_in n rest gt gt''.
Proof.
  intros [(kmin & leaf & Hr & Hl & Hf & Hm)|[-> Hall]] Hsame Hexact.
  - left. exists kmin, leaf. split; [congruence|]. split; [assumption|].
    split; [now apply ltb_first|].
    intros k Hk Hlt. pose proof (ltb_first_le _ _ Hlt) as Hle.
    destruct (Z.eq_dec (first_branch k) (first_branch rest)) as [E|Hneq].
    + rewrite (Hexact k Hk E) in Hlt. discriminate.
    + apply Hm; [assumption|lia].
  - right. split; [assumption|].
    intros k Hk. destruct (key_ltb rest k) eqn:Hlt; [|reflexivity].
    pose proof (ltb_first_le _ _ Hlt) as Hle. specialize (Hall k Hk).
    rewrite (Hexact k Hk) in Hlt; [discriminate|lia].
Qed.

Lemma pred_from_child n x rest c lt lt' lt'' :
  lookup (int_of_byte x) (Children n) = Some c ->
  lt_cand n (int_of_byte x) lt lt' ->
  pred_in c rest lt' lt'' ->
  pred_in n (x :: rest) lt lt''.
Proof.
  intros Hc Hcand [(kmax & leaf & Hr & Hl & Hlt & Hm)|[Hsame Hnone]].
  - left. exists (x :: kmax), leaf. split; [assumption|].
    split; [now rewrite leaf_at_cons, Hc|]. split; [now rewrite ltb_cons|].
    intros k Hk Hk'. pose proof (ltb_first_le _ _ Hk') as Hle. simpl in Hle.
    destruct (Z.eq_dec (first_branch k) (int_of_byte x)) as [E|Hneq].
    + destruct (byte_child_keys n x c k Hc Hk E) as (r & -> & Hr').
      rewrite ltb_cons in Hk'. destruct (Hm r Hr' Hk') as [->|H]; [now left|].
      right. now rewrite ltb_cons.
    + right. apply ltb_first. simpl. lia.
  - apply (pred_from_candidate n (x :: rest) lt lt' lt''); try assumption.
    intros k Hk E. simpl in E.
    destruct (byte_child_keys n x c k Hc Hk E) as (r & -> & Hr').
    rewrite ltb_cons. now apply Hnone.
Qed.

Lemma succ_from_child n x rest c gt gt' gt'' :
  lookup (int_of_byte x) (Children n) = Some c ->
  gt_cand n (int_of_byte x) gt gt' ->
  succ_in c rest gt' gt'' ->
  succ_in n (x :: rest) gt gt''.
Proof.
  intros Hc Hcand [(kmin & leaf & Hr & Hl & Hlt & Hm)|[Hsame Hnone]].
  - left. exists (x :: kmin), leaf. split; [assumption|].
    split; [now rewrite leaf_at_cons, Hc|]. split; [now rewrite ltb_cons|].
    intros k Hk Hk'. pose proof (ltb_first_le _ _ Hk') as Hle. simpl in Hle.
    destruct (Z.eq_dec (first_branch k) (int_of_byte x)) as [E|Hneq].
    + destruct (byte_child_keys n x c k Hc Hk E) as (r & -> & Hr').
      rewrite ltb_cons in Hk'. destruct (Hm r Hr' Hk') as [->|H]; [now left|].
      right. now rewrite ltb_cons.
    + right. apply ltb_first. simpl. lia.
  - apply (succ_from_candidate n (x :: rest) gt gt' gt''); try assumption.
    intros k Hk E. simpl in E.
    destruct (byte_child_keys n x c k Hc Hk E) as (r & -> & Hr').
    rewrite ltb_cons. now apply Hnone.
Qed.

End Ordered.


Section SearchOrdered.
Context {V : Type}.
Implicit Types (n m c root : Node V) (key k rest : list byte).

Lemma no_child_no_key n x k :
  lookup (int_of_byte x) (Children n) = None ->
  has n k -> first_branch k = int_of_byte x -> False.
Proof.
  intros Hc Hk Hf. destruct k as [|y r]; simpl in Hf.
  - now apply leaf_not_byte in Hf.
  - apply int_of_byte_inj in Hf. subst y. apply Hk.
    now rewrite leaf_at_cons, Hc.
Qed.

(** The loop of [Search] in a trie whose branches ascend: it ends on the
  leaf of the key, if any, with the candidates of the greatest key below
  and of the smallest key above. *)
Lemma descend_ordered : forall n key i lt gt,
  inner n -> branches_ascending n -> Branches n <> [] -> 0 <= i <= len key ->
  exists lt' gt',
    descend n key i lt gt
    = Some (lt', leaf_at n (skipn (Z.to_nat i) key), gt')
    /\ pred_in n (skipn (Z.to_nat i) key) lt lt'
    /\ succ_in n (skipn (Z.to_nat i) key) gt gt'.
Proof.
  induction n as [n IH] using Node_induction.
  intros key i lt gt Hi Ha Hne Hr.
  rewrite descend_eq. pose proof (skipn_index key i Hr) as Hs.
  assert (Hbr : branchAt key i = Some (first_branch (skipn (Z.to_nat i) key))).
  { unfold branchAt. destruct (skipn (Z.to_nat i) key) as [|b rest].
    - subst i. now rewrite Z.eqb_refl.
    - destruct Hs as (Hb & _ & Hl). destruct (Z.eqb_spec (len key) i); [lia|].
      now rewrite Hb. }
  rewrite Hbr.
  destruct (neighborBranches (Branches n) (first_branch (skipn (Z.to_nat i) key)))
    as [li ri] eqn:En.
  destruct (neighbours_of_branch _ _ _ _ (all_nodes_here _ _ Ha) Hne En) as [HL HR].
  destruct (lt_candidate n _ li lt Hi Ha HL) as (lt' & -> & Hcl).
  destruct (gt_candidate n _ ri gt Hi Ha HR) as (gt' & -> & Hcg).
  unfold advance.
  destruct (skipn (Z.to_nat i) key) as [|x rest] eqn:Esk.
  - exists lt', gt'. split.
    + unfold leaf_at. simpl. now destruct (lookup leafBranch (Children n)).
    + split.
      * apply (pred_from_candidate n [] lt lt' lt' Hcl eq_refl).
        intros k _ _. apply ltb_nil_r.
      * apply (succ_from_candidate n [] gt gt' gt' Hcg eq_refl).
        intros k _ Hf. rewrite (first_branch_leaf k); [reflexivity|].
        simpl in Hf. lia.
  - destruct Hs as (Hb & Hrest & Hl). rewrite leaf_at_cons.
    cbn [first_branch] in *.
    destruct (lookup (int_of_byte x) (Children n)) as [c|] eqn:Ec.
    + destruct (Z.eqb_spec (int_of_byte x) leafBranch) as [E|];
        [now apply int_of_byte_not_leaf in E|].
      destruct (inner_lookup_byte _ _ _ Hi Ec) as [Hci Hcne].
      rewrite (inner_Step _ Hci).
      destruct (Z.gtb_spec (i + 1) (len key)); [lia|].
      destruct (IH _ _ (lookup_In _ _ _ Ec) key (i + 1) lt' gt' Hci)
        as (lt2 & gt2 & Hd & Hp & Hsu); try assumption; try lia.
      { eapply all_nodes_child; eauto using lookup_In. }
      rewrite Hd, Hrest in *. exists lt2, gt2. split; [reflexivity|]. split.
      * apply (pred_from_child n x rest c lt lt' lt2 Ec Hcl Hp).
      * apply (succ_from_child n x rest c gt gt' gt2 Ec Hcg Hsu).
    + exists lt', gt'. split; [reflexivity|]. split.
      * apply (pred_from_candidate n (x :: rest) lt lt' lt' Hcl eq_refl).
        intros k Hk Hf. exfalso. eapply no_child_no_key; eauto.
      * apply (succ_from_candidate n (x :: rest) gt gt' gt' Hcg eq_refl).
        intros k Hk Hf. exfalso. eapply no_child_no_key; eauto.
Qed.

Lemma assoc_In k (kvs : list (list byte * V)) v :
  assoc k kvs = Some v -> In (k, v) kvs.
Proof.
  induction kvs as [|[k' v'] kvs IH]; simpl; [discriminate|].
  destruct (key_eq_dec k' k) as [->|_].
  - intros [= ->]. now left.
  - intros H. right. auto.
Qed.

End SearchOrdered.

(** X11. In a trie that [New] returned without error from strictly
  ascending keys, [Search] returns for every key: eq is the value of the
  key if it was inserted, lt is the value of the greatest inserted key
  below the key and gt the value of the smallest inserted key above it,
  each absent when there is no such key. *)
Theorem Search_returns_the_neighbours (V : Type) keys (vals : list V) root key :
  strictly_ascending keys = true ->
  New keys (Slice vals) = (Some root, None) -> keys <> [] ->
  exists ltValue gtValue : option V,
    Search root key = Some (ltValue, assoc key (combine keys vals), gtValue)
    /\ match ltValue with
       | Some v =>
           exists k, In (k, v) (combine keys vals) /\ key_ltb k key = true
                     /\ forall k', In k' keys -> key_ltb k' key = true ->
                          k' = k \/ key_ltb k' k = true
       | None => forall k', In k' keys -> key_ltb k' key = false
       end
    /\ match gtValue with
       | Some v =>
           exists k, In (k, v) (combine keys vals) /\ key_ltb key k = true
                     /\ forall k', In k' keys -> key_ltb key k' = true ->
                          k' = k \/ key_ltb k k' = true
       | None => forall k', In k' keys -> key_ltb key k' = false
       end.
Proof.
  intros Hasc Hnew Hne.
  destruct (New_ascending _ _ _ Hasc Hnew) as [Hi Ha].
  destruct (held_key_branches _ _ _ Hnew Hne) as [_ Hb].
  destruct (New_holds _ _ _ Hnew) as [_ Hleaf].
  assert (Hlen : len keys = len vals).
  { unfold New in Hnew. simpl in Hnew.
    destruct (Z.eqb_spec (len keys) (len vals)); [assumption|discriminate]. }
  assert (Hhas : forall k, In k keys -> has root k).
  { intros k Hk. unfold has. rewrite Hleaf.
    destruct (assoc k (combine keys vals)) eqn:E; [discriminate|].
    exfalso. revert E. apply assoc_combine_In; [unfold len in Hlen; lia|assumption]. }
  assert (Hval : forall k leaf, leaf_at root k = Some leaf ->
            exists v, Value leaf = Some v /\ In (k, v) (combine keys vals)).
  { intros k leaf Hl. rewrite Hleaf in Hl.
    destruct (assoc k (combine keys vals)) as [v|] eqn:E; [|discriminate].
    injection Hl as <-. exists v. split; [reflexivity|now apply assoc_In]. }
  destruct (descend_ordered root key 0 None None Hi Ha Hb) as (lt' & gt' & Hd & Hp & Hs).
  { unfold len. lia. }
  simpl in Hd, Hp, Hs. unfold Search. rewrite Hd.
  assert (Hl : exists ltValue, resolve rightMost lt' = Some ltValue
            /\ match ltValue with
               | Some v =>
                   exists k, In (k, v) (combine keys vals) /\ key_ltb k key = true
                     /\ forall k', In k' keys -> key_ltb k' key = true ->
                          k' = k \/ key_ltb k' k = true
               | None => forall k', In k' keys -> key_ltb k' key = false
               end).
  { destruct Hp as [(kmax & leaf & Hr & Hl & Hlt & Hm)|[Hr Hnone]].
    - destruct (Hval _ _ Hl) as (v & Hv & Hin). exists (Some v).
      split; [congruence|]. exists kmax. split; [assumption|].
      split; [assumption|]. intros k' Hk'. apply Hm. now apply Hhas.
    - exists None. split; [assumption|]. intros k' Hk'. apply Hnone. now apply Hhas. }
  assert (Hg : exists gtValue, resolve leftMost gt' = Some gtValue
            /\ match gtValue with
               | Some v =>
                   exists k, In (k, v) (combine keys vals) /\ key_ltb key k = true
                     /\ forall k', In k' keys -> key_ltb key k' = true ->
                          k' = k \/ key_ltb k k' = true
               | None => forall k', In k' keys -> key_ltb key k' = false
               end).
  { destruct Hs as [(kmin & leaf & Hr & Hl' & Hlt & Hm)|[Hr Hnone]].
    - destruct (Hval _ _ Hl') as (v & Hv & Hin). exists (Some v).
      split; [congruence|]. exists kmin. split; [assumption|].
      split; [assumption|]. intros k' Hk'. apply Hm. now apply Hhas.
    - exists None. split; [assumption|]. intros k' Hk'. apply Hnone. now apply Hhas. }
  destruct Hl as (ltv & -> & Hltv). destruct Hg as (gtv & -> & Hgtv).
  exists ltv, gtv. split; [|split; assumption].
  rewrite Hleaf. now destruct (assoc key (combine keys vals)).
Qed.

Lemma Search_returns_the_neighbours_witness :
  exists ltValue gtValue : option Z,
    Search (root_of (New three_keys (Slice [7; 8; 9]))) (key_of [1; 2; 5]%N)
    = Some (ltValue,
            assoc (key_of [1; 2; 5]%N) (combine three_keys [7; 8; 9]), gtValue)
    /\ match ltValue with
       | Some v =>
           exists k, In (k, v) (combine three_keys [7; 8; 9])
                     /\ key_ltb k (key_of [1; 2; 5]%N) = true
                     /\ forall k', In k' three_keys ->
                          key_ltb k' (key_of [1; 2; 5]%N) = true ->
                          k' = k \/ key_ltb k' k = true
       | None => forall k', In k' three_keys ->
                   key_ltb k' (key_of [1; 2; 5]%N) = false
       end
    /\ match gtValue with
       | Some v =>
           exists k, In (k, v) (combine three_keys [7; 8; 9])
                     /\ key_ltb (key_of [1; 2; 5]%N) k = true
                     /\ forall k', In k' three_keys ->
                          key_ltb (key_of [1; 2; 5]%N) k' = true ->
                          k' = k \/ key_ltb k k' = true
       | None => forall k', In k' three_keys ->
                   key_ltb (key_of [1; 2; 5]%N) k' = false
       end.
Proof.
  apply (Search_returns_the_neighbours Z three_keys [7; 8; 9]
           (root_of (New three_keys (Slice [7; 8; 9]))) (key_of [1; 2; 5]%N)).
  - reflexivity.
  - vm_compute. reflexivity.
  - discriminate.
Defined.


Section RangeSearch.
Context {V : Type}.
Implicit Types (n m c root : Node V) (key k rest : list byte).

(** [Search] in any trie of the shape [addKV] builds whose branches
  ascend, in terms of the keys the trie holds. *)
Lemma Search_ordered root key :
  inner root -> branches_ascending root -> Branches root <> [] ->
  exists ltValue gtValue : option V,
    Search root key
    = Some (ltValue,
            match leaf_at root key with Some leaf => Value leaf | None => None end,
            gtValue)
    /\ ((exists kmax leaf,
            ltValue = Value leaf /\ leaf_at root kmax = Some leaf
            /\ key_ltb kmax key = true
            /\ forall k, has root k -> key_ltb k key = true ->
                 k = kmax \/ key_ltb k kmax = true)
        \/ (ltValue = None /\ forall k, has root k -> key_ltb k key = false))
    /\ ((exists kmin leaf,
            gtValue = Value leaf /\ leaf_at root kmin = Some leaf
            /\ key_ltb key kmin = true
            /\ forall k, has root k -> key_ltb key k = true ->
                 k = kmin \/ key_ltb kmin k = true)
        \/ (gtValue = None /\ forall k, has root k -> key_ltb key k = false)).
Proof.
  intros Hi Ha Hb.
  destruct (descend_ordered root key 0 None None Hi Ha Hb) as (lt' & gt' & Hd & Hp & Hs).
  { unfold len. lia. }
  simpl in Hd, Hp, Hs. unfold Search. rewrite Hd.
  assert (Hl : exists ltValue, resolve rightMost lt' = Some ltValue
    /\ ((exists kmax leaf,
            ltValue = Value leaf /\ leaf_at root kmax = Some leaf
            /\ key_ltb kmax key = true
            /\ forall k, has root k -> key_ltb k key = true ->
                 k = kmax \/ key_ltb k kmax = true)
        \/ (ltValue = None /\ forall k, has root k -> key_ltb k key = false))).
  { destruct Hp as [(kmax & leaf & Hr & Hl & Hlt & Hm)|[Hr Hnone]].
    - exists (Value leaf). split; [assumption|]. left. exists kmax, leaf. auto.
    - exists None. split; [assumption|]. right. auto. }
  assert (Hg : exists gtValue, resolve leftMost gt' = Some gtValue
    /\ ((exists kmin leaf,
            gtValue = Value leaf /\ leaf_at root kmin = Some leaf
            /\ key_ltb key kmin = true
            /\ forall k, has root k -> key_ltb key k = true ->
                 k = kmin \/ key_ltb kmin k = true)
        \/ (gtValue = None /\ forall k, has root k -> key_ltb key k = false))).
  { destruct Hs as [(kmin & leaf & Hr & Hl' & Hlt & Hm)|[Hr Hnone]].
    - exists (Value leaf). split; [assumption|]. left. exists kmin, leaf. auto.
    - exists None. split; [assumption|]. right. auto. }
  destruct Hl as (ltv & -> & Hltv). destruct Hg as (gtv & -> & Hgtv).
  exists ltv, gtv. auto.
Qed.

Lemma In_combine_l {A B} (l : list A) : forall (l' : list B) x,
  (length l <= length l')%nat -> In x l -> exists y, In (x, y) (combine l l').
Proof.
  induction l as [|a l IH]; intros [|b l'] x Hlen Hin; simpl in *; try tauto;
    try lia.
  destruct Hin as [->|Hin]; [eauto|].
  destruct (IH l' x ltac:(lia) Hin) as (y & Hy). eauto.
Qed.

(** After pruning, a range trie holds the start keys, each with the value
  of its range, and no other key. *)
Lemma pruned_range_trie starts ends (vals : list V) root :
  bounds_ascending starts ends = true ->
  NewRangeTrie starts ends (Slice vals) = (Some root, None) ->
  inner (RemoveEndLeaves root) /\ branches_ascending (RemoveEndLeaves root)
  /\ (forall k, In k starts -> has (RemoveEndLeaves root) k)
  /\ (forall k leaf, leaf_at (RemoveEndLeaves root) k = Some leaf ->
        exists v, Value leaf = Some v /\ In (k, v) (combine starts vals)).
Proof.
  intros Hasc Hnew.
  destruct (NewRangeTrie_ascending _ _ _ _ Hasc Hnew) as [Hi Ha].
  assert (H : flags root starts /\ start_leaves root (combine starts vals)
              /\ length starts = length vals).
  { unfold NewRangeTrie in Hnew. simpl in Hnew.
    destruct (Z.eqb_spec (len starts) (len ends)) as [E1|]; [|discriminate].
    destruct (Z.eqb_spec (len starts) (len vals)) as [E2|]; [|discriminate].
    simpl in Hnew.
    destruct (NewRangeTrie_loop newNode starts ends vals) as [r e] eqn:E.
    injection Hnew as -> ->. unfold len in *.
    destruct (NewRangeTrie_loop_flags starts ends vals newNode root starts)
      as (_ & Hf & _); auto using inner_newNode.
    { intros k leaf Hl. now rewrite leaf_at_newNode in Hl. }
    split; [assumption|]. split; [|lia].
    apply (NewRangeTrie_loop_starts starts ends vals newNode root []);
      try lia; auto using inner_newNode.
    intros k v0 []. }
  destruct H as (Hf & Hst & Hlen).
  split; [now apply RemoveEndLeaves_inner|].
  split; [now apply RemoveEndLeaves_ascending|]. split.
  - intros k Hk. destruct (In_combine_l starts vals k ltac:(lia) Hk) as (v & Hv).
    destruct (Hst k v Hv) as (leaf & Hl & Hs & _). unfold has.
    rewrite (RemoveEndLeaves_leaf_at k root Hi Ha), Hl.
    unfold endOnly. rewrite Hs, andb_false_r. discriminate.
  - intros k leaf. rewrite (RemoveEndLeaves_leaf_at k root Hi Ha).
    destruct (leaf_at root k) as [l0|] eqn:El; [|discriminate].
    destruct (endOnly l0) eqn:Ee; [discriminate|]. intros [= <-].
    destruct (Hf k l0 El) as [Hstart Hany].
    assert (Hs : isStartLeaf l0 = true).
    { unfold endOnly in Ee. destruct (isStartLeaf l0); [reflexivity|].
      simpl in Ee, Hany. rewrite andb_true_r in Ee. congruence. }
    destruct (In_combine_l starts vals k ltac:(lia) (Hstart Hs)) as (v & Hv).
    destruct (Hst k v Hv) as (leaf' & Hl' & _ & Hval).
    exists v. split; [congruence|assumption].
Qed.

End RangeSearch.

(** X12. In a range trie that [NewRangeTrie] returned without error from
  at least one range, the boundaries ascending, [Search] after
  [RemoveEndLeaves] answers by the start keys alone: eq is the value of the
  range that starts at the key, lt the value of the range with the greatest
  start below the key and gt the value of the range with the smallest start
  above it. *)
Theorem Search_pruned_ranges_by_start (V : Type) starts ends (vals : list V)
        root key :
  bounds_ascending starts ends = true ->
  NewRangeTrie starts ends (Slice vals) = (Some root, None) -> starts <> [] ->
  exists ltValue eqValue gtValue : option V,
    Search (RemoveEndLeaves root) key = Some (ltValue, eqValue, gtValue)
    /\ match eqValue with
       | Some v => In (key, v) (combine starts vals)
       | None => ~ In key starts
       end
    /\ match ltValue with
       | Some v =>
           exists k, In (k, v) (combine starts vals) /\ key_ltb k key = true
                     /\ forall k', In k' starts -> key_ltb k' key = true ->
                          k' = k \/ key_ltb k' k = true
       | None => forall k', In k' starts -> key_ltb k' key = false
       end
    /\ match gtValue with
       | Some v =>
           exists k, In (k, v) (combine starts vals) /\ key_ltb key k = true
                     /\ forall k', In k' starts -> key_ltb key k' = true ->
                          k' = k \/ key_ltb k k' = true
       | None => forall k', In k' starts -> key_ltb key k' = false
       end.
Proof.
  intros Hasc Hnew Hne.
  destruct (pruned_range_trie _ _ _ _ Hasc Hnew) as (Hi & Ha & Hhas & Hval).
  assert (Hb : Branches (RemoveEndLeaves root) <> []).
  { destruct starts as [|s0 starts]; [congruence|].
    apply (leaf_at_branches _ s0 Hi). apply Hhas. now left. }
  destruct (Search_ordered (RemoveEndLeaves root) key Hi Ha Hb)
    as (ltv & gtv & Hs & Hl & Hg).
  exists ltv, (match leaf_at (RemoveEndLeaves root) key with
               | Some leaf => Value leaf | None => None end), gtv.
  split; [assumption|]. split; [|split].
  - destruct (leaf_at (RemoveEndLeaves root) key) as [leaf|] eqn:El.
    + destruct (Hval _ _ El) as (v & -> & Hin). assumption.
    + intros Hin. apply (Hhas key Hin). assumption.
  - destruct Hl as [(kmax & leaf & -> & Hlf & Hlt & Hm)|[-> Hnone]].
    + destruct (Hval _ _ Hlf) as (v & -> & Hin). exists kmax.
      split; [assumption|]. split; [assumption|].
      intros k' Hk'. apply Hm. now apply Hhas.
    + intros k' Hk'. apply Hnone. now apply Hhas.
  - destruct Hg as [(kmin & leaf & -> & Hlf & Hlt & Hm)|[-> Hnone]].
    + destruct (Hval _ _ Hlf) as (v & -> & Hin). exists kmin.
      split; [assumption|]. split; [assumption|].
      intros k' Hk'. apply Hm. now apply Hhas.
    + intros k' Hk'. apply Hnone. now apply Hhas.
Qed.

Lemma Search_pruned_ranges_by_start_witness :
  exists ltValue eqValue gtValue : option Z,
    Search (RemoveEndLeaves ranges_example) (key_of [2%N])
    = Some (ltValue, eqValue, gtValue)
    /\ match eqValue with
       | Some v => In (key_of [2%N], v)
                      (combine [key_of [1%N]; key_of [3%N]] [7; 8])
       | None => ~ In (key_of [2%N]) [key_of [1%N]; key_of [3%N]]
       end
    /\ match ltValue with
       | Some v =>
           exists k, In (k, v) (combine [key_of [1%N]; key_of [3%N]] [7; 8])
                     /\ key_ltb k (key_of [2%N]) = true
                     /\ forall k', In k' [key_of [1%N]; key_of [3%N]] ->
                          key_ltb k' (key_of [2%N]) = true ->
                          k' = k \/ key_ltb k' k = true
       | None => forall k', In k' [key_of [1%N]; key_of [3%N]] ->
                   key_ltb k' (key_of [2%N]) = false
       end
    /\ match gtValue with
       | Some v =>
           exists k, In (k, v) (combine [key_of [1%N]; key_of [3%N]] [7; 8])
                     /\ key_ltb (key_of [2%N]) k = true
                     /\ forall k', In k' [key_of [1%N]; key_of [3%N]] ->
                          key_ltb (key_of [2%N]) k' = true ->
                          k' = k \/ key_ltb k k' = true
       | None => forall k', In k' [key_of [1%N]; key_of [3%N]] ->
                   key_ltb (key_of [2%N]) k' = false
       end.
Proof.
  apply (Search_pruned_ranges_by_start Z [key_of [1%N]; key_of [3%N]]
           [key_of [2%N]; key_of [3%N]] [7; 8] ranges_example (key_of [2%N])).
  - reflexivity.
  - vm_compute. reflexivity.
  - discriminate.
Defined.


Section RangesAccepted.
Context {V : Type}.

Lemma NewRangeTrie_loop_accepts starts :
  forall ends (vals : list V) (root : Node V),
  inner root -> branches_ascending root -> precedes_bounds root starts ends ->
  snd (NewRangeTrie_loop root starts ends vals) = None.
Proof.
  induction starts as [|s starts IH]; intros ends vals root Hi Ha Hp;
    [reflexivity|].
  destruct ends as [|e ends]; [reflexivity|].
  destruct vals as [|v vals]; [reflexivity|].
  cbn [NewRangeTrie_loop].
  assert (Hse : key_leb s e = true /\ bounds_from e starts ends = true).
  { destruct Hp as [[_ H]|(prev & _ & H)]; simpl in H;
      repeat (apply andb_true_iff in H as [H ?]); auto. }
  destruct Hse as [Hse Hrest].
  destruct (addKV_ascending s root v true false Hi Ha)
    as (root1 & E1 & Hi1 & Ha1 & Hr1).
  { destruct Hp as [[E _]|(prev & Hr & H)]; [now left|right].
    simpl in H. repeat (apply andb_true_iff in H as [H ?]). eauto. }
  rewrite E1.
  destruct (key_leb_cases _ _ Hse) as [Hlt | <-].
  - destruct (addKV_ascending e root1 v false true Hi1 Ha1)
      as (root2 & E2 & Hi2 & Ha2 & Hr2); [right; eauto|].
    rewrite E2. apply IH; try assumption. right. eauto.
  - rewrite (addKV_rightmost root1 s v false true Hi1 Hr1).
    apply IH.
    + now apply markEndLeaf_inner.
    + now apply markEndLeaf_ascending.
    + right. exists s. split; [now apply markEndLeaf_rightmost|assumption].
Qed.

End RangesAccepted.

(** X13. [NewRangeTrie] accepts every list of ranges whose boundaries
  ascend (each start at most its end, each end below the next start) and
  that has as many ends and values as starts: it returns a trie and no
  error. *)
Theorem NewRangeTrie_accepts_ascending_ranges (V : Type) starts ends
        (vals : list V) :
  bounds_ascending starts ends = true ->
  len starts = len ends -> len starts = len vals ->
  exists root, NewRangeTrie starts ends (Slice vals) = (Some root, None).
Proof.
  intros Hasc Hle Hlv. unfold NewRangeTrie. simpl.
  rewrite <- Hle, <- Hlv, !Z.eqb_refl. simpl.
  pose proof (NewRangeTrie_loop_accepts starts ends vals newNode) as H.
  destruct (NewRangeTrie_loop newNode starts ends vals) as [root err].
  simpl in H. rewrite H; [eauto| | |].
  - apply inner_newNode.
  - constructor; [apply ascending_nil|]. intros k c [].
  - left. auto.
Qed.

Lemma NewRangeTrie_accepts_ascending_ranges_witness :
  exists root,
    NewRangeTrie [key_of [1%N]; key_of [3%N]] [key_of [2%N]; key_of [3%N]]
                 (Slice [7; 8])
    = (Some root, None).
Proof.
  apply (NewRangeTrie_accepts_ascending_ranges Z [key_of [1%N]; key_of [3%N]]
           [key_of [2%N]; key_of [3%N]] [7; 8]); reflexivity.
Defined.


(** X14. After [Squash], [Search] still returns for every key: on a trie
  that [New] or [NewRangeTrie] returned without error and that has a
  branch at its root, [Squash] returns, and [Search] on the squashed trie
  returns a result for every key. *)
Theorem Search_returns_after_Squash (V : Type) (root : Node V) :
  built root -> Branches root <> [] ->
  exists squashed,
    Squash root = Some squashed
    /\ forall key, exists ltValue eqValue gtValue : option V,
         Search squashed key = Some (ltValue, eqValue, gtValue).
Proof.
  intros Hb Hne. pose proof (built_inner root Hb) as Hi.
  destruct (Squash_total root Hi) as (sq & Hs). exists sq.
  split; [assumption|]. intros key.
  destruct (shape_squashed root (inner_shape root Hi)) as [Hshape _].
  specialize (Hshape sq Hs).
  destruct (Squash_fields _ _ Hs) as (Eb & _).
  destruct (descend_shape sq key 0 None None Hshape) as (lt' & eq' & gt' & Hd & Hl & Hg).
  - now rewrite Eb.
  - unfold len. lia.
  - exact I.
  - exact I.
  - unfold Search. rewrite Hd.
    destruct lt' as [l|]; destruct gt' as [g|]; simpl in *.
    + destruct Hl as [Hl _], Hg as [_ Hg].
      destruct (rightMost l); [|congruence]. destruct (leftMost g); [|congruence].
      simpl. eauto.
    + destruct Hl as [Hl _]. destruct (rightMost l); [|congruence]. simpl. eauto.
    + destruct Hg as [_ Hg]. destruct (leftMost g); [|congruence]. simpl. eauto.
    + eauto.
Qed.

Lemma Search_returns_after_Squash_witness :
  exists squashed,
    Squash (root_of (New three_keys (Slice [7; 8; 9]))) = Some squashed
    /\ forall key, exists ltValue eqValue gtValue : option Z,
         Search squashed key = Some (ltValue, eqValue, gtValue).
Proof.
  apply (Search_returns_after_Squash Z (root_of (New three_keys (Slice [7; 8; 9])))).
  - left. exists three_keys, (Slice [7; 8; 9]). vm_compute. reflexivity.
  - vm_compute. discriminate.
Defined.


Section BoundaryOrder.

Lemma key_ltb_irrefl a : key_ltb a a = false.
Proof.
  induction a as [|x a IH]; [reflexivity|]. now rewrite ltb_cons.
Qed.

Lemma key_ltb_trans a : forall b c,
  key_ltb a b = true -> key_ltb b c = true -> key_ltb a c = true.
Proof.
  induction a as [|x a IH]; intros [|y b] [|z c] Hab Hbc; simpl in *;
    try discriminate; try reflexivity.
  apply orb_true_iff in Hab. apply orb_true_iff in Hbc. apply orb_true_iff.
  destruct Hab as [Hab|Hab], Hbc as [Hbc|Hbc].
  - left. apply Z.ltb_lt in Hab, Hbc. apply Z.ltb_lt. lia.
  - apply andb_true_iff in Hbc as [E _]. apply Z.eqb_eq in E.
    left. apply Z.ltb_lt in Hab. apply Z.ltb_lt. lia.
  - apply andb_true_iff in Hab as [E _]. apply Z.eqb_eq in E.
    left. apply Z.ltb_lt in Hbc. apply Z.ltb_lt. lia.
  - apply andb_true_iff in Hab as [E1 H1]. apply andb_true_iff in Hbc as [E2 H2].
    apply Z.eqb_eq in E1, E2. right. apply andb_true_iff.
    split; [apply Z.eqb_eq; lia|]. eapply IH; eauto.
Qed.

Lemma key_ltb_asym a b : key_ltb a b = true -> key_ltb b a = true -> False.
Proof.
  intros H1 H2. pose proof (key_ltb_trans _ _ _ H1 H2) as H.
  rewrite key_ltb_irrefl in H. discriminate.
Qed.

Lemma key_ltb_leb_trans a b c :
  key_ltb a b = true -> key_leb b c = true -> key_ltb a c = true.
Proof.
  intros H1 H2. destruct (key_leb_cases _ _ H2) as [H| <-]; [|assumption].
  eapply key_ltb_trans; eauto.
Qed.

(** Every boundary of ranges that follow [prev] lies above [prev]. *)
Lemma bounds_from_above starts : forall ends prev k,
  length starts = length ends -> bounds_from prev starts ends = true ->
  In k starts \/ In k ends -> key_ltb prev k = true.
Proof.
  induction starts as [|s ss IH]; intros [|e es] prev k Hlen Hb Hk;
    try discriminate; [destruct Hk as [[]|[]]|].
  simpl in Hb. apply andb_true_iff in Hb as [Hb Hrest].
  apply andb_true_iff in Hb as [Hps Hse].
  assert (Hpe : key_ltb prev e = true) by (eapply key_ltb_leb_trans; eauto).
  destruct Hk as [[<-|Hk]|[<-|Hk]]; try assumption.
  - eapply key_ltb_trans; [exact Hpe|]. apply (IH es); auto.
  - eapply key_ltb_trans; [exact Hpe|]. apply (IH es); auto.
Qed.

(** No boundary lies strictly inside a range. *)
Lemma no_boundary_inside starts : forall ends s e k,
  length starts = length ends -> bounds_ascending starts ends = true ->
  In (s, e) (combine starts ends) -> In k starts \/ In k ends ->
  key_ltb s k = true -> key_ltb k e = true -> False.
Proof.
  induction starts as [|s1 ss IH]; intros [|e1 es] s e k Hlen Hb Hse Hk Hsk Hke;
    try discriminate; [destruct Hse|].
  simpl in Hb. apply andb_true_iff in Hb as [H1 Hrest].
  assert (Habove : forall x, In x ss \/ In x es -> key_ltb e1 x = true).
  { intros x Hx. apply (bounds_from_above ss es); auto. }
  assert (Hnext : bounds_ascending ss es = true).
  { destruct ss as [|s2 ss'], es as [|e2 es']; try reflexivity.
    simpl in Hrest. apply andb_true_iff in Hrest as [Hr ?].
    apply andb_true_iff in Hr as [_ ?]. simpl. now apply andb_true_iff. }
  destruct Hse as [[= <- <-]|Hse].
  - destruct Hk as [[<-|Hk]|[<-|Hk]].
    + now rewrite key_ltb_irrefl in Hsk.
    + eapply key_ltb_asym; [exact Hke|]. apply Habove. auto.
    + now rewrite key_ltb_irrefl in Hke.
    + eapply key_ltb_asym; [exact Hke|]. apply Habove. auto.
  - assert (Hs : key_ltb e1 s = true).
    { apply Habove. left. eapply in_combine_l; eauto. }
    destruct Hk as [[<-|Hk]|[<-|Hk]].
    + destruct (key_leb_cases _ _ H1) as [H|E].
      * eapply key_ltb_asym; [exact Hsk|]. eapply key_ltb_trans; eauto.
      * rewrite <- E in Hs. eapply key_ltb_asym; eauto.
    + eapply (IH es s e k); eauto.
    + eapply key_ltb_asym; eauto.
    + eapply (IH es s e k); eauto.
Qed.

End BoundaryOrder.


Section RangeContents.
Context {V : Type}.
Implicit Types (n m root : Node V) (key k : list byte).

(** Every pair of [kvs] has its leaf in the trie, holding the value. *)
Definition value_leaves root (kvs : list (list byte * V)) : Prop :=
  forall k v, In (k, v) kvs ->
    exists leaf, leaf_at root k = Some leaf /\ Value leaf = Some v.

(** The trie holds no key outside [P]. *)
Definition keys_within root (P : list byte -> Prop) : Prop :=
  forall k, has root k -> P k.

Lemma value_leaves_kept root root' kvs :
  value_leaves root kvs ->
  (forall k leaf, leaf_at root k = Some leaf ->
     exists leaf', leaf_at root' k = Some leaf'
                   /\ isStartLeaf leaf' = isStartLeaf leaf
                   /\ Value leaf' = Value leaf) ->
  value_leaves root' kvs.
Proof.
  intros Hs Hk k v Hin. destruct (Hs k v Hin) as (leaf & Hl & Hv).
  destruct (Hk k leaf Hl) as (leaf' & Hl' & _ & Hv').
  exists leaf'. split; [assumption|congruence].
Qed.

Lemma addKV_keys_within root key (v : V) s e root' P :
  inner root -> addKV root key v s e = inl root' -> keys_within root P ->
  keys_within root' (fun k => P k \/ k = key).
Proof.
  intros Hi Ha Hw k Hk. destruct (key_eq_dec k key) as [->|Hne]; [now right|].
  left. apply Hw. unfold has in *.
  destruct (addKV_leaf_at _ _ _ _ _ _ Hi Ha) as [_ Hother].
  now rewrite <- (Hother k Hne).
Qed.

Lemma markEndLeaf_keys_within root s P :
  keys_within root P -> keys_within (markEndLeaf root s) P.
Proof.
  intros Hw k Hk. apply Hw. unfold has in *. rewrite markEndLeaf_leaf_at in Hk.
  destruct (key_eq_dec k s) as [->|_]; [|assumption].
  destruct (leaf_at root s); [discriminate|]. simpl in Hk. congruence.
Qed.

Lemma NewRangeTrie_loop_ends starts :
  forall ends (vals : list V) root root' kvs (P : list byte -> Prop),
  length starts = length ends -> length starts = length vals ->
  inner root -> branches_ascending root -> precedes_bounds root starts ends ->
  value_leaves root kvs -> keys_within root P ->
  NewRangeTrie_loop root starts ends vals = (root', None) ->
  value_leaves root' (kvs ++ combine ends vals)
  /\ keys_within root' (fun k => P k \/ In k starts \/ In k ends).
Proof.
  induction starts as [|s starts IH];
    intros ends vals root root' kvs P Hle Hlv Hi Ha Hp Hv Hw Hrun.
  - destruct ends; [|discriminate]. injection Hrun as E; subst root'. simpl.
    rewrite app_nil_r. split; [assumption|]. intros k Hk. left. now apply Hw.
  - destruct ends as [|e ends]; [discriminate|].
    destruct vals as [|v vals]; [discriminate|].
    cbn [NewRangeTrie_loop] in Hrun. simpl in Hle, Hlv.
    assert (Hse : key_leb s e = true /\ bounds_from e starts ends = true).
    { destruct Hp as [[_ H]|(prev & _ & H)]; simpl in H;
        repeat (apply andb_true_iff in H as [H ?]); auto. }
    destruct Hse as [Hse Hrest].
    destruct (addKV_ascending s root v true false Hi Ha)
      as (root1 & E1 & Hi1 & Ha1 & Hr1).
    { destruct Hp as [[E _]|(prev & Hr & H)]; [now left|right].
      simpl in H. repeat (apply andb_true_iff in H as [H ?]). eauto. }
    rewrite E1 in Hrun.
    pose proof (value_leaves_kept root root1 kvs Hv
                  (addKV_keeps_leaves root s v true false root1 Hi E1)) as Hv1.
    pose proof (addKV_keys_within root s v true false root1 P Hi E1 Hw) as Hw1.
    cbn [combine]. replace (kvs ++ (e, v) :: combine ends vals)
      with ((kvs ++ [(e, v)]) ++ combine ends vals)
      by now rewrite <- app_assoc.
    assert (Hnext : forall r2,
              inner r2 -> branches_ascending r2 -> rightmost r2 e ->
              value_leaves r2 (kvs ++ [(e, v)]) ->
              keys_within r2 (fun k => (P k \/ k = s) \/ k = e) ->
              NewRangeTrie_loop r2 starts ends vals = (root', None) ->
              value_leaves root' ((kvs ++ [(e, v)]) ++ combine ends vals)
              /\ keys_within root'
                   (fun k => P k \/ In k (s :: starts) \/ In k (e :: ends))).
    { intros r2 Hi2 Ha2 Hr2 Hv2 Hw2 Hrun2.
      destruct (IH ends vals r2 root' (kvs ++ [(e, v)])
                  (fun k => (P k \/ k = s) \/ k = e)) as [Hve Hwe];
        try lia; try assumption.
      { right. eauto. }
      split; [assumption|]. intros k Hk.
      destruct (Hwe k Hk) as [[[? | ->] | ->] | [? | ?]]; simpl; auto. }
    destruct (key_leb_cases _ _ Hse) as [Hlt|Heq].
    + destruct (addKV_ascending e root1 v false true Hi1 Ha1)
        as (root2 & E2 & Hi2 & Ha2 & Hr2); [right; eauto|].
      rewrite E2 in Hrun. apply (Hnext root2); try assumption.
      * intros k v0 Hin. apply in_app_or in Hin as [Hin|[[= <- <-]|[]]].
        -- apply (value_leaves_kept root1 root2 kvs Hv1
                    (addKV_keeps_leaves root1 e v false true root2 Hi1 E2) k v0 Hin).
        -- destruct (addKV_leaf_at _ _ _ _ _ _ Hi1 E2) as [Hnew _].
           exists (newLeaf v false true). auto.
      * apply (addKV_keys_within root1 e v false true root2 _ Hi1 E2 Hw1).
    + subst e.
      rewrite (addKV_rightmost root1 s v false true Hi1 Hr1) in Hrun.
      apply (Hnext (markEndLeaf root1 s)); try assumption.
      * now apply markEndLeaf_inner.
      * now apply markEndLeaf_ascending.
      * now apply markEndLeaf_rightmost.
      * intros k v0 Hin. apply in_app_or in Hin as [Hin|[[= <- <-]|[]]].
        -- apply (value_leaves_kept root1 _ kvs Hv1
                    (markEndLeaf_keeps_leaves root1 s) k v0 Hin).
        -- destruct (addKV_leaf_at _ _ _ _ _ _ Hi E1) as [Hnew _].
           destruct (markEndLeaf_keeps_leaves root1 s s _ Hnew)
             as (leaf' & Hl' & _ & Hval).
           exists leaf'. split; [assumption|]. now rewrite Hval.
      * intros k Hk. left. now apply (markEndLeaf_keys_within root1 s _ Hw1).
Qed.

Lemma In_combine3 {A B C} (l1 : list A) : forall (l2 : list B) (l3 : list C) a b c,
  In (a, b, c) (combine (combine l1 l2) l3) ->
  In (a, c) (combine l1 l3) /\ In (b, c) (combine l2 l3)
  /\ In (a, b) (combine l1 l2).
Proof.
  induction l1 as [|x l1 IH]; intros [|y l2] [|z l3] a b c H; simpl in *;
    try tauto.
  destruct H as [[= -> -> ->]|H]; [auto|].
  destruct (IH l2 l3 a b c H) as (? & ? & ?). auto.
Qed.

End RangeContents.


(** X15. In a range trie that [NewRangeTrie] returned without error from
  ranges whose boundaries ascend, [Search] on a key that lies strictly
  inside a range (above its start, below its end) returns the value of that
  range as lt and as gt, and eq absent. *)
Theorem Search_inside_a_range (V : Type) starts ends (vals : list V)
        root s e v key :
  bounds_ascending starts ends = true ->
  NewRangeTrie starts ends (Slice vals) = (Some root, None) ->
  In (s, e, v) (combine (combine starts ends) vals) ->
  key_ltb s key = true -> key_ltb key e = true ->
  Search root key = Some (Some v, None, Some v).
Proof.
  intros Hasc Hnew Hin Hsk Hke.
  destruct (NewRangeTrie_ascending _ _ _ _ Hasc Hnew) as [Hi Ha].
  destruct (In_combine3 _ _ _ _ _ _ Hin) as (Hsv & Hev & Hse).
  assert (H : length starts = length ends
              /\ start_leaves root (combine starts vals)
              /\ value_leaves root (combine ends vals)
              /\ keys_within root (fun k => In k starts \/ In k ends)).
  { unfold NewRangeTrie in Hnew. simpl in Hnew.
    destruct (Z.eqb_spec (len starts) (len ends)) as [E1|]; [|discriminate].
    destruct (Z.eqb_spec (len starts) (len vals)) as [E2|]; [|discriminate].
    simpl in Hnew.
    destruct (NewRangeTrie_loop newNode starts ends vals) as [r err] eqn:E.
    injection Hnew as -> ->. unfold len in *.
    split; [lia|]. split.
    - apply (NewRangeTrie_loop_starts starts ends vals newNode root []);
        try lia; auto using inner_newNode.
      intros k v0 [].
    - destruct (NewRangeTrie_loop_ends starts ends vals newNode root []
                  (fun _ => False)) as [Hv Hw]; try lia; auto using inner_newNode.
      + constructor; [apply ascending_nil|]. intros k c [].
      + left. auto.
      + intros k v0 [].
      + intros k Hk. unfold has in Hk. now rewrite leaf_at_newNode in Hk.
      + split; [assumption|]. intros k Hk. destruct (Hw k Hk) as [[]|?].
        assumption. }
  destruct H as (Hlen & Hst & Hen & Hw).
  destruct (Hst s v Hsv) as (ls & Hls & _ & Hlsv).
  destruct (Hen e v Hev) as (le & Hle & Hlev).
  assert (Hinside : forall k, has root k ->
            key_ltb s k = true -> key_ltb k e = true -> False).
  { intros k Hk. apply (no_boundary_inside starts ends s e k); auto. }
  assert (Hb : Branches root <> []).
  { apply (leaf_at_branches root s Hi). rewrite Hls. discriminate. }
  destruct (Search_ordered root key Hi Ha Hb) as (ltv & gtv & Hs & Hl & Hg).
  rewrite Hs.
  assert (Heq : leaf_at root key = None).
  { destruct (leaf_at root key) eqn:E; [|reflexivity].
    exfalso. apply (Hinside key); [|assumption|assumption].
    unfold has. congruence. }
  rewrite Heq.
  assert (Hlt : ltv = Some v).
  { destruct Hl as [(kmax & leaf & -> & Hlf & Hlt & Hm)|[_ Hnone]].
    - destruct (Hm s) as [E|Hlt']; [unfold has; congruence|assumption| |].
      + subst kmax. congruence.
      + exfalso. apply (Hinside kmax); [unfold has; congruence|assumption|].
        eapply key_ltb_trans; eauto.
    - rewrite (Hnone s) in Hsk; [discriminate|unfold has; congruence]. }
  assert (Hgt : gtv = Some v).
  { destruct Hg as [(kmin & leaf & -> & Hlf & Hlt' & Hm)|[_ Hnone]].
    - destruct (Hm e) as [E|Hlt'']; [unfold has; congruence|assumption| |].
      + subst kmin. congruence.
      + exfalso. apply (Hinside kmin); [unfold has; congruence| |assumption].
        eapply key_ltb_trans; eauto.
    - rewrite (Hnone e) in Hke; [discriminate|unfold has; congruence]. }
  now rewrite Hlt, Hgt.
Qed.

Lemma Search_inside_a_range_witness :
  Search ranges_example (key_of [1; 0]%N) = Some (Some 7, None, Some 7).
Proof.
  apply (Search_inside_a_range Z [key_of [1%N]; key_of [3%N]]
           [key_of [2%N]; key_of [3%N]] [7; 8] ranges_example
           (key_of [1%N]) (key_of [2%N]) 7 (key_of [1; 0]%N)).
  - reflexivity.
  - vm_compute. reflexivity.
  - now left.
  - reflexivity.
  - reflexivity.
Defined.

End TrieProperties.
